(** * The FDB queue-service stress driver: scheduler, client and semaphore

  A shallow embedding of [apps/fdb-queue-service/stress-test/src/index.ts]
  (the [Semaphore], the [ProductionSimulator], the main and drain loops of
  [runSimulation]) and of the [FDBQueueClient] that follows it in the same
  file, together with the properties the specification states about them.

  Conventions.
  - JavaScript [Map]s are insertion-ordered; they are association lists here
    ([JsMap]), because the code iterates over them.
  - Integer-valued JavaScript numbers (counters, millisecond time stamps,
    priorities, permits) are [Z]. The numbers [generateJobs] computes with
    (the job rate, [Math.random], the interval and its jitter) are IEEE 754
    binary64 values, [spec_float] with the operations of the standard
    library's [SpecFloat] at precision 53 and maximal exponent 1024; so is
    the average of the tier summary. The readings of [performance.now()]
    are rationals [Q], and a latency is their exact difference.
  - [async] code is a tree of atomic segments ([Prog]): a segment runs to
    its next [await fetch], and only there can other code run. *)

From Stdlib Require Import QArith Qround Qpower Qabs Lqa Sorted SpecFloat.
From stdpp Require Import base decidable option list strings numbers pretty.

Open Scope Z_scope.

(** ** JavaScript numbers: IEEE 754 binary64

    [+], [-], [*] and [/] on numbers, each rounding to nearest, ties to
    even. *)
Notation "x ⊕ y" := (SFadd 53 1024 x y) (at level 50, left associativity).
Notation "x ⊖ y" := (SFsub 53 1024 x y) (at level 50, left associativity).
Notation "x ⊗ y" := (SFmul 53 1024 x y) (at level 40, left associativity).
Notation "x ⊘ y" := (SFdiv 53 1024 x y) (at level 40, left associativity).

Module Double.

(** The number that an integer literal or an integer-valued variable
    holds. *)
Definition ofZ (n : Z) : spec_float := binary_normalize 53 1024 n 0 false.

(** The literals [0.5] and [0.2]: [2^52 * 2^-53], and the double nearest to
    a fifth, [7205759403792794 * 2^-55]. *)
Definition half : spec_float := S754_finite false 4503599627370496 (-53).
Definition fifth : spec_float := S754_finite false 7205759403792794 (-55).

(** [Math.floor(x)] of a finite number, as an integer. *)
Definition floor (x : spec_float) : Z :=
  match x with
  | S754_finite s m e => Z.shiftl (cond_Zopp s (Z.pos m)) e
  | _ => 0
  end.

(** The rational a finite number stands for. *)
Definition toQ (x : spec_float) : Q :=
  match x with
  | S754_finite s m (Z.neg k) => Qmake (cond_Zopp s (Z.pos m)) (2 ^ k)
  | S754_finite s m e => inject_Z (cond_Zopp s (Z.pos m) * 2 ^ e)
  | _ => 0
  end.




End Double.

(** ** Insertion-ordered maps with string keys (JavaScript [Map]) *)

Module JsMap.
Section defs.
Context {V : Type}.

Definition t := list (string * V).

(** [m.get(k)] *)
Fixpoint get (k : string) (m : list (string * V)) : option V :=
  match m with
  | [] => None
  | (k', v) :: m' => if decide (k = k') then Some v else get k m'
  end.

Definition has (k : string) (m : list (string * V)) : bool :=
  bool_decide (is_Some (get k m)).

(** [m.set(k, v)]: an existing key keeps its position, a new one goes last. *)
Fixpoint set (k : string) (v : V) (m : list (string * V)) : list (string * V) :=
  match m with
  | [] => [(k, v)]
  | (k', v') :: m' =>
      if decide (k = k') then (k, v) :: m' else (k', v') :: set k v m'
  end.

(** [m.delete(k)] *)
Fixpoint delete (k : string) (m : list (string * V)) : list (string * V) :=
  match m with
  | [] => []
  | (k', v') :: m' =>
      if decide (k = k') then m' else (k', v') :: delete k m'
  end.

(** [m.size] *)
Definition size (m : list (string * V)) : Z := Z.of_nat (length m).

(** [m.values()], in insertion order *)
Definition values (m : list (string * V)) : list V := m.*2.

(** In-place mutation of the object stored under [k] (the code holds a
    reference obtained from [get] and assigns to its fields). *)
Fixpoint update (k : string) (f : V → V) (m : list (string * V)) : list (string * V) :=
  match m with
  | [] => []
  | (k', v) :: m' =>
      if decide (k = k') then (k', f v) :: m' else (k', v) :: update k f m'
  end.
End defs.
Arguments t : clear implicits.

End JsMap.

(** ** The counting semaphore

  [waiting] holds the [resolve] callbacks of the acquirers that found no
  permit; [W] is whatever such a callback resumes. *)

Module Semaphore.
Section defs.
Context {W : Type}.

Record t := mk { permits : Z; waiting : list W }.

(** [new Semaphore(permits)] *)
Definition new (n : Z) : t := {| permits := n; waiting := [] |}.

(** [acquire()], called on behalf of [w]: [true] when the promise is
    already resolved on return, [false] when [w] has been queued. *)
Definition acquire (w : W) (s : t) : t * bool :=
  if 0 <? permits s then
    ({| permits := permits s - 1; waiting := waiting s |}, true)
  else
    ({| permits := permits s; waiting := waiting s ++ [w] |}, false).

(** [release()]: the waiter it resolves, if any. *)
Definition release (s : t) : t * option W :=
  match waiting s with
  | next :: rest => ({| permits := permits s; waiting := rest |}, Some next)
  | [] => ({| permits := permits s + 1; waiting := [] |}, None)
  end.

Definition available (s : t) : Z := permits s.
Definition pending (s : t) : Z := Z.of_nat (length (waiting s)).

(** A history of calls, with what each one did to the callers. *)
Inductive op := Acquire (w : W) | Release.

Record history := mkH {
  sem : t;
  queued : list W;   (* acquirers that had to wait, in call order *)
  woken : list W     (* waiters resolved by [release], in call order *)
}.

Definition step (h : history) (o : op) : history :=
  match o with
  | Acquire w =>
      let '(s, now) := acquire w (sem h) in
      {| sem := s;
         queued := if now then queued h else queued h ++ [w];
         woken := woken h |}
  | Release =>
      let '(s, next) := release (sem h) in
      {| sem := s;
         queued := queued h;
         woken := match next with Some w => woken h ++ [w] | None => woken h end |}
  end.

Definition run (n : Z) (ops : list op) : history :=
  foldl step {| sem := new n; queued := []; woken := [] |} ops.

Definition inv (h : history) : Prop :=
  0 ≤ permits (sem h)
  ∧ (waiting (sem h) ≠ [] → permits (sem h) = 0)
  ∧ queued h = woken h ++ waiting (sem h).
End defs.
Arguments t : clear implicits.
Arguments op : clear implicits.
Arguments history : clear implicits.
End Semaphore.

(** ** Data model ([types.ts] is not among the sources; the shapes are read
  off their uses in [index.ts] and the client) *)

Module Tier.
Record t := mk {
  name : string;
  teamCount : nat;
  concurrencyLimit : Z;
  jobsPerSecond : spec_float
}.
End Tier.

Module ActiveJob.
Record t := mk {
  jobId : string;
  queueKey : string;
  startTime : Z;
  fromFDB : bool
}.
End ActiveJob.

Module TeamState.
Record t := mk {
  teamId : string;
  tier : Tier.t;
  activeJobs : JsMap.t ActiveJob.t;
  queuedJobs : Z;
  completedJobs : Z;
  lastPushTime : Z;
  jobCounter : Z
}.

Definition with_activeJobs (f : JsMap.t ActiveJob.t → JsMap.t ActiveJob.t) (s : t) : t :=
  mk (teamId s) (tier s) (f (activeJobs s)) (queuedJobs s) (completedJobs s)
     (lastPushTime s) (jobCounter s).
Definition with_queuedJobs (f : Z → Z) (s : t) : t :=
  mk (teamId s) (tier s) (activeJobs s) (f (queuedJobs s)) (completedJobs s)
     (lastPushTime s) (jobCounter s).
Definition with_completedJobs (f : Z → Z) (s : t) : t :=
  mk (teamId s) (tier s) (activeJobs s) (queuedJobs s) (f (completedJobs s))
     (lastPushTime s) (jobCounter s).
Definition with_lastPushTime (f : Z → Z) (s : t) : t :=
  mk (teamId s) (tier s) (activeJobs s) (queuedJobs s) (completedJobs s)
     (f (lastPushTime s)) (jobCounter s).
Definition with_jobCounter (f : Z → Z) (s : t) : t :=
  mk (teamId s) (tier s) (activeJobs s) (queuedJobs s) (completedJobs s)
     (lastPushTime s) (f (jobCounter s)).
End TeamState.

(** A row of [getTierStats]. *)
Module TierStats.
Record t := mk {
  tierName : string;
  teamCount : nat;
  concurrencyLimit : Z;
  totalJobsCompleted : Z;
  avgJobTimeMs : spec_float
}.
End TierStats.

Module MainQueueJob.
Record t := mk {
  jobId : string;
  teamId : string;
  priority : Z;
  createdAt : Z;
  crawlId : option string
}.
End MainQueueJob.

(** What [POST /queue/pop/{teamId}] answers: [{ job, queueKey }] or [null].
  The code guards every use with [claimed && claimed.job], so [job] may be
  absent. *)
Module ClaimedJob.
Record job_t := mkJob {
  id : string;
  priority : Z;
  created_at : Z;
  crawl_id : option string
}.
Record t := mk { job : option job_t; queueKey : string }.
End ClaimedJob.

Record Config := mkConfig {
  serviceUrl : string;
  workerConcurrency : Z;
  correctnessChecking : bool;
  jobProcessingDelayMs : Z;
  teamTiers : list Tier.t;
  verbose : bool
}.

(** *** HTTP exchanges *)

Inductive Method := GET | POST | DELETE.

Inductive OperationType :=
  push | pop | complete | release | activePush | activeRemove | activeCount
| teamQueueCount.

(** The JSON bodies the client serialises. *)
Inductive RequestBody :=
| PushJobRequest (teamId jobId : string) (dataTimestamp priority : Z)
    (timeout : Z) (crawlId : option string)
| PopJobRequest (workerId : string) (blockedCrawlIds : list string)
| CompleteJobRequest (queueKey : string)
| ReleaseJobRequest (jobId : string)
| PushActiveJobRequest (teamId jobId : string) (timeout : Z)
| RemoveActiveJobRequest (teamId jobId : string).

(** One call of [fetch(url, init)]; [abortAfter] is [AbortSignal.timeout]. *)
Record Request := mkRequest {
  req_method : Method;
  req_url : string;
  req_body : option RequestBody;
  req_abortAfter : option Z
}.

(** The JSON values the service answers with, as far as the client tells
    them apart: [null], a claim, an object with [success], an object with
    [count], an array of strings, and [JEmptyObject] for a value in which
    none of the fields the client reads is present. *)
Inductive Json :=
| JNull
| JClaimed (c : ClaimedJob.t)
| JSuccess (success : bool)
| JCount (count : Z)
| JStrings (ids : list string)
| JEmptyObject.

(** What [await response.text()] / [await response.json()] do: the read can
    fail, and the text need not parse. *)
Inductive Body :=
| BodyUnreadable (err : string)
| BodyText (text : string) (parsed : string + Json).

(** What [await fetch(...)] does: it rejects (network error, timeout), or
    gives a response with a status. *)
Inductive FetchOutcome :=
| FetchRejected (err : string)
| FetchResponse (status : Z) (statusText : string) (body : Body).

(** [response.ok] *)
Definition ok (status : Z) : bool := (200 <=? status) && (status <=? 299).

(** *** Collaborators whose classes are not among the sources: the metrics
    collector and the correctness checker are represented by the calls they
    receive. *)

Record MetricsRecord := mkMetrics {
  operationType : OperationType;
  latencyMs : Q;
  success : bool;
  httpStatus : option Z;
  errorMessage : option string;
  responseBody : option string
}.

Inductive OracleCall :=
| recordPush (jobId teamId : string) (priority timestamp : Z) (crawlId : option string)
| confirmPush (jobId : string)
| recordClaim (claimed : ClaimedJob.t) (teamId : string)
| recordComplete (jobId : string).

(** *** The history of effects, oldest first

    The first three are the calls that leave the process or reach a
    collaborator. The others are ghost events: they record, in program order,
    each mutation of a tenant's bookkeeping, so that statements about the
    order of effects can be made. *)
Inductive Effect :=
| EFetch (req : Request)
| EMetrics (r : MetricsRecord)
| EOracle (c : OracleCall)
| EActiveSet (teamId jobId : string) (fromFDB : bool)
| EActiveDelete (teamId jobId : string) (removed : bool)
| ECompleted (teamId : string)
| EQueuedInc (teamId : string)
| EQueuedDec (teamId : string).

(** ** The state shared by all code of the process *)

Record World := mkWorld {
  config : Config;
  (* ProductionSimulator *)
  teams : JsMap.t TeamState.t;
  mainQueue : list MainQueueJob.t;
  runId : string;
  jobCounter : Z;
  (* FDBQueueClient *)
  workerId : string;
  (* the environment: [Date.now()], [performance.now()], [Math.random()] *)
  dateNow : Z;
  perfNow : Q;
  randoms : nat → spec_float;
  randomsUsed : nat;
  (* history *)
  log : list Effect
}.

Definition with_teams (f : JsMap.t TeamState.t → JsMap.t TeamState.t) (w : World) : World :=
  mkWorld (config w) (f (teams w)) (mainQueue w) (runId w) (jobCounter w) (workerId w)
    (dateNow w) (perfNow w) (randoms w) (randomsUsed w) (log w).
Definition with_mainQueue (f : list MainQueueJob.t → list MainQueueJob.t) (w : World) : World :=
  mkWorld (config w) (teams w) (f (mainQueue w)) (runId w) (jobCounter w) (workerId w)
    (dateNow w) (perfNow w) (randoms w) (randomsUsed w) (log w).
Definition with_jobCounter (f : Z → Z) (w : World) : World :=
  mkWorld (config w) (teams w) (mainQueue w) (runId w) (f (jobCounter w)) (workerId w)
    (dateNow w) (perfNow w) (randoms w) (randomsUsed w) (log w).
Definition with_clock (now : Z) (perf : Q) (w : World) : World :=
  mkWorld (config w) (teams w) (mainQueue w) (runId w) (jobCounter w) (workerId w)
    now perf (randoms w) (randomsUsed w) (log w).
Definition with_randomsUsed (f : nat → nat) (w : World) : World :=
  mkWorld (config w) (teams w) (mainQueue w) (runId w) (jobCounter w) (workerId w)
    (dateNow w) (perfNow w) (randoms w) (f (randomsUsed w)) (log w).
Definition emit (e : Effect) (w : World) : World :=
  mkWorld (config w) (teams w) (mainQueue w) (runId w) (jobCounter w) (workerId w)
    (dateNow w) (perfNow w) (randoms w) (randomsUsed w) (log w ++ [e]).

(** Mutation of one tenant's record, found by id. *)
Definition with_team (teamId : string) (f : TeamState.t → TeamState.t) : World → World :=
  with_teams (JsMap.update teamId f).

(** ** Asynchronous programs

    A program is a tree: reads and writes of the shared state, and [Await]
    nodes where the code waits for [fetch]. Everything between two [Await]s
    runs without interruption (JavaScript runs one job to completion), so the
    [Await]s are exactly the places where other code can run. Awaiting the
    result of one of the program's own [async] functions is sequencing. *)

Inductive Prog (A : Type) : Type :=
| Ret (a : A)
| Throw (e : string)
| Get (k : World → Prog A)
| Modify (f : World → World) (p : Prog A)
| Await (req : Request) (k : FetchOutcome → Prog A).
Arguments Ret {A} a.
Arguments Throw {A} e.
Arguments Get {A} k.
Arguments Modify {A} f p.
Arguments Await {A} req k.

Fixpoint bind {A B} (p : Prog A) (f : A → Prog B) : Prog B :=
  match p with
  | Ret a => f a
  | Throw e => Throw e
  | Get k => Get (λ w, bind (k w) f)
  | Modify g p => Modify g (bind p f)
  | Await r k => Await r (λ o, bind (k o) f)
  end.

Global Instance Prog_ret : MRet Prog := @Ret.
Global Instance Prog_bind : MBind Prog := λ A B f p, bind p f.

Definition get : Prog World := Get Ret.
Definition gets {A} (f : World → A) : Prog A := Get (λ w, Ret (f w)).
Definition modify (f : World → World) : Prog unit := Modify f (Ret tt).
Definition skip : Prog unit := Ret tt.

(** How a program, run from [w], reaches its next suspension or its end. *)
Inductive Outcome (A : Type) : Type :=
| Finished (a : A)
| Threw (e : string)
| Awaiting (req : Request) (k : FetchOutcome → Prog A).
Arguments Finished {A} a.
Arguments Threw {A} e.
Arguments Awaiting {A} req k.

Fixpoint runSegment {A} (p : Prog A) (w : World) : World * Outcome A :=
  match p with
  | Ret a => (w, Finished a)
  | Throw e => (w, Threw e)
  | Get k => runSegment (k w) w
  | Modify f p => runSegment p (f w)
  | Await r k => (w, Awaiting r k)
  end.

(** What the environment supplies when an awaited [fetch] settles: the
    outcome, and the clocks as they then read. *)
Record Resumption := mkResumption {
  settled : FetchOutcome;
  atDate : Z;
  atPerf : Q
}.

(** A program run on its own, its awaits answered in turn from [rs]. *)
Fixpoint exec {A} (p : Prog A) (rs : list Resumption) (w : World)
  : World * Outcome A * list Resumption :=
  match p with
  | Ret a => (w, Finished a, rs)
  | Throw e => (w, Threw e, rs)
  | Get k => exec (k w) rs w
  | Modify f p => exec p rs (f w)
  | Await r k =>
      match rs with
      | [] => (w, Awaiting r k, [])
      | x :: rs' => exec (k (settled x)) rs' (with_clock (atDate x) (atPerf x) w)
      end
  end.

Fixpoint forEach {A} (l : list A) (body : A → Prog unit) : Prog unit :=
  match l with
  | [] => Ret tt
  | x :: l' => body x ;; forEach l' body
  end.

(** *** The environment and the collaborators, as primitives *)

Definition Date_now : Prog Z := gets dateNow.
Definition performance_now : Prog Q := gets perfNow.

(** [Math.random()]: the next number of the stream. *)
Definition Math_random : Prog spec_float :=
  Get (λ w, Modify (with_randomsUsed S) (Ret (randoms w (randomsUsed w)))).

(** [await fetch(url, init)]: the request leaves, and the caller waits. *)
Definition fetch (req : Request) : Prog FetchOutcome :=
  Modify (emit (EFetch req)) (Await req Ret).

(** [this.metrics.record(...)] *)
Definition metrics_record (r : MetricsRecord) : Prog unit :=
  modify (emit (EMetrics r)).

(** [this.correctnessChecker?.m(...)]: nothing happens without a checker. *)
Definition told (w : World) (c : OracleCall) : list Effect :=
  if correctnessChecking (config w) then [EOracle c] else [].

Definition tell (c : OracleCall) (w : World) : World :=
  if correctnessChecking (config w) then emit (EOracle c) w else w.

Definition oracle (c : OracleCall) : Prog unit := modify (tell c).

(** *** Strings *)

Definition newline : string := String (Ascii.ascii_of_nat 10) EmptyString.

(** [s.padStart(n, c)] *)
Definition padStart (n : nat) (c : Ascii.ascii) (s : string) : string :=
  String.string_of_list_ascii (replicate (n - String.length s) c) +:+ s.

Definition hexDigit (n : N) : Ascii.ascii :=
  Ascii.ascii_of_N (if (n <? 10)%N then 48 + n else 55 + n)%N.

Definition unreserved (c : Ascii.ascii) : bool :=
  let n := Ascii.N_of_ascii c in
  ((48 <=? n) && (n <=? 57) || (65 <=? n) && (n <=? 90) || (97 <=? n) && (n <=? 122)
   || bool_decide (n ∈ [45; 95; 46; 33; 126; 42; 39; 40; 41]))%N.

(** [encodeURIComponent(s)], on the UTF-8 bytes of [s]: every byte but
    letters, digits and [- _ . ! ~ * ' ( )] becomes [%XX]. *)
Fixpoint encodeURIComponent (s : string) : string :=
  match s with
  | EmptyString => EmptyString
  | String c s' =>
      if unreserved c then String c (encodeURIComponent s')
      else
        let n := Ascii.N_of_ascii c in
        String (Ascii.ascii_of_nat 37) (String (hexDigit (n / 16)) (String (hexDigit (n mod 16))
          (encodeURIComponent s')))
  end.

(** ** The queue-service client *)

Module FDBQueueClient.

Record RequestResult := mkResult {
  data : Json;
  succeeded : bool;
  error : option string
}.

(** The [catch] block of [request]. *)
Definition requestFailed (operationType : OperationType) (startTime : Q)
    (errorMessage : string) : Prog RequestResult :=
  now ← performance_now;
  let latencyMs := (now - startTime)%Q in
  metrics_record
    (mkMetrics operationType latencyMs false None
       (Some ("Network error: " +:+ errorMessage)) None) ;;
  Ret (mkResult JNull false (Some errorMessage)).

(** [request<T>(method, path, operationType, body?)]. The body of the
    response is read when the response arrives ([response.text()] and
    [response.json()] are folded into the one suspension); writing to the
    console in verbose mode is left out. *)
Definition request (method : Method) (path : string) (operationType : OperationType)
    (body : option RequestBody) : Prog RequestResult :=
  baseUrl ← gets (λ w, serviceUrl (config w));
  let url := baseUrl +:+ path in
  startTime ← performance_now;
  response ← fetch (mkRequest method url body None);
  match response with
  | FetchRejected err => requestFailed operationType startTime err
  | FetchResponse status statusText body =>
      now ← performance_now;
      let latencyMs := (now - startTime)%Q in
      if negb (ok status) then
        match body with
        | BodyUnreadable err => requestFailed operationType startTime err
        | BodyText responseBody _ =>
            let errorMessage :=
              "HTTP " +:+ pretty status +:+ " " +:+ statusText +:+ ": " +:+ path in
            metrics_record
              (mkMetrics operationType latencyMs false (Some status)
                 (Some errorMessage) (Some responseBody)) ;;
            Ret (mkResult JNull false (Some (errorMessage +:+ newline +:+ responseBody)))
        end
      else
        match body with
        | BodyUnreadable err => requestFailed operationType startTime err
        | BodyText _ (inl err) => requestFailed operationType startTime err
        | BodyText _ (inr data) =>
            metrics_record (mkMetrics operationType latencyMs true None None None) ;;
            Ret (mkResult data true None)
        end
  end.

(** [data && data.job]: the claim, when the answer carries a job. *)
Definition claimWithJob (data : Json) : option (ClaimedJob.t * ClaimedJob.job_t) :=
  match data with
  | JClaimed c => match ClaimedJob.job c with Some j => Some (c, j) | None => None end
  | _ => None
  end.

(** [pushJob]; [recordPush] is taken to return a record whenever there is
    a checker. *)
Definition pushJob (teamId jobId : string) (priority timeout : Z)
    (crawlId : option string) : Prog bool :=
  dataTimestamp ← Date_now;
  pushRecord ← gets (λ w, correctnessChecking (config w));
  oracle (recordPush jobId teamId priority dataTimestamp crawlId) ;;
  let body := PushJobRequest teamId jobId dataTimestamp priority timeout crawlId in
  result ← request POST "/queue/push" push (Some body);
  (if succeeded result && pushRecord then oracle (confirmPush jobId) else skip) ;;
  Ret (succeeded result).

Definition popJob (teamId : string) : Prog Json :=
  wid ← gets workerId;
  let body := PopJobRequest wid [] in
  result ← request POST ("/queue/pop/" +:+ encodeURIComponent teamId) pop (Some body);
  match claimWithJob (data result) with
  | Some (c, _) => oracle (recordClaim c teamId)
  | None => skip
  end ;;
  Ret (data result).

Definition completeJob (queueKey : string) : Prog bool :=
  result ← request POST "/queue/complete" complete (Some (CompleteJobRequest queueKey));
  Ret (succeeded result
       && match data result with JSuccess b => b | _ => false end).

Definition releaseJob (jobId : string) : Prog bool :=
  result ← request POST "/queue/release" release (Some (ReleaseJobRequest jobId));
  Ret (succeeded result).

Definition pushActiveJob (teamId jobId : string) (timeout : Z) : Prog bool :=
  result ← request POST "/active/push" activePush
              (Some (PushActiveJobRequest teamId jobId timeout));
  Ret (succeeded result).

Definition removeActiveJob (teamId jobId : string) : Prog bool :=
  result ← request DELETE "/active/remove" activeRemove
              (Some (RemoveActiveJobRequest teamId jobId));
  Ret (succeeded result).

Definition countOf (data : Json) : option Z :=
  match data with JCount n => Some n | _ => None end.

Definition getActiveCount (teamId : string) : Prog (option Z) :=
  result ← request GET ("/active/count/" +:+ encodeURIComponent teamId) activeCount None;
  Ret (countOf (data result)).

Definition getTeamQueueCount (teamId : string) : Prog (option Z) :=
  result ← request GET ("/queue/count/team/" +:+ encodeURIComponent teamId)
              teamQueueCount None;
  Ret (countOf (data result)).

Definition healthCheck : Prog bool :=
  baseUrl ← gets (λ w, serviceUrl (config w));
  response ← fetch (mkRequest GET (baseUrl +:+ "/health") None None);
  match response with
  | FetchResponse status _ _ => Ret (ok status)
  | FetchRejected _ => Ret false
  end.

(** The request of one flush pop. *)
Definition flushPop (baseUrl workerId teamId : string) : Request :=
  mkRequest POST (baseUrl +:+ "/queue/pop/" +:+ encodeURIComponent teamId)
    (Some (PopJobRequest ("flush-" +:+ workerId) [])) (Some 10000).

(** Whether a flush pop brought a job: [response.ok], a body that parses,
    and [data && data.job]. *)
Definition flushed_one (response : FetchOutcome) : bool :=
  match response with
  | FetchResponse status _ (BodyText _ (inr data)) =>
      ok status && bool_decide (is_Some (claimWithJob data))
  | _ => false
  end.

(** The [while (emptyCount < 3)] loop of [flushTeamQueue]. The loop has no
    bound of its own: [fuel] is the number of iterations it is given, and
    [None] is the answer of a loop that wanted more. *)
Fixpoint flushLoop (fuel : nat) (teamId : string) (flushed emptyCount : Z)
  : Prog (option Z) :=
  if 3 <=? emptyCount then Ret (Some flushed) else
  match fuel with
  | O => Ret None
  | S fuel' =>
      baseUrl ← gets (λ w, serviceUrl (config w));
      wid ← gets workerId;
      response ← fetch (flushPop baseUrl wid teamId);
      if flushed_one response
      then flushLoop fuel' teamId (flushed + 1) 0
      else flushLoop fuel' teamId flushed (emptyCount + 1)
  end.

Definition flushTeamQueue (fuel : nat) (teamId : string) : Prog (option Z) :=
  flushLoop fuel teamId 0 0.

End FDBQueueClient.

(** ** The simulator *)

Module ProductionSimulator.

Definition jobTimeout : Z := 600000.

Definition getTeam (teamId : string) : Prog (option TeamState.t) :=
  gets (λ w, JsMap.get teamId (teams w)).

(** *** [initializeTeams] *)

Definition teamIdOf (teamIndex : nat) : string :=
  "stress-team-" +:+ padStart 6 (Ascii.ascii_of_nat 48) (pretty teamIndex).

Definition newTeam (teamId : string) (tier : Tier.t) : TeamState.t :=
  TeamState.mk teamId tier [] 0 0 0 0.

Fixpoint initializeTeams (tiers : list Tier.t) (teamIndex : nat)
    (teams : JsMap.t TeamState.t) : JsMap.t TeamState.t :=
  match tiers with
  | [] => teams
  | tier :: tiers' =>
      initializeTeams tiers' (teamIndex + Tier.teamCount tier)
        (foldl (λ m i, let teamId := teamIdOf (teamIndex + i) in
                       JsMap.set teamId (newTeam teamId tier) m)
               teams (seq 0 (Tier.teamCount tier)))
  end.

(** *** [generateJobs] *)

(** [1000 / team.tier.jobsPerSecond] *)
Definition intervalMs (tier : Tier.t) : spec_float :=
  Double.ofZ 1000 ⊘ Tier.jobsPerSecond tier.

(** [(Math.random() - 0.5) * intervalMs * 0.2] *)
Definition jitterOf (random intervalMs : spec_float) : spec_float :=
  (random ⊖ Double.half) ⊗ intervalMs ⊗ Double.fifth.

(** [timeSinceLastPush >= intervalMs + jitter], with
    [timeSinceLastPush = now - team.lastPushTime]. A comparison with [NaN]
    is false. *)
Definition due (tier : Tier.t) (now lastPushTime : Z) (random : spec_float) : bool :=
  SFleb (intervalMs tier ⊕ jitterOf random (intervalMs tier))
    (Double.ofZ now ⊖ Double.ofZ lastPushTime).

Definition jobIdOf (teamId runId : string) (jobCounter : Z) : string :=
  teamId +:+ "-" +:+ runId +:+ "-job-" +:+ pretty jobCounter.

(** [Math.floor(team.jobCounter / 10)] is the integer quotient: the
    fractional part of a tenth of an integer is at most 0.9, out of reach of
    the rounding of the division. *)
Definition crawlIdOf (teamId runId : string) (jobCounter : Z) : string :=
  teamId +:+ "-" +:+ runId +:+ "-crawl-" +:+ pretty (jobCounter / 10).

(** [Math.random() < 0.2 ? crawl id : undefined] *)
Definition crawlIdFor (random : spec_float) (teamId runId : string) (jobCounter : Z)
  : option string :=
  if SFltb random Double.fifth then Some (crawlIdOf teamId runId jobCounter) else None.

(** [Math.floor(Math.random() * 100) + 1]; the sum is exact, the floor
    being an integer below [2^53]. *)
Definition priorityFor (random : spec_float) : Z :=
  Double.floor (random ⊗ Double.ofZ 100) + 1.

(** The body of the loop over [this.teams.values()], for the tenant stored
    under [key]. *)
Definition generateFor (now : Z) (key : string) : Prog unit :=
  found ← getTeam key;
  match found with
  | None => skip
  | Some team =>
      random ← Math_random;
      if due (TeamState.tier team) now (TeamState.lastPushTime team) random then
        modify (with_jobCounter (λ n, n + 1)) ;;
        modify (with_team key (TeamState.with_jobCounter (λ n, n + 1))) ;;
        let counter := TeamState.jobCounter team + 1 in
        runId ← gets runId;
        let jobId := jobIdOf (TeamState.teamId team) runId counter in
        forCrawl ← Math_random;
        let crawlId := crawlIdFor forCrawl (TeamState.teamId team) runId counter in
        forPriority ← Math_random;
        modify (with_mainQueue (λ q, q ++
          [MainQueueJob.mk jobId (TeamState.teamId team) (priorityFor forPriority) now crawlId])) ;;
        modify (with_team key (TeamState.with_lastPushTime (λ _, now)))
      else skip
  end.

Definition generateJobs (now : Z) : Prog unit :=
  keys ← gets (λ w, (teams w).*1);
  forEach keys (generateFor now).

(** *** [pickJobFromMainQueue] *)

(** The [for] loop: [i] is the index of the head of [rest]. *)
Fixpoint scanBest (rest : list MainQueueJob.t) (i bestIdx : nat) (bestPriority : Z) : nat :=
  match rest with
  | [] => bestIdx
  | job :: rest' =>
      if MainQueueJob.priority job <? bestPriority
      then scanBest rest' (S i) i (MainQueueJob.priority job)
      else scanBest rest' (S i) bestIdx bestPriority
  end.

Definition pickBest (queue : list MainQueueJob.t)
  : option (MainQueueJob.t * list MainQueueJob.t) :=
  match queue with
  | [] => None
  | first :: rest =>
      let bestIdx := scanBest rest 1 0 (MainQueueJob.priority first) in
      match queue !! bestIdx with
      | Some job => Some (job, delete bestIdx queue)   (* splice(bestIdx, 1) *)
      | None => None
      end
  end.

Definition pickJobFromMainQueue : Prog (option MainQueueJob.t) :=
  queue ← gets mainQueue;
  match pickBest queue with
  | None => Ret None
  | Some (job, queue') => modify (with_mainQueue (λ _, queue')) ;; Ret (Some job)
  end.

(** *** [startJob], [isTeamAtCapacity] *)

(** [this.teams.get(job.teamId)!] is not checked: for an unknown tenant the
    next line throws a [TypeError]. *)
Definition startJob (job : MainQueueJob.t) (now : Z) (fromFDB : bool) : Prog ActiveJob.t :=
  found ← getTeam (MainQueueJob.teamId job);
  match found with
  | None => Throw "TypeError: Cannot read properties of undefined (reading 'activeJobs')"
  | Some _ =>
      let activeJob := ActiveJob.mk (MainQueueJob.jobId job) "" now fromFDB in
      Modify (λ w, emit (EActiveSet (MainQueueJob.teamId job) (MainQueueJob.jobId job) fromFDB)
                     (with_team (MainQueueJob.teamId job)
                        (TeamState.with_activeJobs
                           (JsMap.set (MainQueueJob.jobId job) activeJob)) w))
        (Ret activeJob)
  end.

Definition atCapacity (team : TeamState.t) : bool :=
  Tier.concurrencyLimit (TeamState.tier team) <=? JsMap.size (TeamState.activeJobs team).

Definition isTeamAtCapacity (teamId : string) : Prog bool :=
  found ← getTeam teamId;
  match found with
  | None => Ret true
  | Some team => Ret (atCapacity team)
  end.

(** *** [pushToConcurrencyQueue] *)

Definition pushToConcurrencyQueue (job : MainQueueJob.t) : Prog bool :=
  found ← getTeam (MainQueueJob.teamId job);
  match found with
  | None => Ret false
  | Some _ =>
      success ← FDBQueueClient.pushJob (MainQueueJob.teamId job) (MainQueueJob.jobId job)
                  (MainQueueJob.priority job) jobTimeout (MainQueueJob.crawlId job);
      (if success : bool then
         Modify (λ w, emit (EQueuedInc (MainQueueJob.teamId job))
                        (with_team (MainQueueJob.teamId job)
                           (TeamState.with_queuedJobs (λ n, n + 1)) w))
           (Ret tt)
       else skip) ;;
      Ret success
  end.

(** *** [completeJob] *)

Definition isEmpty (s : string) : bool := bool_decide (s = EmptyString).

Definition promoted (teamId : string) (job : ClaimedJob.job_t) : MainQueueJob.t :=
  MainQueueJob.mk (ClaimedJob.id job) teamId (ClaimedJob.priority job)
    (ClaimedJob.created_at job) (ClaimedJob.crawl_id job).

(** [team] is a reference: [team.queuedJobs] is read again, as it stands
    after the awaits before it. *)
Definition completeJob (teamId : string) (activeJob : ActiveJob.t)
  : Prog (option MainQueueJob.t) :=
  found ← getTeam teamId;
  match found with
  | None => Ret None
  | Some _ =>
      Modify (λ w,
        let removed :=
          match JsMap.get teamId (teams w) with
          | Some team => JsMap.has (ActiveJob.jobId activeJob) (TeamState.activeJobs team)
          | None => false
          end in
        emit (EActiveDelete teamId (ActiveJob.jobId activeJob) removed)
          (with_team teamId
             (TeamState.with_activeJobs (JsMap.delete (ActiveJob.jobId activeJob))) w))
        (Ret tt) ;;
      Modify (λ w, emit (ECompleted teamId)
                     (with_team teamId (TeamState.with_completedJobs (λ n, n + 1)) w))
        (Ret tt) ;;
      (if ActiveJob.fromFDB activeJob
       then oracle (recordComplete (ActiveJob.jobId activeJob)) else skip) ;;
      (if negb (isEmpty (ActiveJob.queueKey activeJob))
       then FDBQueueClient.completeJob (ActiveJob.queueKey activeJob) ;; skip
       else skip) ;;
      again ← getTeam teamId;
      match again with
      | None => Ret None
      | Some team =>
          if 0 <? TeamState.queuedJobs team then
            claimed ← FDBQueueClient.popJob teamId;
            match FDBQueueClient.claimWithJob claimed with
            | Some (c, job) =>
                Modify (λ w, emit (EQueuedDec teamId)
                               (with_team teamId
                                  (TeamState.with_queuedJobs (λ n, n - 1)) w))
                  (Ret tt) ;;
                oracle (recordClaim c teamId) ;;
                Ret (Some (promoted teamId job))
            | None => Ret None
            end
          else Ret None
      end
  end.

(** *** [getCompletableJobs] *)

Definition getCompletableJobs (delay : Z) (team : TeamState.t) (now : Z) : list ActiveJob.t :=
  filter (λ job, delay ≤ now - ActiveJob.startTime job)
    (JsMap.values (TeamState.activeJobs team)).

Definition getTotalActiveJobs (w : World) : Z :=
  foldl (λ total team, total + JsMap.size (TeamState.activeJobs team)) 0
    (JsMap.values (teams w)).

(** *** [getTotalTeams], [getTotalCompletedJobs], [getMainQueueSize] *)

Definition getTotalTeams (w : World) : Z := JsMap.size (teams w).

Definition getTotalCompletedJobs (w : World) : Z :=
  foldl (λ total team, total + TeamState.completedJobs team) 0 (JsMap.values (teams w)).

Definition getMainQueueSize (w : World) : Z := Z.of_nat (length (mainQueue w)).

(** *** [getTierStats] *)

(** The first loop: [tierMap], from tier name to the tenants of that name
    and the tier of the first of them. *)
Definition groupByTier (teams : list TeamState.t) : JsMap.t (list TeamState.t * Tier.t) :=
  foldl (λ tierMap team,
           let name := Tier.name (TeamState.tier team) in
           match JsMap.get name tierMap with
           | Some _ => JsMap.update name (λ existing, (existing.1 ++ [team], existing.2)) tierMap
           | None => JsMap.set name ([team], TeamState.tier team) tierMap
           end)
    [] teams.

(** The row of one group; [now] is [Date.now()], which the code reads once
    for every tenant of the group. *)
Definition tierStatsOf (now delay : Z) (group : list TeamState.t * Tier.t) : TierStats.t :=
  let totalCompleted :=
    foldl (λ total team, total + TeamState.completedJobs team) 0 group.1 in
  let totalJobTimeMs :=
    foldl (λ total team,
             foldl (λ total job, total + (now - ActiveJob.startTime job)) total
               (JsMap.values (TeamState.activeJobs team)))
      0 group.1 in
  let jobCount :=
    foldl (λ count team,
             foldl (λ count _, count + 1) count (JsMap.values (TeamState.activeJobs team)))
      0 group.1 in
  TierStats.mk (Tier.name group.2) (Tier.teamCount group.2) (Tier.concurrencyLimit group.2)
    totalCompleted
    (if 0 <? jobCount then Double.ofZ totalJobTimeMs ⊘ Double.ofZ jobCount
     else Double.ofZ delay).

Definition getTierStats (w : World) : list TierStats.t :=
  tierStatsOf (dateNow w) (jobProcessingDelayMs (config w))
  <$> JsMap.values (groupByTier (JsMap.values (teams w))).

End ProductionSimulator.

(** ** [runSimulation]: the main loop, the drain loop and the tasks

    JavaScript runs one job at a time. The main function runs from one of its
    own awaits (a timer) to the next; a task given to [runTask] runs from one
    [fetch] to the next. A task whose [acquire] promise is resolved continues
    as a microtask, before any timer or response is handled. *)

Module Simulation.
Import ProductionSimulator.

Inductive Phase :=
| Starting            (* before the health check has answered *)
| Running             (* the main [while] loop *)
| WaitingForInFlight  (* after it: polling [inFlight] *)
| Draining            (* the drain loop *)
| Stopped             (* [runSimulation] has returned *)
| Exited (code : Z).  (* [process.exit] *)

Record System := mkSystem {
  world : World;
  semaphore : Semaphore.t (Prog unit);
  inFlight : Z;
  overflowQueue : list MainQueueJob.t;
  microtasks : list (Prog unit);
  pending : list (Request * (FetchOutcome → Prog unit));
  phase : Phase
}.

Definition set_world (w : World) (s : System) : System :=
  mkSystem w (semaphore s) (inFlight s) (overflowQueue s) (microtasks s) (pending s) (phase s).
Definition set_phase (p : Phase) (s : System) : System :=
  mkSystem (world s) (semaphore s) (inFlight s) (overflowQueue s) (microtasks s) (pending s) p.
Definition set_overflowQueue (q : list MainQueueJob.t) (s : System) : System :=
  mkSystem (world s) (semaphore s) (inFlight s) q (microtasks s) (pending s) (phase s).

(** *** The four kinds of task *)

(** Phase 2: [await simulator.pushToConcurrencyQueue(client, job)] *)
Definition pushTask (job : MainQueueJob.t) : Prog unit :=
  pushToConcurrencyQueue job ;; skip.

(** Phase 3: [await client.pushActiveJob(job.teamId, job.jobId, 600_000)] *)
Definition activePushTask (job : MainQueueJob.t) : Prog unit :=
  FDBQueueClient.pushActiveJob (MainQueueJob.teamId job) (MainQueueJob.jobId job) 600000 ;; skip.

(** Phase 4 of the main loop: complete, and start what was promoted. *)
Definition promoteTask (teamId : string) (activeJob : ActiveJob.t) : Prog unit :=
  FDBQueueClient.removeActiveJob teamId (ActiveJob.jobId activeJob) ;;
  promoted ← completeJob teamId activeJob;
  match promoted with
  | Some job =>
      now ← Date_now;
      startJob job now true ;;
      FDBQueueClient.pushActiveJob (MainQueueJob.teamId job) (MainQueueJob.jobId job) 600000 ;;
      skip
  | None => skip
  end.

(** The drain loop: complete; the value of [completeJob] is not used. *)
Definition drainTask (teamId : string) (activeJob : ActiveJob.t) : Prog unit :=
  FDBQueueClient.removeActiveJob teamId (ActiveJob.jobId activeJob) ;;
  completeJob teamId activeJob ;;
  skip.

(** *** [runTask] *)

(** [runTask(task)], up to its [await semaphore.acquire()]: [acquire] itself
    runs at once, so the permit is taken (or the task queued) before
    [runTask] returns to its caller. *)
Definition runTask (task : Prog unit) (s : System) : System :=
  let '(sem, resolved) := Semaphore.acquire task (semaphore s) in
  mkSystem (world s) sem (inFlight s) (overflowQueue s)
    (if resolved then microtasks s ++ [task] else microtasks s)
    (pending s) (phase s).

(** The [finally] of [runTask]: [inFlight--; semaphore.release()]. *)
Definition finally (s : System) : System :=
  let '(sem, next) := Semaphore.release (semaphore s) in
  mkSystem (world s) sem (inFlight s - 1) (overflowQueue s)
    (match next with Some task => microtasks s ++ [task] | None => microtasks s end)
    (pending s) (phase s).

(** A task has run a segment from [world s] and reached [o]. A task that
    throws rejects the promise of [runTask], which nothing handles: the
    process ends. *)
Definition afterSegment (s : System) (r : World * Outcome unit) : System :=
  match r with
  | (w, Finished _) => finally (set_world w s)
  | (w, Threw _) => set_phase (Exited 1) (finally (set_world w s))
  | (w, Awaiting req k) =>
      mkSystem w (semaphore s) (inFlight s) (overflowQueue s) (microtasks s)
        (pending s ++ [(req, k)]) (phase s)
  end.

(** *** One pass of the main loop *)

(** Code of the main function that has no await in it. *)
Definition sync {A} (p : Prog A) (w : World) : World * (A + string) :=
  match runSegment p w with
  | (w', Finished a) => (w', inl a)
  | (w', Threw e) => (w', inr e)
  | (w', Awaiting _ _) => (w', inr "await in synchronous code")
  end.

(** An exception in the main function: [runSimulation().catch] prints it
    and calls [process.exit(1)]. *)
Definition fatal (w : World) (s : System) : System :=
  set_phase (Exited 1) (set_world w s).

(** Phase 2: every overflow job is shifted out and given to [runTask]. *)
Definition drainOverflow (s : System) : System :=
  foldl (λ s job, runTask (pushTask job) s) (set_overflowQueue [] s) (overflowQueue s).

(** Phase 3: [for (let i = 0; i < 100 && semaphore.available > 0; i++)];
    [rounds] is what is left of the hundred. *)
Fixpoint dispatch (rounds : nat) (now : Z) (s : System) : System :=
  match rounds with
  | O => s
  | S rounds' =>
      if 0 <? Semaphore.available (semaphore s) then
        match sync pickJobFromMainQueue (world s) with
        | (w, inl None) => set_world w s
        | (w, inl (Some job)) =>
            match sync (isTeamAtCapacity (MainQueueJob.teamId job)) w with
            | (w, inl true) =>
                dispatch rounds' now
                  (set_overflowQueue (overflowQueue s ++ [job]) (set_world w s))
            | (w, inl false) =>
                match sync (startJob job now false) w with
                | (w, inl _) =>
                    dispatch rounds' now (runTask (activePushTask job) (set_world w s))
                | (w, inr _) => fatal w s
                end
            | (w, inr _) => fatal w s
            end
        | (w, inr _) => fatal w s
        end
      else s
  end.

(** Phase 4, and the body of the drain loop: one task per completable job
    of each tenant. *)
Definition spawnCompletions (task : string → ActiveJob.t → Prog unit) (now : Z)
    (s : System) : System :=
  foldl (λ s team,
           foldl (λ s activeJob, runTask (task (TeamState.teamId team) activeJob) s) s
             (getCompletableJobs (jobProcessingDelayMs (config (world s))) team now))
    s (JsMap.values (teams (world s))).

Definition mainIteration (now : Z) (s : System) : System :=
  match sync (generateJobs now) (world s) with
  | (w, inr _) => fatal w s
  | (w, inl _) =>
      let s := drainOverflow (set_world w s) in
      let s := dispatch 100 now s in
      match phase s with
      | Exited _ => s
      | _ => spawnCompletions promoteTask now s
      end
  end.

Definition drainIteration (now : Z) (s : System) : System :=
  spawnCompletions drainTask now s.

(** *** The steps of the process *)

Inductive Label :=
| HealthChecked (r : Resumption)
| MainIteration (now : Z)
| LeaveMainLoop
| EnterDrain
| DrainIteration (now : Z)
| LeaveDrain
| RunMicrotask (now : Z) (perf : Q)
| Settle (i : nat) (r : Resumption).

Definition alive (s : System) : bool :=
  match phase s with Exited _ => false | _ => true end.

Definition step (l : Label) (s : System) : option System :=
  if negb (alive s) then None else
  match l, microtasks s with
  | RunMicrotask now perf, task :: rest =>
      let s := mkSystem (with_clock now perf (world s)) (semaphore s) (inFlight s + 1)
                 (overflowQueue s) rest (pending s) (phase s) in
      Some (afterSegment s (runSegment task (world s)))
  | RunMicrotask _ _, [] => None
  | _, _ :: _ => None
  | HealthChecked r, [] =>
      match phase s with
      | Starting =>
          match exec FDBQueueClient.healthCheck [r] (world s) with
          | (w, Finished healthy, _) =>
              Some (set_phase (if healthy then Running else Exited 1) (set_world w s))
          | _ => None
          end
      | _ => None
      end
  | MainIteration now, [] =>
      match phase s with
      | Running => Some (mainIteration now s)
      | _ => None
      end
  | LeaveMainLoop, [] =>
      match phase s with
      | Running => Some (set_phase WaitingForInFlight s)
      | _ => None
      end
  | EnterDrain, [] =>
      match phase s with
      | WaitingForInFlight =>
          if inFlight s <=? 0 then Some (set_phase Draining s) else None
      | _ => None
      end
  | DrainIteration now, [] =>
      match phase s with
      | Draining => Some (drainIteration now s)
      | _ => None
      end
  | LeaveDrain, [] =>
      match phase s with
      | Draining => Some (set_phase Stopped s)
      | _ => None
      end
  | Settle i r, [] =>
      match pending s !! i with
      | Some (_, k) =>
          let s := mkSystem (with_clock (atDate r) (atPerf r) (world s)) (semaphore s)
                     (inFlight s) (overflowQueue s) [] (delete i (pending s)) (phase s) in
          Some (afterSegment s (runSegment (k (settled r)) (world s)))
      | None => None
      end
  end.

Fixpoint run (ls : list Label) (s : System) : option System :=
  match ls with
  | [] => Some s
  | l :: ls' => match step l s with Some s' => run ls' s' | None => None end
  end.

(** [runSimulation] up to its first await, for a configuration, the two
    random identifiers and the future of [Math.random]. *)
Definition initial (config : Config) (runId workerId : string)
    (randoms : nat → spec_float) : System :=
  mkSystem
    (mkWorld config (initializeTeams (teamTiers config) 0 []) [] runId 0 workerId
       0 0 randoms 0 [])
    (Semaphore.new (workerConcurrency config)) 0 [] [] [] Starting.

Definition reachable (config : Config) (runId workerId : string)
    (randoms : nat → spec_float)
    (s : System) : Prop :=
  ∃ ls, run ls (initial config runId workerId randoms) = Some s.

End Simulation.

(** ** What the client makes of a settled [fetch] *)

(** The JSON of a 2xx answer whose body parses; nothing otherwise. *)
Definition answer (o : FetchOutcome) : option Json :=
  match o with
  | FetchResponse status _ (BodyText _ (inr data)) => if ok status then Some data else None
  | _ => None
  end.

(** The world once [request] has sent [req] and, at [r], recorded [rec]. *)
Definition requested (req : Request) (r : Resumption) (rec : MetricsRecord) (w : World) : World :=
  emit (EMetrics rec) (with_clock (atDate r) (atPerf r) (emit (EFetch req) w)).

(** Whether the answer to a pop carries a job: a 2xx answer whose body is
    the JSON of a claim that has a [job]. *)
Definition broughtJob (o : FetchOutcome) : bool :=
  match answer o with
  | Some (JClaimed (ClaimedJob.mk (Some _) _)) => true
  | _ => false
  end.

(** The answers to a series of flush pops: how many answers without a job
    have just been seen in a row, counting from [c], and how many answers
    brought a job. *)
Definition streakFrom (c : Z) (rs : list Resumption) : Z :=
  foldl (λ c r, if broughtJob (settled r) then 0 else c + 1) c rs.

Definition emptyStreak (rs : list Resumption) : Z := streakFrom 0 rs.

Definition jobsIn (rs : list Resumption) : Z :=
  Z.of_nat (length (filter (λ r, broughtJob (settled r) = true) rs)).

(** The world after the flush pops answered by [rs]. *)
Definition flushedWorld (req : Request) (rs : list Resumption) (w : World) : World :=
  foldl (λ w r, with_clock (atDate r) (atPerf r) (emit (EFetch req) w)) w rs.

(** ** Worlds and runs used as concrete instances *)

Module Scenario.
Import Simulation.

Definition small : Tier.t := Tier.mk "small" 1 1 (Double.ofZ 10).
Definition config1 : Config := mkConfig "http://fdb" 4 true 3500 [small] false.
Definition team0 : string := "stress-team-000000".

(** A 200 answer with JSON [j], at time [t] on both clocks. *)
Definition answered (j : Json) (t : Z) : Resumption :=
  mkResumption (FetchResponse 200 "OK" (BodyText "" (inr j))) t (inject_Z t).

Definition start : System := initial config1 "run" "w" (λ _, Double.half).

Definition jobA : MainQueueJob.t := MainQueueJob.mk "a" team0 5 0 None.
Definition jobB : MainQueueJob.t := MainQueueJob.mk "b" team0 5 0 None.

(** The tenant of [start] with job [a] active: at its limit of one. *)
Definition full : World :=
  (runSegment (ProductionSimulator.startJob jobA 0 false) (world start)).1.


(** *** A run in which a completion promotes the queued job

    One tenant with a limit of one. Job 1 is generated and started; job 2 is
    generated while job 1 is active, overflows and is pushed to the remote
    queue; when job 1 has run for the processing delay it is completed, the
    pop brings job 2, and job 2 is started. *)

Definition job1 : string := "stress-team-000000-run-job-1".
Definition job2 : string := "stress-team-000000-run-job-2".
Definition job3 : string := "stress-team-000000-run-job-3".

Definition claimOf (jobId queueKey : string) (createdAt : Z) : Json :=
  JClaimed (ClaimedJob.mk (Some (ClaimedJob.mkJob jobId 51 createdAt None)) queueKey).

(** Up to the moment job 1 is active and job 2 is acknowledged by the remote
    queue ([queuedJobs = 1]). *)
Definition prologue : list Label :=
  [ HealthChecked (answered JEmptyObject 900);
    MainIteration 1000;                      (* job 1 generated and started *)
    RunMicrotask 1000 1000;                  (* its active push leaves *)
    Settle 0 (answered JEmptyObject 1010);
    MainIteration 1200;                      (* job 2 generated: at capacity, overflow *)
    MainIteration 1201;                      (* overflow handed to a push task *)
    RunMicrotask 1201 1201;
    Settle 0 (answered JEmptyObject 1210) ]. (* push acknowledged *)

Definition promotion : list Label :=
  prologue ++
  [ MainIteration 5000;                      (* job 1 completable: a promote task *)
    RunMicrotask 5000 5000;                  (* remove-active leaves *)
    Settle 0 (answered JEmptyObject 5010);   (* job 1 removed, pop leaves *)
    Settle 0 (answered (claimOf job2 "k2" 1200) 5020);  (* job 2 claimed and started *)
    Settle 0 (answered JEmptyObject 5030) ].

(** *** The same completion in the drain loop *)

Definition draining : list Label :=
  prologue ++
  [ LeaveMainLoop; EnterDrain;
    DrainIteration 5000;                     (* job 1 completable: a drain task *)
    RunMicrotask 5000 5000;
    Settle 0 (answered JEmptyObject 5010);   (* job 1 removed, pop leaves *)
    Settle 0 (answered (claimOf job2 "k2" 1200) 5020) ].  (* job 2 claimed *)

(** *** Two completions of one job

    The promote task of job 1 is still waiting for its remove-active call
    when the main loop comes round again: job 1 is still in [activeJobs], so a
    second promote task is made for it. Meanwhile job 3 has overflowed and
    has been pushed; the remote queue has accepted it but the answer is still
    under way. Both tasks find [queuedJobs = 1] and pop; the first gets job
    2, the second job 3. *)
Definition raced : list Label :=
  prologue ++
  [ MainIteration 5000;                      (* promote task 1; job 3 generated, overflow *)
    RunMicrotask 5000 5000;                  (* task 1: remove-active leaves *)
    MainIteration 5001;                      (* promote task 2, for job 1 again; push task for job 3 *)
    RunMicrotask 5001 5001;                  (* push of job 3 leaves *)
    RunMicrotask 5001 5001;                  (* task 2: remove-active leaves *)
    Settle 0 (answered JEmptyObject 5010);   (* task 1: job 1 removed, pop leaves *)
    Settle 1 (answered JEmptyObject 5011);   (* task 2: nothing to remove, pop leaves *)
    Settle 1 (answered (claimOf job2 "k2" 1200) 5020);  (* task 1: job 2 claimed, started *)
    Settle 1 (answered (claimOf job3 "k3" 5000) 5021) ]. (* task 2: job 3 claimed, started *)

(** *** A dispatch between a completion and its promotion

    The promote task of job 1 has removed job 1 and waits for the answer to
    its pop when the main loop comes round again: the tenant is below its
    limit, and the dispatch loop starts job 4. The pop then brings job 2,
    which the promote task starts. *)
Definition job4 : string := "stress-team-000000-run-job-4".

Definition overtaken : list Label :=
  prologue ++
  [ MainIteration 5000;                      (* job 3 overflows; promote task for job 1 *)
    RunMicrotask 5000 5000;                  (* remove-active leaves *)
    Settle 0 (answered JEmptyObject 5010);   (* job 1 removed, pop leaves *)
    MainIteration 5100;                      (* job 4 generated and started *)
    RunMicrotask 5100 5100;                  (* push of job 3 leaves *)
    RunMicrotask 5100 5100;                  (* active push of job 4 leaves *)
    Settle 0 (answered (claimOf job2 "k2" 1200) 5110) ].  (* job 2 claimed and started *)

(** The events that change a tenant's [activeJobs]. *)
Definition isSlotChange (e : Effect) : bool :=
  match e with
  | EActiveSet _ _ _ | EActiveDelete _ _ _ => true
  | _ => false
  end.

(** What became of a job, read off the history. *)
Definition isClaimOf (jobId : string) (e : Effect) : bool :=
  match e with
  | EOracle (recordClaim c _) =>
      match ClaimedJob.job c with
      | Some j => bool_decide (ClaimedJob.id j = jobId)
      | None => false
      end
  | _ => false
  end.

Definition isStartOf (jobId : string) (e : Effect) : bool :=
  match e with
  | EActiveSet _ j _ => bool_decide (j = jobId)
  | _ => false
  end.

Definition isRelease (e : Effect) : bool :=
  match e with
  | EFetch req =>
      match req_body req with Some (ReleaseJobRequest _) => true | _ => false end
  | _ => false
  end.

Definition tenant (s : System) : option TeamState.t :=
  JsMap.get team0 (teams (world s)).

(** The state after the prologue: job 1 active, job 2 in the remote queue. *)
Definition queued : System := default start (run prologue start).

(** The state the promoting run ends in. *)
Definition promoted : System := default start (run promotion start).

(** The state of a process whose health check could not connect. *)
Definition refused : Resumption :=
  mkResumption (FetchRejected "connect ECONNREFUSED") 900 900.
Definition unreachableService : System :=
  default start (run [HealthChecked refused] start).

End Scenario.

(** ** The proviso of the concurrency bound

    The bound on [activeJobs] is stated for runs in which [startJob] is
    called from the promotion path only "immediately after [completeJob]
    removed one active job". On the history this reads: every
    [EActiveSet t _ true] (a start with [fromFDB = true]) finds that the last
    change made to the [activeJobs] of [t] is an [EActiveDelete t _ true] (a
    [delete] that took a job out). *)

Definition override (t : string) (b : bool) (f : string → bool) : string → bool :=
  λ t', if decide (t' = t) then b else f t'.

(** Per tenant: is the last change of its [activeJobs] a removal that took
    a job out? *)
Definition slotFreed_step (freed : string → bool) (e : Effect) : string → bool :=
  match e with
  | EActiveSet t _ _ => override t false freed
  | EActiveDelete t _ removed => override t removed freed
  | _ => freed
  end.

Definition slotFreed (history : list Effect) : string → bool :=
  foldl slotFreed_step (λ _, false) history.

Definition allowed (freed : string → bool) (e : Effect) : bool :=
  match e with
  | EActiveSet t _ true => freed t
  | _ => true
  end.

Fixpoint disciplinedFrom (freed : string → bool) (history : list Effect) : bool :=
  match history with
  | [] => true
  | e :: history' => allowed freed e && disciplinedFrom (slotFreed_step freed e) history'
  end.

Definition disciplined (history : list Effect) : bool :=
  disciplinedFrom (λ _, false) history.

(** The bound, with what a freed slot adds to it, under the proviso. *)
Definition withinLimits (w : World) : Prop :=
  disciplined (log w) = true →
  ∀ id team, JsMap.get id (teams w) = Some team →
    JsMap.size (TeamState.activeJobs team) ≤ Tier.concurrencyLimit (TeamState.tier team)
    ∧ (slotFreed (log w) id = true →
       JsMap.size (TeamState.activeJobs team) + 1
       ≤ Tier.concurrencyLimit (TeamState.tier team)).

(** ** Invariants of programs that can be interleaved

    [preserves I p]: every write of [p] takes a world in [I] to a world in
    [I], whatever was read before it. A world in [I] then stays in [I]
    however such programs are interleaved at their awaits. *)
Fixpoint preserves {A} (I : World → Prop) (p : Prog A) : Prop :=
  match p with
  | Ret _ => True
  | Throw _ => True
  | Get k => ∀ w, preserves I (k w)
  | Modify f p => (∀ w, I w → I (f w)) ∧ preserves I p
  | Await _ k => ∀ o, preserves I (k o)
  end.

Definition keptBy (I : World → Prop) (s : Simulation.System) : Prop :=
  I (Simulation.world s)
  ∧ Forall (preserves I) (Simulation.microtasks s)
  ∧ Forall (preserves I) (Semaphore.waiting (Simulation.semaphore s))
  ∧ Forall (λ t, ∀ o, preserves I (t.2 o)) (Simulation.pending s).

(** Events that do not change any [activeJobs]. *)
Definition silent (e : Effect) : bool :=
  match e with
  | EActiveSet _ _ _ | EActiveDelete _ _ _ => false
  | _ => true
  end.

(** What of a tenant the concurrency bound depends on. *)
Definition slots (team : TeamState.t) : JsMap.t ActiveJob.t * Tier.t :=
  (TeamState.activeJobs team, TeamState.tier team).

(** A write that leaves the [activeJobs] and the tier of every tenant as
    they are and adds only silent events to the history. *)
Definition inert (f : World → World) : Prop :=
  ∀ w,
    (∀ id, slots <$> JsMap.get id (teams (f w)) = slots <$> JsMap.get id (teams w))
    ∧ ∃ l, log (f w) = log w ++ l ∧ forallb silent l = true.

(** A program all of whose writes are inert. *)
Fixpoint quiet {A} (p : Prog A) : Prop :=
  match p with
  | Ret _ => True
  | Throw _ => True
  | Get k => ∀ w, quiet (k w)
  | Modify f p => inert f ∧ quiet p
  | Await _ k => ∀ o, quiet (k o)
  end.

(** ** What holds of every state of a run

    [safely I Q p]: wherever [p] reads, the world is in [I]; every write of
    [p] takes a world in [I] to a world in [I]; [p] does not throw; and the
    value it ends with is in [Q]. Run from a world in [I], and with whatever
    else keeps [I] running at its awaits, such a program never leaves [I]. *)
Fixpoint safely {A} (I : World → Prop) (Q : A → Prop) (p : Prog A) : Prop :=
  match p with
  | Ret a => Q a
  | Throw _ => False
  | Get k => ∀ w, I w → safely I Q (k w)
  | Modify f p => (∀ w, I w → I (f w)) ∧ safely I Q p
  | Await _ k => ∀ o, safely I Q (k o)
  end.

Definition secured (I : World → Prop) (s : Simulation.System) : Prop :=
  I (Simulation.world s)
  ∧ Forall (safely I (λ _, True)) (Simulation.microtasks s)
  ∧ Forall (safely I (λ _, True)) (Semaphore.waiting (Simulation.semaphore s))
  ∧ Forall (λ t, ∀ o, safely I (λ _, True) (t.2 o)) (Simulation.pending s).

(** A program that neither waits nor throws. *)
Fixpoint immediate {A} (p : Prog A) : Prop :=
  match p with
  | Ret _ => True
  | Throw _ => False
  | Get k => ∀ w, immediate (k w)
  | Modify _ p => immediate p
  | Await _ _ => False
  end.

(** The identity of the tenants: key, id and tier, in the order of the map. *)
Definition tenantsOf (m : JsMap.t TeamState.t) : list (string * string * Tier.t) :=
  (λ kt, (kt.1, TeamState.teamId kt.2, TeamState.tier kt.2)) <$> m.

(** The requests of a simulation: the health check, pushes to and pops from
    the concurrency queue, and the tracking of active jobs. *)
Definition simulationRequest (config : Config) (workerId : string) (req : Request) : Prop :=
  req_abortAfter req = None
  ∧ match req_body req with
    | None =>
        req_method req = GET ∧ req_url req = serviceUrl config +:+ "/health"
    | Some (PushJobRequest _ _ _ _ timeout _) =>
        req_method req = POST ∧ req_url req = serviceUrl config +:+ "/queue/push"
        ∧ timeout = 600000
    | Some (PopJobRequest wid blockedCrawlIds) =>
        req_method req = POST
        ∧ (∃ teamId, req_url req
                     = serviceUrl config +:+ "/queue/pop/" +:+ encodeURIComponent teamId)
        ∧ wid = workerId ∧ blockedCrawlIds = []
    | Some (PushActiveJobRequest _ _ timeout) =>
        req_method req = POST ∧ req_url req = serviceUrl config +:+ "/active/push"
        ∧ timeout = 600000
    | Some (RemoveActiveJobRequest _ _) =>
        req_method req = DELETE ∧ req_url req = serviceUrl config +:+ "/active/remove"
    | Some (CompleteJobRequest _) | Some (ReleaseJobRequest _) => False
    end.

Definition expectedEvent (config : Config) (workerId : string) (e : Effect) : Prop :=
  match e with
  | EFetch req => simulationRequest config workerId req
  | _ => True
  end.

(** The increments of a tenant's [queuedJobs] less its decrements, as the
    history has them. *)
Definition queuedBalance_step (teamId : string) (n : Z) (e : Effect) : Z :=
  match e with
  | EQueuedInc t => if decide (t = teamId) then n + 1 else n
  | EQueuedDec t => if decide (t = teamId) then n - 1 else n
  | _ => n
  end.

Definition queuedBalance (teamId : string) (history : list Effect) : Z :=
  foldl (queuedBalance_step teamId) 0 history.

Definition runInvariant (config0 : Config) (workerId0 : string)
    (tenants0 : list (string * string * Tier.t)) (w : World) : Prop :=
  config w = config0
  ∧ workerId w = workerId0
  ∧ tenantsOf (teams w) = tenants0
  ∧ (∀ team activeJob,
       team ∈ JsMap.values (teams w) →
       activeJob ∈ JsMap.values (TeamState.activeJobs team) →
       ActiveJob.queueKey activeJob = EmptyString)
  ∧ Forall (expectedEvent config0 workerId0) (log w)
  ∧ (∀ id team, JsMap.get id (teams w) = Some team →
       TeamState.queuedJobs team = queuedBalance id (log w)).

(** ** Permits and tasks

    Of the permits the semaphore started with, [held] are with tasks that
    are running at this moment; the others that are taken are with the tasks
    about to start ([microtasks]) and with the tasks that wait for an answer
    ([pending]). *)
Definition balanced (workerConcurrency held : Z) (s : Simulation.System) : Prop :=
  Semaphore.permits (Simulation.semaphore s)
  + Z.of_nat (length (Simulation.microtasks s))
  + Z.of_nat (length (Simulation.pending s)) + held = workerConcurrency
  ∧ Simulation.inFlight s = Z.of_nat (length (Simulation.pending s)) + held
  ∧ (Semaphore.waiting (Simulation.semaphore s) ≠ [] →
     Semaphore.permits (Simulation.semaphore s) ≤ 0)
  ∧ (0 ≤ workerConcurrency → 0 ≤ Semaphore.permits (Simulation.semaphore s)).

(** The tenants after [startJob(job, now)] for each of [jobs] in turn, as
    the dispatch loop calls it. *)
Definition startedTeams (now : Z) (jobs : list MainQueueJob.t)
    (teams : JsMap.t TeamState.t) : JsMap.t TeamState.t :=
  foldl (λ teams job,
           JsMap.update (MainQueueJob.teamId job)
             (TeamState.with_activeJobs
                (JsMap.set (MainQueueJob.jobId job)
                   (ActiveJob.mk (MainQueueJob.jobId job) EmptyString now false)))
             teams)
    teams jobs.

(** * Properties *)

(** ** Insertion-ordered maps *)

Section JsMap_facts.
Context {V : Type}.
Implicit Types (m : list (string * V)) (k : string) (v : V).

Lemma JsMap_size_nonneg m : 0 ≤ JsMap.size m.
Proof. unfold JsMap.size. lia. Qed.

Lemma JsMap_size_set_le k v m : JsMap.size (JsMap.set k v m) ≤ JsMap.size m + 1.
Proof.
  unfold JsMap.size. induction m as [|[k' v'] m IH]; simpl; [lia|].
  case_decide; simpl in *; lia.
Qed.

Lemma JsMap_size_delete_le k m : JsMap.size (JsMap.delete k m) ≤ JsMap.size m.
Proof.
  unfold JsMap.size. induction m as [|[k' v'] m IH]; simpl; [lia|].
  case_decide; simpl in *; lia.
Qed.

Lemma JsMap_size_delete_has k m :
  JsMap.has k m = true → JsMap.size (JsMap.delete k m) + 1 = JsMap.size m.
Proof.
  unfold JsMap.has, JsMap.size. rewrite bool_decide_eq_true.
  induction m as [|[k' v'] m IH]; simpl.
  - intros [? [=]].
  - case_decide; simpl; [lia|]. intros H1. specialize (IH H1). lia.
Qed.

Lemma JsMap_get_update k k' (f : V → V) m :
  JsMap.get k' (JsMap.update k f m)
  = if decide (k = k') then f <$> JsMap.get k' m else JsMap.get k' m.
Proof.
  induction m as [|[k0 v0] m IH]; simpl.
  - by case_decide.
  - destruct (decide (k = k0)) as [->|Hne]; simpl.
    + destruct (decide (k' = k0)) as [->|Hne'].
      * by rewrite decide_True.
      * rewrite decide_False by done. done.
    + destruct (decide (k' = k0)) as [->|Hne']; [|done].
      by rewrite decide_False.
Qed.

Lemma JsMap_get_update_eq k (f : V → V) m :
  JsMap.get k (JsMap.update k f m) = f <$> JsMap.get k m.
Proof. rewrite JsMap_get_update. by rewrite decide_True. Qed.

Lemma JsMap_get_update_ne k k' (f : V → V) m :
  k ≠ k' → JsMap.get k' (JsMap.update k f m) = JsMap.get k' m.
Proof. intros. rewrite JsMap_get_update. by rewrite decide_False. Qed.

Lemma JsMap_keys_update k (f : V → V) m : (JsMap.update k f m).*1 = m.*1.
Proof.
  induction m as [|[k0 v0] m IH]; simpl; [done|].
  case_decide; csimpl; by rewrite ?IH.
Qed.

Lemma JsMap_get_set k k' v m :
  JsMap.get k' (JsMap.set k v m) = if decide (k' = k) then Some v else JsMap.get k' m.
Proof.
  induction m as [|[k0 v0] m IH]; simpl.
  - done.
  - destruct (decide (k = k0)) as [->|Hne]; simpl.
    + by destruct (decide (k' = k0)).
    + destruct (decide (k' = k0)) as [->|Hne'].
      * by rewrite decide_False.
      * done.
Qed.
End JsMap_facts.

(** ** The semaphore *)

Section Semaphore_facts.
Context {W : Type}.
Implicit Types (h : Semaphore.history W) (o : Semaphore.op W).

Lemma Semaphore_step_inv h o : Semaphore.inv h → Semaphore.inv (Semaphore.step h o).
Proof.
  unfold Semaphore.inv. intros (Hpos & Hzero & Hfifo).
  destruct o as [w|]; simpl.
  - unfold Semaphore.acquire. destruct (Z.ltb_spec 0 (Semaphore.permits (Semaphore.sem h))); simpl.
    + split_and!; [lia| |done].
      intros Hw. specialize (Hzero Hw). lia.
    + split_and!; [done| |].
      * intros _. lia.
      * rewrite Hfifo. by rewrite (assoc_L (++)).
  - unfold Semaphore.release.
    destruct (Semaphore.waiting (Semaphore.sem h)) as [|next rest] eqn:Hw; simpl.
    + split_and!; [lia|done|]. by rewrite Hfifo.
    + split_and!; [done| |].
      * intros _. by apply Hzero.
      * rewrite Hfifo. by rewrite <- (assoc_L (++)).
Qed.

Lemma Semaphore_run_snoc n ops o :
  Semaphore.run n (ops ++ [o]) = Semaphore.step (Semaphore.run (W:=W) n ops) o.
Proof. unfold Semaphore.run. by rewrite foldl_app. Qed.

Lemma Semaphore_run_inv n (ops : list (Semaphore.op W)) :
  0 ≤ n → Semaphore.inv (Semaphore.run n ops).
Proof.
  intros Hn. induction ops as [|o ops IH] using rev_ind.
  - unfold Semaphore.inv; simpl. split_and!; [done|done|done].
  - rewrite Semaphore_run_snoc. by apply Semaphore_step_inv.
Qed.

(** C10. Whatever calls of [acquire] and [release] follow
    [new Semaphore(n)] with [0 ≤ n]: [permits] is not negative; [permits] is
    0 while somebody waits; the acquirers that had to wait are those already
    woken followed by those still waiting, in call order (so [release] wakes
    the earliest waiter); and a further [release] either wakes the head of
    [waiting] and leaves [permits] alone, or, with nobody waiting, adds one
    permit and wakes nobody. *)
Theorem Semaphore_invariant (n : Z) (ops : list (Semaphore.op W)) :
  0 ≤ n →
  0 ≤ Semaphore.permits (Semaphore.sem (Semaphore.run n ops))
  ∧ (Semaphore.waiting (Semaphore.sem (Semaphore.run n ops)) ≠ [] →
     Semaphore.permits (Semaphore.sem (Semaphore.run n ops)) = 0)
  ∧ Semaphore.queued (Semaphore.run n ops)
    = Semaphore.woken (Semaphore.run n ops)
      ++ Semaphore.waiting (Semaphore.sem (Semaphore.run n ops))
  ∧ (∀ next rest,
       Semaphore.waiting (Semaphore.sem (Semaphore.run n ops)) = next :: rest →
       Semaphore.release (Semaphore.sem (Semaphore.run n ops))
       = (Semaphore.mk (Semaphore.permits (Semaphore.sem (Semaphore.run n ops))) rest,
          Some next))
  ∧ (Semaphore.waiting (Semaphore.sem (Semaphore.run n ops)) = [] →
     Semaphore.release (Semaphore.sem (Semaphore.run n ops))
     = (Semaphore.mk (Semaphore.permits (Semaphore.sem (Semaphore.run n ops)) + 1) [],
        None)).
Proof.
  intros Hn. destruct (Semaphore_run_inv n ops Hn) as (Hpos & Hzero & Hfifo).
  split_and!; [done|done|done| |].
  - intros next rest Hw. unfold Semaphore.release. by rewrite Hw.
  - intros Hw. unfold Semaphore.release. by rewrite Hw.
Qed.
End Semaphore_facts.

Lemma Semaphore_invariant_witness :
  0 ≤ 1
  ∧ Semaphore.queued
      (Semaphore.run 1
         [Semaphore.Acquire 1%nat; Semaphore.Acquire 2%nat; Semaphore.Acquire 3%nat;
          Semaphore.Release])
    = Semaphore.woken
        (Semaphore.run 1
           [Semaphore.Acquire 1%nat; Semaphore.Acquire 2%nat; Semaphore.Acquire 3%nat;
            Semaphore.Release])
      ++ Semaphore.waiting
           (Semaphore.sem
              (Semaphore.run 1
                 [Semaphore.Acquire 1%nat; Semaphore.Acquire 2%nat;
                  Semaphore.Acquire 3%nat; Semaphore.Release])).
Proof.
  split; [lia|].
  exact (proj1 (proj2 (proj2
    (Semaphore_invariant 1
       [Semaphore.Acquire 1%nat; Semaphore.Acquire 2%nat; Semaphore.Acquire 3%nat;
        Semaphore.Release] ltac:(lia))))).
Defined.

(** ** [pickJobFromMainQueue] *)

Lemma scanBest_spec rest : ∀ before best between,
  (∀ j, j ∈ before → MainQueueJob.priority best < MainQueueJob.priority j) →
  (∀ j, j ∈ between → MainQueueJob.priority best ≤ MainQueueJob.priority j) →
  ∃ before' job after',
    (before ++ best :: between) ++ rest = before' ++ job :: after'
    ∧ ProductionSimulator.scanBest rest (length (before ++ best :: between))
        (length before) (MainQueueJob.priority best) = length before'
    ∧ (∀ j, j ∈ before' → MainQueueJob.priority job < MainQueueJob.priority j)
    ∧ (∀ j, j ∈ after' → MainQueueJob.priority job ≤ MainQueueJob.priority j).
Proof.
  induction rest as [|x rest IH]; intros before best between Hbefore Hbetween.
  - exists before, best, between. by rewrite (right_id_L [] (++)).
  - simpl. destruct (Z.ltb_spec (MainQueueJob.priority x) (MainQueueJob.priority best)) as [Hlt|Hge].
    + destruct (IH (before ++ best :: between) x []) as (b' & job & a' & Heq & Hscan & Hb & Ha).
      * intros j [Hj|Hj]%elem_of_app; [specialize (Hbefore j Hj); lia|].
        apply elem_of_cons in Hj as [->|Hj]; [lia|]. specialize (Hbetween j Hj). lia.
      * intros j Hj. by apply elem_of_nil in Hj.
      * exists b', job, a'. split_and!; [| |done|done].
        -- rewrite <- Heq. by rewrite <- !(assoc_L (++)).
        -- rewrite <- Hscan. f_equal; rewrite ?length_app; simpl; rewrite ?length_app; simpl; lia.
    + destruct (IH before best (between ++ [x])) as (b' & job & a' & Heq & Hscan & Hb & Ha).
      * done.
      * intros j [Hj|Hj]%elem_of_app; [by apply Hbetween|].
        apply list_elem_of_singleton in Hj as ->. lia.
      * exists b', job, a'. split_and!; [| |done|done].
        -- rewrite <- Heq. rewrite <- !(assoc_L (++)). simpl. by rewrite <- !(assoc_L (++)).
        -- rewrite <- Hscan. f_equal; rewrite ?length_app; simpl; rewrite ?length_app; simpl; lia.
Qed.

Lemma pickBest_spec first rest :
  ∃ before job after,
    first :: rest = before ++ job :: after
    ∧ ProductionSimulator.pickBest (first :: rest) = Some (job, before ++ after)
    ∧ (∀ j, j ∈ before → MainQueueJob.priority job < MainQueueJob.priority j)
    ∧ (∀ j, j ∈ after → MainQueueJob.priority job ≤ MainQueueJob.priority j).
Proof.
  destruct (scanBest_spec rest [] first []) as (b & job & a & Heq & Hscan & Hb & Ha).
  { intros j Hj. by apply elem_of_nil in Hj. }
  { intros j Hj. by apply elem_of_nil in Hj. }
  simpl in Heq, Hscan. exists b, job, a. split_and!; [done| |done|done].
  unfold ProductionSimulator.pickBest. rewrite Hscan, Heq.
  rewrite list_lookup_middle by done. by rewrite delete_middle.
Qed.


(** ** Running programs *)

Lemma exec_bind {A B} (p : Prog A) (f : A → Prog B) rs w :
  exec (p ≫= f) rs w =
  match exec p rs w with
  | (w', Finished a, rest) => exec (f a) rest w'
  | (w', Threw e, rest) => (w', Threw e, rest)
  | (w', Awaiting req k, rest) => (w', Awaiting req (λ o, k o ≫= f), rest)
  end.
Proof.
  revert rs w. induction p as [a|e|k IH|g p IH|req k IH]; intros rs w; simpl; try done.
  destruct rs as [|r rs]; [done|]. apply IH.
Qed.


(** ** [startJob] *)

(** C5, as the code has it. [startJob] checks nothing about capacity: for
    every tenant that exists, full or not, it finishes (it does not throw),
    returns the active job [{jobId, queueKey: '', startTime: now, fromFDB}]
    and has stored it under [job.jobId] in the tenant's [activeJobs]. *)
Theorem startJob_inserts (w : World) (job : MainQueueJob.t) (now : Z) (fromFDB : bool)
    (team : TeamState.t) :
  JsMap.get (MainQueueJob.teamId job) (teams w) = Some team →
  ∃ w',
    runSegment (ProductionSimulator.startJob job now fromFDB) w
    = (w', Finished (ActiveJob.mk (MainQueueJob.jobId job) "" now fromFDB))
    ∧ JsMap.get (MainQueueJob.teamId job) (teams w')
      = Some (TeamState.with_activeJobs
                (JsMap.set (MainQueueJob.jobId job)
                   (ActiveJob.mk (MainQueueJob.jobId job) "" now fromFDB)) team)
    ∧ log w' = log w ++ [EActiveSet (MainQueueJob.teamId job) (MainQueueJob.jobId job) fromFDB].
Proof.
  intros Hteam. eexists. split_and!.
  - simpl. rewrite Hteam. reflexivity.
  - simpl. rewrite JsMap_get_update_eq, Hteam. done.
  - done.
Qed.

Lemma startJob_inserts_witness :
  JsMap.get (MainQueueJob.teamId Scenario.jobB) (teams Scenario.full)
  = Some (TeamState.mk Scenario.team0 Scenario.small
            [("a", ActiveJob.mk "a" "" 0 false)] 0 0 0 0)
  ∧ ∃ w',
    runSegment (ProductionSimulator.startJob Scenario.jobB 1 true) Scenario.full
    = (w', Finished (ActiveJob.mk (MainQueueJob.jobId Scenario.jobB) "" 1 true))
    ∧ JsMap.get (MainQueueJob.teamId Scenario.jobB) (teams w')
      = Some (TeamState.with_activeJobs
                (JsMap.set (MainQueueJob.jobId Scenario.jobB)
                   (ActiveJob.mk (MainQueueJob.jobId Scenario.jobB) "" 1 true))
                (TeamState.mk Scenario.team0 Scenario.small
                   [("a", ActiveJob.mk "a" "" 0 false)] 0 0 0 0))
    ∧ log w' = log Scenario.full
               ++ [EActiveSet (MainQueueJob.teamId Scenario.jobB)
                     (MainQueueJob.jobId Scenario.jobB) true].
Proof.
  split; [reflexivity|].
  apply (startJob_inserts Scenario.full Scenario.jobB 1 true). reflexivity.
Defined.

(** C5, as the specification has it, fails: with one job active and a limit
    of one, [isTeamAtCapacity] answers [true], and [startJob] all the same
    finishes and leaves two active jobs. *)
Lemma startJob_at_capacity_not_detected :
  runSegment (ProductionSimulator.isTeamAtCapacity Scenario.team0) Scenario.full
  = (Scenario.full, Finished true)
  ∧ ∃ w' activeJob team,
      runSegment (ProductionSimulator.startJob Scenario.jobB 1 false) Scenario.full
      = (w', Finished activeJob)
      ∧ JsMap.get Scenario.team0 (teams w') = Some team
      ∧ JsMap.size (TeamState.activeJobs team) = 2
      ∧ Tier.concurrencyLimit (TeamState.tier team) = 1.
Proof.
  split; [reflexivity|]. do 3 eexists. split_and!; reflexivity.
Qed.

(** ** The client's [request] *)

Lemma exec_request method path op body r rest w :
  ∃ rec err,
    exec (FDBQueueClient.request method path op body) (r :: rest) w
    = (requested (mkRequest method (serviceUrl (config w) +:+ path) body None) r rec w,
       Finished (FDBQueueClient.mkResult (default JNull (answer (settled r)))
                   (bool_decide (is_Some (answer (settled r)))) err),
       rest)
    ∧ operationType rec = op
    ∧ success rec = bool_decide (is_Some (answer (settled r)))
    ∧ match settled r with
      | FetchResponse status _ (BodyText text _) =>
          if ok status then httpStatus rec = None
          else httpStatus rec = Some status ∧ responseBody rec = Some text
      | _ => httpStatus rec = None
      end.
Proof.
  unfold FDBQueueClient.request, requested. simpl.
  destruct (settled r) as [err|status statusText [err|text [err|d]]]; simpl.
  - do 2 eexists. split_and!; reflexivity.
  - destruct (ok status); simpl; do 2 eexists; split_and!; reflexivity.
  - destruct (ok status); simpl; do 2 eexists; split_and!; (reflexivity || done).
  - destruct (ok status); simpl; do 2 eexists; split_and!; (reflexivity || done).
Qed.

(** C8. One call of [request], whatever the operation and however the
    [fetch] settles: it finishes with a result (it does not throw), and what
    it adds to the history is the request and exactly one metrics record,
    for that operation. On a 2xx answer whose body parses the record says
    [success = true] and the result carries the parsed data; on an answer
    that is not 2xx it says [success = false] with the status and the text of
    the body; when [fetch] rejects, the body cannot be read or the body of a
    2xx answer does not parse, it says [success = false] with no status. The
    result's [success] is the record's. *)
Theorem request_records_once (method : Method) (path : string) (op : OperationType)
    (body : option RequestBody) (r : Resumption) (rest : list Resumption) (w : World) :
  ∃ rec result,
    exec (FDBQueueClient.request method path op body) (r :: rest) w
    = (requested (mkRequest method (serviceUrl (config w) +:+ path) body None) r rec w,
       Finished result, rest)
    ∧ log (requested (mkRequest method (serviceUrl (config w) +:+ path) body None) r rec w)
      = log w ++ [EFetch (mkRequest method (serviceUrl (config w) +:+ path) body None);
                  EMetrics rec]
    ∧ operationType rec = op
    ∧ FDBQueueClient.succeeded result = success rec
    ∧ match settled r with
      | FetchResponse status _ (BodyText text parsed) =>
          if ok status then
            match parsed with
            | inr d => success rec = true ∧ httpStatus rec = None
                       ∧ FDBQueueClient.data result = d
            | inl _ => success rec = false ∧ httpStatus rec = None
            end
          else success rec = false ∧ httpStatus rec = Some status
               ∧ responseBody rec = Some text
      | _ => success rec = false ∧ httpStatus rec = None
      end.
Proof.
  destruct (exec_request method path op body r rest w)
    as (rec & err & Hexec & Hop & Hsucc & Hcase).
  exists rec. eexists. split_and!; [exact Hexec| |done| |].
  - unfold requested. simpl. by rewrite <- (assoc_L (++)).
  - simpl. by rewrite Hsucc.
  - rewrite Hsucc. simpl.
    destruct (settled r) as [e|status statusText [e|text [e|d]]]; simpl in *; try done;
      destruct (ok status); simpl in *; intuition done.
Qed.

(** ** The client's operations, run on their own *)

Lemma log_tell c w : log (tell c w) = log w ++ told w c.
Proof.
  unfold tell, told. destruct (correctnessChecking (config w)); simpl; [done|].
  by rewrite (right_id_L [] (++)).
Qed.

Lemma teams_tell c w : teams (tell c w) = teams w.
Proof. unfold tell. by destruct (correctnessChecking (config w)). Qed.

Lemma config_tell c w : config (tell c w) = config w.
Proof. unfold tell. by destruct (correctnessChecking (config w)). Qed.


Lemma exec_client_completeJob queueKey r rest w :
  ∃ rec,
    exec (FDBQueueClient.completeJob queueKey) (r :: rest) w
    = (requested (mkRequest POST (serviceUrl (config w) +:+ "/queue/complete")
                    (Some (CompleteJobRequest queueKey)) None) r rec w,
       Finished (bool_decide (is_Some (answer (settled r)))
                 && match default JNull (answer (settled r)) with
                    | JSuccess b => b
                    | _ => false
                    end),
       rest)
    ∧ operationType rec = complete.
Proof.
  unfold FDBQueueClient.completeJob. rewrite exec_bind.
  destruct (exec_request POST "/queue/complete" complete
              (Some (CompleteJobRequest queueKey)) r rest w)
    as (rec & err & -> & Hop & _). by exists rec.
Qed.

Lemma exec_client_popJob teamId r rest w :
  ∃ rec,
    exec (FDBQueueClient.popJob teamId) (r :: rest) w
    = (match FDBQueueClient.claimWithJob (default JNull (answer (settled r))) with
       | Some (c, _) => tell (recordClaim c teamId)
       | None => λ w, w
       end (requested (mkRequest POST
                         (serviceUrl (config w) +:+ "/queue/pop/" +:+ encodeURIComponent teamId)
                         (Some (PopJobRequest (workerId w) [])) None) r rec w),
       Finished (default JNull (answer (settled r))), rest)
    ∧ operationType rec = pop.
Proof.
  unfold FDBQueueClient.popJob. rewrite exec_bind. cbn [exec gets]. rewrite exec_bind.
  destruct (exec_request POST ("/queue/pop/" +:+ encodeURIComponent teamId) pop
              (Some (PopJobRequest (workerId w) [])) r rest w)
    as (rec & err & -> & Hop & _). exists rec. split; [|done]. simpl.
  by destruct (FDBQueueClient.claimWithJob (default JNull (answer (settled r)))) as [[c j]|].
Qed.
(** ** [completeJob] *)


Lemma exec_oracle c rs w : exec (oracle c) rs w = (tell c w, Finished tt, rs).
Proof. done. Qed.

(** How the builders of worlds act on the fields that are read back. *)

Lemma log_emit e w : log (emit e w) = log w ++ [e].
Proof. done. Qed.
Lemma log_with_team t f w : log (with_team t f w) = log w.
Proof. done. Qed.
Lemma log_requested req r rec w :
  log (requested req r rec w) = (log w ++ [EFetch req]) ++ [EMetrics rec].
Proof. done. Qed.
Lemma config_requested req r rec w : config (requested req r rec w) = config w.
Proof. done. Qed.
Lemma teams_emit e w : teams (emit e w) = teams w.
Proof. done. Qed.
Lemma teams_with_team t f w : teams (with_team t f w) = JsMap.update t f (teams w).
Proof. done. Qed.
Lemma teams_requested req r rec w : teams (requested req r rec w) = teams w.
Proof. done. Qed.








(** ** [flushTeamQueue] *)

Lemma flushLoop_done fuel teamId flushed emptyCount :
  3 ≤ emptyCount →
  FDBQueueClient.flushLoop fuel teamId flushed emptyCount = Ret (Some flushed).
Proof.
  intros Hc. destruct fuel; simpl; by rewrite (proj2 (Z.leb_le _ _) Hc).
Qed.

(** The test of the loop, [response.ok] and then [data && data.job], read
    on the answer. *)
Lemma flushed_one_answer (o : FetchOutcome) :
  FDBQueueClient.flushed_one o = broughtJob o.
Proof.
  unfold broughtJob, answer.
  destruct o as [e|status statusText [e|text [e|data]]]; try done.
  cbn [FDBQueueClient.flushed_one]. destruct (ok status); [|done]. cbn [andb].
  destruct data as [|[[job|] key]| | | |]; done.
Qed.

Lemma exec_flushLoop_step fuel teamId flushed emptyCount r rs w :
  emptyCount < 3 →
  exec (FDBQueueClient.flushLoop (S fuel) teamId flushed emptyCount) (r :: rs) w
  = exec (FDBQueueClient.flushLoop fuel teamId
            (if broughtJob (settled r) then flushed + 1 else flushed)
            (if broughtJob (settled r) then 0 else emptyCount + 1))
      rs
      (flushedWorld
         (FDBQueueClient.flushPop (serviceUrl (config w)) (workerId w) teamId) [r] w).
Proof.
  intros Hc. cbn [FDBQueueClient.flushLoop].
  rewrite (proj2 (Z.leb_gt _ _) Hc), <- flushed_one_answer.
  cbn. by destruct (FDBQueueClient.flushed_one (settled r)).
Qed.

Lemma flushedWorld_cons req r rs w :
  flushedWorld req (r :: rs) w = flushedWorld req rs (flushedWorld req [r] w).
Proof. done. Qed.

Lemma config_flushedWorld req rs w : config (flushedWorld req rs w) = config w.
Proof.
  revert w. induction rs as [|r rs IH]; intros w; [done|].
  by rewrite flushedWorld_cons, IH.
Qed.

Lemma workerId_flushedWorld req rs w : workerId (flushedWorld req rs w) = workerId w.
Proof.
  revert w. induction rs as [|r rs IH]; intros w; [done|].
  by rewrite flushedWorld_cons, IH.
Qed.

Lemma teams_flushedWorld req rs w : teams (flushedWorld req rs w) = teams w.
Proof.
  revert w. induction rs as [|r rs IH]; intros w; [done|].
  by rewrite flushedWorld_cons, IH.
Qed.

Lemma mainQueue_flushedWorld req rs w : mainQueue (flushedWorld req rs w) = mainQueue w.
Proof.
  revert w. induction rs as [|r rs IH]; intros w; [done|].
  by rewrite flushedWorld_cons, IH.
Qed.

Lemma log_flushedWorld req rs w :
  log (flushedWorld req rs w) = log w ++ replicate (length rs) (EFetch req).
Proof.
  revert w. induction rs as [|r rs IH]; intros w.
  - cbn. by rewrite app_nil_r.
  - rewrite flushedWorld_cons, IH. cbn. by rewrite <- app_assoc.
Qed.

Lemma jobsIn_cons r rs :
  jobsIn (r :: rs) = (if broughtJob (settled r) then 1 else 0) + jobsIn rs.
Proof.
  unfold jobsIn. rewrite filter_cons.
  destruct (broughtJob (settled r)); case_decide; try done;
    cbn [length]; lia.
Qed.

(** What a flush that returns has seen. *)
Lemma flushLoop_sound fuel teamId : ∀ flushed emptyCount rs w w' n rest,
  emptyCount ≤ 3 →
  exec (FDBQueueClient.flushLoop fuel teamId flushed emptyCount) rs w
  = (w', Finished (Some n), rest) →
  ∃ used,
    rs = used ++ rest
    ∧ streakFrom emptyCount used = 3
    ∧ (∀ k, (k < length used)%nat → streakFrom emptyCount (take k used) < 3)
    ∧ n = flushed + jobsIn used
    ∧ w' = flushedWorld
             (FDBQueueClient.flushPop (serviceUrl (config w)) (workerId w) teamId) used w.
Proof.
  induction fuel as [|fuel IH]; intros flushed emptyCount rs w w' n rest Hc Hexec.
  - cbn in Hexec. destruct (Z.leb_spec 3 emptyCount); [|done].
    cbn in Hexec. injection Hexec as <- <- <-.
    exists []. split_and!; [done|cbn; lia|cbn; lia|unfold jobsIn; cbn; lia|done].
  - destruct (Z.le_gt_cases 3 emptyCount) as [Hge|Hlt].
    + rewrite flushLoop_done in Hexec by done. cbn in Hexec. injection Hexec as <- <- <-.
      exists []. split_and!; [done|cbn; lia|cbn; lia|unfold jobsIn; cbn; lia|done].
    + destruct rs as [|r rs].
      { cbn [FDBQueueClient.flushLoop] in Hexec. rewrite (proj2 (Z.leb_gt _ _)) in Hexec by lia.
        cbn in Hexec. done. }
      rewrite exec_flushLoop_step in Hexec by lia.
      apply IH in Hexec as (used & -> & Hstreak & Hbefore & -> & ->).
      2:{ destruct (broughtJob (settled r)); lia. }
      exists (r :: used). split_and!.
      * done.
      * done.
      * intros [|k] Hk; [cbn; lia|]. cbn [take streakFrom foldl].
        apply Hbefore. cbn in Hk. lia.
      * rewrite jobsIn_cons. destruct (broughtJob (settled r)); lia.
      * rewrite config_flushedWorld, workerId_flushedWorld. done.
Qed.

(** A flush returns as soon as the answers show three without a job in a
    row. *)
Lemma flushLoop_returns teamId used : ∀ fuel flushed emptyCount rest w,
  streakFrom emptyCount used = 3 →
  (∀ k, (k < length used)%nat → streakFrom emptyCount (take k used) < 3) →
  (length used ≤ fuel)%nat →
  exec (FDBQueueClient.flushLoop fuel teamId flushed emptyCount) (used ++ rest) w
  = (flushedWorld
       (FDBQueueClient.flushPop (serviceUrl (config w)) (workerId w) teamId) used w,
     Finished (Some (flushed + jobsIn used)), rest).
Proof.
  induction used as [|r used IH]; intros fuel flushed emptyCount rest w Hstreak Hbefore Hfuel.
  - cbn in Hstreak. rewrite flushLoop_done by lia. cbn. unfold jobsIn. cbn.
    by rewrite Z.add_0_r.
  - destruct fuel as [|fuel]; [cbn in Hfuel; lia|].
    specialize (Hbefore 0%nat ltac:(cbn; lia)) as H0. cbn in H0.
    cbn [app]. rewrite exec_flushLoop_step by done.
    rewrite IH.
    + rewrite config_flushedWorld, workerId_flushedWorld. rewrite jobsIn_cons.
      f_equal. f_equal. f_equal. f_equal.
      destruct (broughtJob (settled r)); lia.
    + done.
    + intros k Hk. apply (Hbefore (S k)). cbn. lia.
    + cbn in Hfuel. lia.
Qed.

(** C9. [flushTeamQueue(teamId)], given [fuel] iterations and the answers
    [rs] to its pops. An answer brings a job when it is a 2xx answer whose
    JSON is a claim with a [job] ([broughtJob]); every other answer (no 2xx,
    a body that is not JSON, JSON without a [job], a rejected [fetch]) is an
    empty one. [emptyStreak] is the number of empty answers at the end of a
    list since the last one with a job, and [jobsIn] the number of answers
    with a job. (1) When the flush returns [n] it has used a prefix [used] of
    the answers in which the streak of empty answers reaches three exactly at
    the end; [n] is the number of answers in [used] that brought a job; what
    it added to the history is one [fetch] per answer, each a
    [POST /queue/pop/{teamId}] with worker id ["flush-" + workerId] and a ten
    second timeout, and nothing else (no metrics record, no checker call);
    tenants and main queue are as before. (2) Conversely it returns, with
    that count, as soon as the answers show three empty ones in a row, given
    that many iterations. (3) On a quiesced tenant (the next three pops are
    empty) it returns 0. (4) So a second flush that follows a first one on a
    tenant then quiesced returns 0. *)
Theorem flushTeamQueue_spec (teamId : string) :
  (∀ fuel rs w w' n rest,
     exec (FDBQueueClient.flushTeamQueue fuel teamId) rs w = (w', Finished (Some n), rest) →
     ∃ used,
       rs = used ++ rest
       ∧ emptyStreak used = 3
       ∧ (∀ k, (k < length used)%nat → emptyStreak (take k used) < 3)
       ∧ n = jobsIn used
       ∧ log w' =
           log w ++ replicate (length used)
             (EFetch (mkRequest POST
                        (serviceUrl (config w) +:+ "/queue/pop/" +:+ encodeURIComponent teamId)
                        (Some (PopJobRequest ("flush-" +:+ workerId w) []))
                        (Some 10000)))
       ∧ teams w' = teams w
       ∧ mainQueue w' = mainQueue w)
  ∧ (∀ fuel used rest w,
       emptyStreak used = 3 →
       (∀ k, (k < length used)%nat → emptyStreak (take k used) < 3) →
       (length used ≤ fuel)%nat →
       ∃ w', exec (FDBQueueClient.flushTeamQueue fuel teamId) (used ++ rest) w
             = (w', Finished (Some (jobsIn used)), rest))
  ∧ (∀ fuel r1 r2 r3 rest w,
       (3 ≤ fuel)%nat →
       broughtJob (settled r1) = false →
       broughtJob (settled r2) = false →
       broughtJob (settled r3) = false →
       ∃ w', exec (FDBQueueClient.flushTeamQueue fuel teamId) (r1 :: r2 :: r3 :: rest) w
             = (w', Finished (Some 0), rest))
  ∧ (∀ fuel1 fuel2 rs w w1 n r1 r2 r3 rest,
       exec (FDBQueueClient.flushTeamQueue fuel1 teamId) rs w
       = (w1, Finished (Some n), r1 :: r2 :: r3 :: rest) →
       (3 ≤ fuel2)%nat →
       broughtJob (settled r1) = false →
       broughtJob (settled r2) = false →
       broughtJob (settled r3) = false →
       ∃ w2, exec (FDBQueueClient.flushTeamQueue fuel1 teamId
                   ≫= λ _, FDBQueueClient.flushTeamQueue fuel2 teamId) rs w
             = (w2, Finished (Some 0), rest)).
Proof.
  assert (Hquiet : ∀ fuel r1 r2 r3 rest w,
       (3 ≤ fuel)%nat →
       broughtJob (settled r1) = false →
       broughtJob (settled r2) = false →
       broughtJob (settled r3) = false →
       ∃ w', exec (FDBQueueClient.flushTeamQueue fuel teamId) (r1 :: r2 :: r3 :: rest) w
             = (w', Finished (Some 0), rest)).
  { intros fuel r1 r2 r3 rest w Hfuel H1 H2 H3. eexists.
    unfold FDBQueueClient.flushTeamQueue.
    change (r1 :: r2 :: r3 :: rest) with ([r1; r2; r3] ++ rest).
    rewrite (flushLoop_returns teamId [r1; r2; r3] fuel 0 0 rest w).
    - rewrite !jobsIn_cons, H1, H2, H3. done.
    - cbn. rewrite H1, H2, H3. done.
    - intros [|[|[|k]]] Hk; cbn; rewrite ?H1, ?H2; try lia. cbn in Hk. lia.
    - cbn. lia. }
  split_and!.
  - intros fuel rs w w' n rest Hexec.
    apply flushLoop_sound in Hexec as (used & -> & Hstreak & Hbefore & -> & ->); [|lia].
    exists used. split_and!; [done|done|done|lia| | |].
    + apply log_flushedWorld.
    + apply teams_flushedWorld.
    + apply mainQueue_flushedWorld.
  - intros fuel used rest w Hstreak Hbefore Hfuel. eexists.
    unfold FDBQueueClient.flushTeamQueue.
    rewrite (flushLoop_returns teamId used fuel 0 0 rest w) by done.
    by rewrite Z.add_0_l.
  - exact Hquiet.
  - intros fuel1 fuel2 rs w w1 n r1 r2 r3 rest Hexec Hfuel H1 H2 H3.
    rewrite exec_bind, Hexec.
    apply Hquiet; done.
Qed.

(** A flush that sees, in turn: a timeout, an empty queue, job 1, a server
    error, job 2, a timeout, a 200 answer that is not JSON and an object
    without a job. It counts the two jobs, each of which starts the count of
    empty answers afresh, and returns after the third empty answer in a
    row. *)
Lemma flushTeamQueue_spec_witness :
  ∃ w',
    exec (FDBQueueClient.flushTeamQueue 8 Scenario.team0)
      [mkResumption (FetchRejected "timeout") 1 1;
       Scenario.answered JNull 2;
       Scenario.answered (Scenario.claimOf Scenario.job1 "k1" 1000) 3;
       mkResumption (FetchResponse 500 "Internal Server Error" (BodyText "" (inl "no JSON"))) 4 4;
       Scenario.answered (Scenario.claimOf Scenario.job2 "k2" 1200) 5;
       mkResumption (FetchRejected "timeout") 6 6;
       mkResumption (FetchResponse 200 "OK" (BodyText "<html>" (inl "Unexpected token"))) 7 7;
       Scenario.answered JEmptyObject 8]
      (Simulation.world Scenario.start)
    = (w', Finished (Some 2), []).
Proof.
  apply (proj1 (proj2 (flushTeamQueue_spec Scenario.team0)) 8%nat
           [mkResumption (FetchRejected "timeout") 1 1;
            Scenario.answered JNull 2;
            Scenario.answered (Scenario.claimOf Scenario.job1 "k1" 1000) 3;
            mkResumption (FetchResponse 500 "Internal Server Error"
                            (BodyText "" (inl "no JSON"))) 4 4;
            Scenario.answered (Scenario.claimOf Scenario.job2 "k2" 1200) 5;
            mkResumption (FetchRejected "timeout") 6 6;
            mkResumption (FetchResponse 200 "OK"
                            (BodyText "<html>" (inl "Unexpected token"))) 7 7;
            Scenario.answered JEmptyObject 8] []).
  - reflexivity.
  - intros k Hk.
    destruct k as [|[|[|[|[|[|[|[|k]]]]]]]]; vm_compute; try reflexivity.
    vm_compute in Hk. lia.
  - vm_compute. lia.
Defined.
(** ** Claims popped in the drain loop *)

(** C3, at the drain loop. Job 2 is in the remote queue when the drain loop
    completes job 1. [completeJob] pops and claims job 2 (the checker is
    told, [queuedJobs] goes from 1 to 0), and the drain task ends there:
    job 2 is never started, nothing is released, and no task is left that
    could do either. The same completion in the main loop starts job 2. *)
Lemma drain_drops_claimed_job :
  (∃ s team,
     Simulation.run Scenario.draining Scenario.start = Some s
     ∧ Scenario.tenant s = Some team
     ∧ existsb (Scenario.isClaimOf Scenario.job2) (log (Simulation.world s)) = true
     ∧ existsb (Scenario.isStartOf Scenario.job2) (log (Simulation.world s)) = false
     ∧ existsb Scenario.isRelease (log (Simulation.world s)) = false
     ∧ TeamState.activeJobs team = []
     ∧ TeamState.queuedJobs team = 0
     ∧ Simulation.microtasks s = []
     ∧ Simulation.pending s = []
     ∧ Semaphore.waiting (Simulation.semaphore s) = [])
  ∧ (∃ s,
       Simulation.run Scenario.promotion Scenario.start = Some s
       ∧ existsb (Scenario.isClaimOf Scenario.job2) (log (Simulation.world s)) = true
       ∧ existsb (Scenario.isStartOf Scenario.job2) (log (Simulation.world s)) = true).
Proof.
  split.
  - eexists _, _. split; [vm_compute; reflexivity|].
    split_and!; vm_compute; reflexivity.
  - eexists. split; [vm_compute; reflexivity|].
    split_and!; vm_compute; reflexivity.
Qed.

(** ** Two completions of one job *)

(** C6, at a reachable state. Two promote tasks for the same active job both
    read [queuedJobs = 1] before either pop is answered; both pops bring a
    job, and both tasks decrement: [queuedJobs] is -1. *)
Lemma queuedJobs_negative_after_race :
  ∃ s team,
    Simulation.run Scenario.raced Scenario.start = Some s
    ∧ Scenario.tenant s = Some team
    ∧ TeamState.queuedJobs team = -1.
Proof.
  eexists _, _. split; [vm_compute; reflexivity|].
  split; vm_compute; reflexivity.
Qed.
(** ** Invariants kept through every interleaving *)

Lemma preserves_bind {A B} (I : World → Prop) (p : Prog A) (f : A → Prog B) :
  preserves I p → (∀ a, preserves I (f a)) → preserves I (p ≫= f).
Proof.
  intros Hp Hf. induction p as [a|e|k IH|g p IH|req k IH]; cbn in *.
  - apply Hf.
  - done.
  - intros w. by apply IH.
  - destruct Hp as [Hg Hp]. split; [done|]. by apply IH.
  - intros o. by apply IH.
Qed.

Lemma preserves_forEach {A} (I : World → Prop) (l : list A) (body : A → Prog unit) :
  (∀ x, preserves I (body x)) → preserves I (forEach l body).
Proof.
  intros Hbody. induction l as [|x l IH]; cbn [forEach]; [done|].
  apply preserves_bind; [apply Hbody|]. intros _. exact IH.
Qed.

Lemma preserves_runSegment {A} (I : World → Prop) (p : Prog A) w :
  preserves I p → I w →
  I (runSegment p w).1
  ∧ match (runSegment p w).2 with
    | Awaiting _ k => ∀ o, preserves I (k o)
    | _ => True
    end.
Proof.
  revert w. induction p as [a|e|k IH|g p IH|req k IH]; intros w Hp Hw; cbn in *.
  - done.
  - done.
  - by apply IH.
  - destruct Hp as [Hg Hp]. apply IH; [done|]. by apply Hg.
  - done.
Qed.

Lemma preserves_exec {A} (I : World → Prop) (p : Prog A) rs w :
  (∀ now perf w, I w → I (with_clock now perf w)) →
  preserves I p → I w → I (exec p rs w).1.1.
Proof.
  intros Hclock. revert rs w.
  induction p as [a|e|k IH|g p IH|req k IH]; intros rs w Hp Hw; cbn in *.
  - done.
  - done.
  - by apply IH.
  - destruct Hp as [Hg Hp]. apply IH; [done|]. by apply Hg.
  - destruct rs as [|r rs]; [done|]. apply IH; [done|]. by apply Hclock.
Qed.

Section kept.
Context (I : World → Prop).
Context (Hclock : ∀ now perf w, I w → I (with_clock now perf w)).
Context (Hhealth : preserves I FDBQueueClient.healthCheck).
Context (Hgenerate : ∀ now, preserves I (ProductionSimulator.generateJobs now)).
Context (Hpick : preserves I ProductionSimulator.pickJobFromMainQueue).
Context (Hdispatch : ∀ w job now team,
  I w →
  JsMap.get (MainQueueJob.teamId job) (teams w) = Some team →
  ProductionSimulator.atCapacity team = false →
  I (runSegment (ProductionSimulator.startJob job now false) w).1).
Context (Hpush : ∀ job, preserves I (Simulation.pushTask job)).
Context (HactivePush : ∀ job, preserves I (Simulation.activePushTask job)).
Context (Hpromote : ∀ t a, preserves I (Simulation.promoteTask t a)).
Context (Hdrain : ∀ t a, preserves I (Simulation.drainTask t a)).

Lemma keptBy_set_phase p s : keptBy I s → keptBy I (Simulation.set_phase p s).
Proof. done. Qed.

Lemma keptBy_set_overflowQueue q s :
  keptBy I s → keptBy I (Simulation.set_overflowQueue q s).
Proof. done. Qed.

Lemma keptBy_set_world w s :
  I w → keptBy I s → keptBy I (Simulation.set_world w s).
Proof. intros Hw (_ & ? & ? & ?). done. Qed.

Lemma keptBy_runTask task s :
  preserves I task → keptBy I s → keptBy I (Simulation.runTask task s).
Proof.
  intros Htask (Hw & Hm & Hq & Hp). unfold Simulation.runTask, Semaphore.acquire.
  destruct (0 <? Semaphore.permits (Simulation.semaphore s)); cbn.
  - split_and!; [done| |done|done]. apply Forall_app. split; [done|]. by apply Forall_singleton.
  - split_and!; [done|done| |done]. apply Forall_app. split; [done|]. by apply Forall_singleton.
Qed.

Lemma keptBy_finally s : keptBy I s → keptBy I (Simulation.finally s).
Proof.
  intros (Hw & Hm & Hq & Hp). unfold Simulation.finally, Semaphore.release.
  destruct (Semaphore.waiting (Simulation.semaphore s)) as [|next rest] eqn:Hwait; cbn.
  - split_and!; [done|done|by apply Forall_nil|done].
  - apply Forall_cons in Hq as [Hnext Hrest].
    split_and!; [done| |done|done]. apply Forall_app. split; [done|]. by apply Forall_singleton.
Qed.

Lemma keptBy_afterSegment s (p : Prog unit) w :
  Forall (preserves I) (Simulation.microtasks s) →
  Forall (preserves I) (Semaphore.waiting (Simulation.semaphore s)) →
  Forall (λ t, ∀ o, preserves I (t.2 o)) (Simulation.pending s) →
  preserves I p → I w →
  keptBy I (Simulation.afterSegment s (runSegment p w)).
Proof.
  intros Hm Hq Hp Hpres Hw.
  destruct (preserves_runSegment I p w Hpres Hw) as [Hw' Hk].
  destruct (runSegment p w) as [w' [[]|e|req k]]; cbn in *.
  - apply keptBy_finally. by split_and!.
  - apply keptBy_set_phase, keptBy_finally. by split_and!.
  - split_and!; [done|done|done|]. apply Forall_app. split; [done|].
    by apply Forall_singleton.
Qed.

Lemma sync_preserves {A} (p : Prog A) w :
  preserves I p → I w → I (Simulation.sync p w).1.
Proof.
  intros Hp Hw. unfold Simulation.sync.
  destruct (preserves_runSegment I p w Hp Hw) as [Hw' _].
  by destruct (runSegment p w) as [w' [a|e|req k]].
Qed.

Lemma keptBy_fatal w s : I w → keptBy I s → keptBy I (Simulation.fatal w s).
Proof. intros Hw Hs. by apply keptBy_set_phase, keptBy_set_world. Qed.

Lemma keptBy_drainOverflow s : keptBy I s → keptBy I (Simulation.drainOverflow s).
Proof.
  intros Hs. unfold Simulation.drainOverflow.
  assert (Hstart : keptBy I (Simulation.set_overflowQueue [] s)) by done.
  revert Hstart. generalize (Simulation.set_overflowQueue [] s).
  induction (Simulation.overflowQueue s) as [|job q IH]; intros s0 Hs0; cbn; [done|].
  apply IH. apply keptBy_runTask; [apply Hpush|done].
Qed.

Lemma sync_isTeamAtCapacity teamId w :
  Simulation.sync (ProductionSimulator.isTeamAtCapacity teamId) w
  = (w, inl match JsMap.get teamId (teams w) with
            | Some team => ProductionSimulator.atCapacity team
            | None => true
            end).
Proof.
  unfold Simulation.sync. cbn. by destruct (JsMap.get teamId (teams w)).
Qed.

Lemma keptBy_dispatch rounds now s :
  keptBy I s → keptBy I (Simulation.dispatch rounds now s).
Proof.
  revert s. induction rounds as [|rounds IH]; intros s Hs; cbn [Simulation.dispatch]; [done|].
  destruct (0 <? Semaphore.available (Simulation.semaphore s)); [|done].
  pose proof (sync_preserves ProductionSimulator.pickJobFromMainQueue
                (Simulation.world s) Hpick (proj1 Hs)) as Hw1.
  destruct (Simulation.sync ProductionSimulator.pickJobFromMainQueue (Simulation.world s))
    as [w1 [[job|]|e]]; cbn in Hw1.
  - rewrite sync_isTeamAtCapacity.
    destruct (JsMap.get (MainQueueJob.teamId job) (teams w1)) as [team|] eqn:Hteam.
    + destruct (ProductionSimulator.atCapacity team) eqn:Hcap.
      * apply IH. by apply keptBy_set_overflowQueue, keptBy_set_world.
      * pose proof (Hdispatch w1 job now team Hw1 Hteam Hcap) as Hw2.
        unfold Simulation.sync.
        destruct (runSegment (ProductionSimulator.startJob job now false) w1)
          as [w2 [a|e|req k]]; cbn in Hw2.
        -- apply IH. apply keptBy_runTask; [apply HactivePush|].
           by apply keptBy_set_world.
        -- by apply keptBy_fatal.
        -- by apply keptBy_fatal.
    + apply IH. by apply keptBy_set_overflowQueue, keptBy_set_world.
  - by apply keptBy_set_world.
  - by apply keptBy_fatal.
Qed.

Lemma keptBy_spawnCompletions task now s :
  (∀ t a, preserves I (task t a)) →
  keptBy I s → keptBy I (Simulation.spawnCompletions task now s).
Proof.
  intros Htask. unfold Simulation.spawnCompletions.
  assert (Hinner : ∀ id l s0, keptBy I s0 →
            keptBy I (foldl (λ s1 a, Simulation.runTask (task id a) s1) s0 l)).
  { intros id l. induction l as [|a l IHl]; intros s0 Hs0; cbn [foldl]; [exact Hs0|].
    apply IHl. apply keptBy_runTask; [apply Htask|done]. }
  generalize (JsMap.values (teams (Simulation.world s))). intros ts. revert s.
  induction ts as [|team ts IH]; intros s Hs; cbn [foldl]; [exact Hs|].
  apply IH. by apply Hinner.
Qed.

Lemma keptBy_mainIteration now s :
  keptBy I s → keptBy I (Simulation.mainIteration now s).
Proof.
  intros Hs. unfold Simulation.mainIteration.
  pose proof (sync_preserves (ProductionSimulator.generateJobs now)
                (Simulation.world s) (Hgenerate now) (proj1 Hs)) as Hw1.
  destruct (Simulation.sync (ProductionSimulator.generateJobs now) (Simulation.world s))
    as [w1 [[]|e]]; cbn in Hw1.
  - assert (Hd : keptBy I (Simulation.dispatch 100 now
                   (Simulation.drainOverflow (Simulation.set_world w1 s)))).
    { apply keptBy_dispatch, keptBy_drainOverflow. by apply keptBy_set_world. }
    destruct (Simulation.phase _); try done; by apply keptBy_spawnCompletions.
  - by apply keptBy_fatal.
Qed.

Lemma keptBy_step l s s' :
  keptBy I s → Simulation.step l s = Some s' → keptBy I s'.
Proof.
  intros Hs Hstep. unfold Simulation.step in Hstep.
  destruct (negb (Simulation.alive s)); [done|].
  destruct Hs as (Hw & Hm & Hq & Hp).
  destruct l as [r|now| | |now| |now perf|i r];
    destruct (Simulation.microtasks s) as [|task rest] eqn:Hmicro; try done.
  - destruct (Simulation.phase s); try done.
    pose proof (preserves_exec I FDBQueueClient.healthCheck [r] (Simulation.world s)
                  Hclock Hhealth Hw) as Hw'.
    destruct (exec FDBQueueClient.healthCheck [r] (Simulation.world s))
      as [[w' [healthy|e|req k]] rs]; try done.
    injection Hstep as <-. apply keptBy_set_phase, keptBy_set_world; [done|].
    split_and!; try done. by rewrite Hmicro.
  - destruct (Simulation.phase s); try done. injection Hstep as <-.
    apply keptBy_mainIteration. split_and!; try done. by rewrite Hmicro.
  - destruct (Simulation.phase s); try done. injection Hstep as <-.
    apply keptBy_set_phase. split_and!; try done. by rewrite Hmicro.
  - destruct (Simulation.phase s); try done.
    destruct (Simulation.inFlight s <=? 0); [|done]. injection Hstep as <-.
    apply keptBy_set_phase. split_and!; try done. by rewrite Hmicro.
  - destruct (Simulation.phase s); try done. injection Hstep as <-.
    apply keptBy_spawnCompletions; [apply Hdrain|]. split_and!; try done. by rewrite Hmicro.
  - destruct (Simulation.phase s); try done. injection Hstep as <-.
    apply keptBy_set_phase. split_and!; try done. by rewrite Hmicro.
  - injection Hstep as <-. apply Forall_cons in Hm as [Htask Hrest].
    apply keptBy_afterSegment; cbn; try done. by apply Hclock.
  - destruct (Simulation.pending s !! i) as [[req k]|] eqn:Hi; [|done].
    injection Hstep as <-.
    apply keptBy_afterSegment; cbn; try done.
    + by apply Forall_delete.
    + apply (Forall_lookup_1 _ _ _ _ Hp Hi).
    + by apply Hclock.
Qed.

Lemma keptBy_run ls : ∀ s s',
  keptBy I s → Simulation.run ls s = Some s' → keptBy I s'.
Proof.
  induction ls as [|l ls IH]; intros s s' Hs Hrun; cbn in Hrun.
  - by injection Hrun as <-.
  - destruct (Simulation.step l s) as [s1|] eqn:Hstep; [|done].
    eapply IH; [|done]. by eapply keptBy_step.
Qed.
End kept.
(** ** Programs that leave [activeJobs] alone *)

Lemma quiet_bind {A B} (p : Prog A) (f : A → Prog B) :
  quiet p → (∀ a, quiet (f a)) → quiet (p ≫= f).
Proof.
  intros Hp Hf. induction p as [a|e|k IH|g p IH|req k IH]; cbn in *.
  - apply Hf.
  - done.
  - intros w. by apply IH.
  - destruct Hp as [Hg Hp]. split; [done|]. by apply IH.
  - intros o. by apply IH.
Qed.

Lemma quiet_forEach {A} (l : list A) (body : A → Prog unit) :
  (∀ x, quiet (body x)) → quiet (forEach l body).
Proof.
  intros Hbody. induction l as [|x l IH]; cbn [forEach]; [done|].
  apply quiet_bind; [apply Hbody|]. intros _. exact IH.
Qed.

Lemma quiet_preserves {A} (I : World → Prop) (p : Prog A) :
  (∀ f, inert f → ∀ w, I w → I (f w)) → quiet p → preserves I p.
Proof.
  intros HI Hp. induction p as [a|e|k IH|g p IH|req k IH]; cbn in *.
  - done.
  - done.
  - intros w. by apply IH.
  - destruct Hp as [Hg Hp]. split; [by apply HI|]. by apply IH.
  - intros o. by apply IH.
Qed.

Lemma inert_emit e : silent e = true → inert (emit e).
Proof.
  intros He w. split; [done|]. exists [e]. split; [done|]. cbn. by rewrite He.
Qed.

Lemma inert_tell c : inert (tell c).
Proof.
  intros w. unfold tell. destruct (correctnessChecking (config w)).
  - by apply inert_emit.
  - split; [done|]. exists []. by rewrite app_nil_r.
Qed.

Lemma inert_compose f g : inert f → inert g → inert (λ w, f (g w)).
Proof.
  intros Hf Hg w. destruct (Hf (g w)) as [Hf1 (lf & Hf2 & Hf3)].
  destruct (Hg w) as [Hg1 (lg & Hg2 & Hg3)]. split.
  - intros id. by rewrite Hf1, Hg1.
  - exists (lg ++ lf). rewrite Hf2, Hg2, <- app_assoc. split; [done|].
    by rewrite forallb_app, Hg3, Hf3.
Qed.

Lemma inert_with_team t f :
  (∀ team, slots (f team) = slots team) → inert (with_team t f).
Proof.
  intros Hf w. split.
  - intros id. cbn. rewrite JsMap_get_update. case_decide; [|done].
    destruct (JsMap.get id (teams w)) as [team|]; [|done]. cbn. by rewrite Hf.
  - exists []. by rewrite app_nil_r.
Qed.

Lemma inert_fields f :
  (∀ w, teams (f w) = teams w) → (∀ w, log (f w) = log w) → inert f.
Proof.
  intros Ht Hl w. split.
  - intros id. by rewrite Ht.
  - exists []. by rewrite Hl, app_nil_r.
Qed.

Ltac quiet_step :=
  first
  [ exact Logic.I
  | apply quiet_bind
  | apply quiet_forEach
  | progress intros
  | match goal with
    | |- _ ∧ _ => split
    | |- inert (emit _) => apply inert_emit; reflexivity
    | |- inert (tell _) => apply inert_tell
    | |- inert (with_team _ _) => apply inert_with_team; intros; reflexivity
    | |- inert (λ w, emit ?e (with_team ?t ?f w)) =>
        apply (inert_compose (emit e) (with_team t f))
    | |- inert _ => apply inert_fields; intros; reflexivity
    | |- quiet (match ?x with _ => _ end) => destruct x
    | |- quiet (if ?b then _ else _) => destruct b
    end
  | solve [auto with quiet]
  | progress cbn [quiet gets modify skip Date_now performance_now Math_random fetch
                  metrics_record oracle] ].

Create HintDb quiet.

Lemma quiet_request method path op body :
  quiet (FDBQueueClient.request method path op body).
Proof. unfold FDBQueueClient.request, FDBQueueClient.requestFailed. repeat quiet_step. Qed.
#[export] Hint Resolve quiet_request : quiet.

Lemma quiet_pushJob teamId jobId priority timeout crawlId :
  quiet (FDBQueueClient.pushJob teamId jobId priority timeout crawlId).
Proof. unfold FDBQueueClient.pushJob. repeat quiet_step. Qed.

Lemma quiet_popJob teamId : quiet (FDBQueueClient.popJob teamId).
Proof. unfold FDBQueueClient.popJob. repeat quiet_step. Qed.

Lemma quiet_client_completeJob queueKey : quiet (FDBQueueClient.completeJob queueKey).
Proof. unfold FDBQueueClient.completeJob. repeat quiet_step. Qed.

Lemma quiet_releaseJob jobId : quiet (FDBQueueClient.releaseJob jobId).
Proof. unfold FDBQueueClient.releaseJob. repeat quiet_step. Qed.

Lemma quiet_pushActiveJob teamId jobId timeout :
  quiet (FDBQueueClient.pushActiveJob teamId jobId timeout).
Proof. unfold FDBQueueClient.pushActiveJob. repeat quiet_step. Qed.

Lemma quiet_removeActiveJob teamId jobId :
  quiet (FDBQueueClient.removeActiveJob teamId jobId).
Proof. unfold FDBQueueClient.removeActiveJob. repeat quiet_step. Qed.

Lemma quiet_healthCheck : quiet FDBQueueClient.healthCheck.
Proof. unfold FDBQueueClient.healthCheck. repeat quiet_step. Qed.
#[export] Hint Resolve quiet_pushJob quiet_popJob quiet_client_completeJob quiet_releaseJob
  quiet_pushActiveJob quiet_removeActiveJob quiet_healthCheck : quiet.

Lemma quiet_getTeam teamId : quiet (ProductionSimulator.getTeam teamId).
Proof. unfold ProductionSimulator.getTeam. repeat quiet_step. Qed.
#[export] Hint Resolve quiet_getTeam : quiet.

Lemma quiet_pushToConcurrencyQueue job :
  quiet (ProductionSimulator.pushToConcurrencyQueue job).
Proof. unfold ProductionSimulator.pushToConcurrencyQueue. repeat quiet_step. Qed.

Lemma quiet_generateJobs now : quiet (ProductionSimulator.generateJobs now).
Proof.
  unfold ProductionSimulator.generateJobs, ProductionSimulator.generateFor.
  repeat quiet_step.
Qed.

Lemma quiet_pickJobFromMainQueue : quiet ProductionSimulator.pickJobFromMainQueue.
Proof. unfold ProductionSimulator.pickJobFromMainQueue. repeat quiet_step. Qed.

Lemma quiet_isTeamAtCapacity teamId : quiet (ProductionSimulator.isTeamAtCapacity teamId).
Proof. unfold ProductionSimulator.isTeamAtCapacity. repeat quiet_step. Qed.

Lemma quiet_pushTask job : quiet (Simulation.pushTask job).
Proof. unfold Simulation.pushTask. repeat quiet_step. Qed.

Lemma quiet_activePushTask job : quiet (Simulation.activePushTask job).
Proof. unfold Simulation.activePushTask. repeat quiet_step. Qed.
(** ** The concurrency bound *)

Lemma slotFreed_snoc history e :
  slotFreed (history ++ [e]) = slotFreed_step (slotFreed history) e.
Proof. unfold slotFreed. by rewrite foldl_app. Qed.

Lemma disciplinedFrom_snoc history e : ∀ freed,
  disciplinedFrom freed (history ++ [e])
  = disciplinedFrom freed history && allowed (foldl slotFreed_step freed history) e.
Proof.
  induction history as [|x history IH]; intros freed; cbn.
  - by rewrite andb_true_r.
  - rewrite IH. by rewrite andb_assoc.
Qed.

Lemma disciplined_snoc history e :
  disciplined (history ++ [e])
  = disciplined history && allowed (slotFreed history) e.
Proof. apply disciplinedFrom_snoc. Qed.

Lemma slotFreed_silent history l :
  forallb silent l = true → slotFreed (history ++ l) = slotFreed history.
Proof.
  revert history. induction l as [|e l IH]; intros history Hl.
  - by rewrite app_nil_r.
  - cbn in Hl. apply andb_true_iff in Hl as [He Hl].
    rewrite cons_middle, (assoc_L (++) history [e] l), IH by done.
    rewrite slotFreed_snoc. by destruct e.
Qed.

Lemma disciplined_silent history l :
  forallb silent l = true → disciplined (history ++ l) = disciplined history.
Proof.
  revert history. induction l as [|e l IH]; intros history Hl.
  - by rewrite app_nil_r.
  - cbn in Hl. apply andb_true_iff in Hl as [He Hl].
    rewrite cons_middle, (assoc_L (++) history [e] l), IH by done.
    rewrite disciplined_snoc. destruct e; try done; by rewrite andb_true_r.
Qed.

Lemma withinLimits_inert f w : inert f → withinLimits w → withinLimits (f w).
Proof.
  intros Hf Hw. destruct (Hf w) as [Hteams (l & Hlog & Hl)].
  unfold withinLimits. rewrite Hlog, disciplined_silent, slotFreed_silent by done.
  intros Hd id team Hteam. specialize (Hteams id). rewrite Hteam in Hteams.
  destruct (JsMap.get id (teams w)) as [team0|] eqn:Hteam0; [|done].
  injection Hteams as Ha Ht. rewrite Ha, Ht. by apply Hw.
Qed.

Lemma withinLimits_clock now perf w : withinLimits w → withinLimits (with_clock now perf w).
Proof. done. Qed.

(** [team.activeJobs.delete(jobId)], as [completeJob] does it. *)
Lemma withinLimits_delete teamId jobId w :
  withinLimits w →
  withinLimits
    (emit (EActiveDelete teamId jobId
             match JsMap.get teamId (teams w) with
             | Some team => JsMap.has jobId (TeamState.activeJobs team)
             | None => false
             end)
       (with_team teamId (TeamState.with_activeJobs (JsMap.delete jobId)) w)).
Proof.
  intros Hw. unfold withinLimits. cbn [log emit with_team with_teams teams].
  rewrite disciplined_snoc, slotFreed_snoc.
  intros [Hd _]%andb_true_iff id team'. specialize (Hw Hd id).
  rewrite JsMap_get_update. cbn [slotFreed_step]. unfold override.
  destruct (decide (teamId = id)) as [->|Hne].
  - rewrite decide_True by done.
    destruct (JsMap.get id (teams w)) as [team|]; [|done].
    intros [= <-]. destruct (Hw team eq_refl) as [Hsize _]. cbn.
    pose proof (JsMap_size_delete_le jobId (TeamState.activeJobs team)).
    split; [lia|]. intros Hhas. apply JsMap_size_delete_has in Hhas. lia.
  - rewrite decide_False by done. apply Hw.
Qed.

(** [team.activeJobs.set(job.jobId, activeJob)] from the promotion path. *)
Lemma withinLimits_start_promoted teamId jobId activeJob w :
  withinLimits w →
  withinLimits
    (emit (EActiveSet teamId jobId true)
       (with_team teamId (TeamState.with_activeJobs (JsMap.set jobId activeJob)) w)).
Proof.
  intros Hw. unfold withinLimits. cbn [log emit with_team with_teams teams].
  rewrite disciplined_snoc, slotFreed_snoc.
  intros [Hd Hfreed]%andb_true_iff id team'. specialize (Hw Hd id). cbn in Hfreed.
  rewrite JsMap_get_update. cbn [slotFreed_step]. unfold override.
  destruct (decide (teamId = id)) as [->|Hne].
  - rewrite decide_True by done.
    destruct (JsMap.get id (teams w)) as [team|]; [|done].
    intros [= <-]. destruct (Hw team eq_refl) as [_ Hroom]. cbn.
    pose proof (JsMap_size_set_le jobId activeJob (TeamState.activeJobs team)).
    specialize (Hroom Hfreed). split; [lia|done].
  - rewrite decide_False by done. apply Hw.
Qed.

(** The same from the dispatch path, which has just seen the tenant below
    its limit. *)
Lemma withinLimits_start_dispatch job now team w :
  withinLimits w →
  JsMap.get (MainQueueJob.teamId job) (teams w) = Some team →
  ProductionSimulator.atCapacity team = false →
  withinLimits (runSegment (ProductionSimulator.startJob job now false) w).1.
Proof.
  intros Hw Hteam Hcap. cbn. rewrite Hteam. cbn.
  unfold withinLimits. cbn [log emit with_team with_teams teams].
  rewrite disciplined_snoc, slotFreed_snoc.
  intros [Hd _]%andb_true_iff id team'. specialize (Hw Hd id).
  rewrite JsMap_get_update. cbn [slotFreed_step]. unfold override.
  destruct (decide (MainQueueJob.teamId job = id)) as [<-|Hne].
  - rewrite decide_True by done. rewrite Hteam.
    intros [= <-]. destruct (Hw team Hteam) as [Hsize _]. cbn.
    unfold ProductionSimulator.atCapacity in Hcap. apply Z.leb_gt in Hcap.
    pose proof (JsMap_size_set_le (MainQueueJob.jobId job)
                  (ActiveJob.mk (MainQueueJob.jobId job) "" now false)
                  (TeamState.activeJobs team)).
    split; [lia|done].
  - rewrite decide_False by done. apply Hw.
Qed.

Lemma quiet_withinLimits {A} (p : Prog A) : quiet p → preserves withinLimits p.
Proof. apply quiet_preserves. intros f Hf w. by apply withinLimits_inert. Qed.

Lemma preserves_completeJob teamId activeJob :
  preserves withinLimits (ProductionSimulator.completeJob teamId activeJob).
Proof.
  unfold ProductionSimulator.completeJob.
  apply preserves_bind; [by apply quiet_withinLimits, quiet_getTeam|].
  intros [team|]; [|done].
  apply preserves_bind.
  { split; [|done]. intros w. apply withinLimits_delete. }
  intros _. apply quiet_withinLimits. repeat quiet_step.
Qed.

Lemma preserves_startJob_promoted job now :
  preserves withinLimits (ProductionSimulator.startJob job now true).
Proof.
  unfold ProductionSimulator.startJob.
  apply preserves_bind; [by apply quiet_withinLimits, quiet_getTeam|].
  intros [team|]; [|done]. split; [|done]. intros w. apply withinLimits_start_promoted.
Qed.

Lemma preserves_promoteTask teamId activeJob :
  preserves withinLimits (Simulation.promoteTask teamId activeJob).
Proof.
  unfold Simulation.promoteTask.
  apply preserves_bind; [by apply quiet_withinLimits, quiet_removeActiveJob|]. intros _.
  apply preserves_bind; [apply preserves_completeJob|]. intros [job|]; [|done].
  apply preserves_bind; [done|]. intros now.
  apply preserves_bind; [apply preserves_startJob_promoted|]. intros _.
  apply quiet_withinLimits. repeat quiet_step.
Qed.

Lemma preserves_drainTask teamId activeJob :
  preserves withinLimits (Simulation.drainTask teamId activeJob).
Proof.
  unfold Simulation.drainTask.
  apply preserves_bind; [by apply quiet_withinLimits, quiet_removeActiveJob|]. intros _.
  apply preserves_bind; [apply preserves_completeJob|]. done.
Qed.

(** Every tenant starts with no active job, in one of the configured tiers. *)
Lemma initializeTeams_fresh (all : list Tier.t) tiers : ∀ teamIndex teams0,
  tiers ⊆ all →
  (∀ id team, JsMap.get id teams0 = Some team →
     TeamState.activeJobs team = [] ∧ TeamState.tier team ∈ all) →
  ∀ id team,
    JsMap.get id (ProductionSimulator.initializeTeams tiers teamIndex teams0) = Some team →
    TeamState.activeJobs team = [] ∧ TeamState.tier team ∈ all.
Proof.
  induction tiers as [|tier tiers IH]; intros teamIndex teams0 Hsub Hteams0; [done|].
  cbn [ProductionSimulator.initializeTeams]. apply IH.
  - intros x Hx. apply Hsub. by right.
  - assert (Htier : tier ∈ all) by (apply Hsub; by left).
    revert Hteams0. generalize teams0.
    induction (seq 0 (Tier.teamCount tier)) as [|i l IHl]; intros m Hm; [done|].
    cbn [foldl]. apply IHl. intros id team. rewrite JsMap_get_set.
    case_decide; [|apply Hm]. by intros [= <-].
Qed.

Lemma withinLimits_initial config runId workerId randoms :
  (∀ tier, tier ∈ teamTiers config → 0 ≤ Tier.concurrencyLimit tier) →
  keptBy withinLimits (Simulation.initial config runId workerId randoms).
Proof.
  intros Hlimits. split_and!; try by apply Forall_nil.
  intros _ id team Hteam. cbn in Hteam.
  apply (initializeTeams_fresh (teamTiers config)) in Hteam as [Hactive Htier]; [|done|done].
  rewrite Hactive. cbn. split; [by apply Hlimits|done].
Qed.

(** When the bound on [activeJobs] does hold. Take any configuration whose
    limits are not negative and any state the process can reach, by whatever
    interleaving of main-loop passes, drain passes, task starts and settled
    requests. If, in the history that led there, every [startJob] of the
    promotion path ([fromFDB = true]) came immediately after a [completeJob]
    that removed an active job of the same tenant (no other change of that
    tenant's [activeJobs] in between), then every tenant has at most
    [concurrencyLimit] active jobs. The code does not see to that condition:
    in the run [Scenario.overtaken] it fails. *)
Theorem activeJobs_within_limit (config : Config) (runId workerId : string)
    (randoms : nat → spec_float) (s : Simulation.System) :
  (∀ tier, tier ∈ teamTiers config → 0 ≤ Tier.concurrencyLimit tier) →
  Simulation.reachable config runId workerId randoms s →
  disciplined (log (Simulation.world s)) = true →
  ∀ id team,
    JsMap.get id (teams (Simulation.world s)) = Some team →
    JsMap.size (TeamState.activeJobs team) ≤ Tier.concurrencyLimit (TeamState.tier team).
Proof.
  intros Hlimits [ls Hrun] Hd id team Hteam.
  assert (Hkept : keptBy withinLimits s).
  { eapply (keptBy_run withinLimits); [..|exact Hrun].
    - apply withinLimits_clock.
    - apply quiet_withinLimits, quiet_healthCheck.
    - intros now. apply quiet_withinLimits, quiet_generateJobs.
    - apply quiet_withinLimits, quiet_pickJobFromMainQueue.
    - intros w job now team0. apply withinLimits_start_dispatch.
    - intros job. apply quiet_withinLimits, quiet_pushTask.
    - intros job. apply quiet_withinLimits, quiet_activePushTask.
    - apply preserves_promoteTask.
    - apply preserves_drainTask.
    - by apply withinLimits_initial. }
  destruct Hkept as [Hw _]. by apply (Hw Hd id team).
Qed.

Lemma activeJobs_within_limit_witness :
  (∀ tier, tier ∈ teamTiers Scenario.config1 → 0 ≤ Tier.concurrencyLimit tier)
  ∧ Simulation.reachable Scenario.config1 "run" "w" (λ _, Double.half) Scenario.promoted
  ∧ disciplined (log (Simulation.world Scenario.promoted)) = true
  ∧ existsb (Scenario.isStartOf Scenario.job2) (log (Simulation.world Scenario.promoted)) = true
  ∧ ∀ id team,
      JsMap.get id (teams (Simulation.world Scenario.promoted)) = Some team →
      JsMap.size (TeamState.activeJobs team) ≤ Tier.concurrencyLimit (TeamState.tier team).
Proof.
  assert (H1 : ∀ tier, tier ∈ teamTiers Scenario.config1 → 0 ≤ Tier.concurrencyLimit tier).
  { intros tier Htier. apply list_elem_of_singleton in Htier as ->. cbn. lia. }
  assert (H2 : Simulation.reachable Scenario.config1 "run" "w" (λ _, Double.half) Scenario.promoted).
  { exists Scenario.promotion. vm_compute. reflexivity. }
  assert (H3 : disciplined (log (Simulation.world Scenario.promoted)) = true).
  { vm_compute. reflexivity. }
  split_and!; [exact H1|exact H2|exact H3|vm_compute; reflexivity|].
  exact (activeJobs_within_limit Scenario.config1 "run" "w" (λ _, Double.half) Scenario.promoted
           H1 H2 H3).
Defined.

(** C1. The bound does not hold of the code. In the run
    [Scenario.overtaken] the tenant has a limit of one. Job 1 is started by
    the dispatch loop; jobs 2 and 3 find the tenant at capacity and overflow.
    The promote task of job 1 runs [completeJob], which removes job 1 and
    then waits for the answer to its pop. While it waits, the main loop comes
    round: the tenant has no active job, [isTeamAtCapacity] answers [false],
    and the dispatch loop starts job 4. Then the pop is answered with job 2
    and the promote task starts it, without asking [isTeamAtCapacity]: the
    tenant has two active jobs. Every [startJob] of the run is one of the two
    the claim allows (two from the dispatch loop right after its check, one
    from the promotion path after a [completeJob] that removed a job), and
    every completion removed a job. *)
Lemma activeJobs_exceed_limit :
  ∃ s team,
    Simulation.run Scenario.overtaken Scenario.start = Some s
    ∧ Scenario.tenant s = Some team
    ∧ Tier.concurrencyLimit (TeamState.tier team) = 1
    ∧ (TeamState.activeJobs team).*1 = [Scenario.job4; Scenario.job2]
    ∧ JsMap.size (TeamState.activeJobs team) = 2
    ∧ filter (λ e, Scenario.isSlotChange e = true) (log (Simulation.world s))
      = [EActiveSet Scenario.team0 Scenario.job1 false;
         EActiveDelete Scenario.team0 Scenario.job1 true;
         EActiveSet Scenario.team0 Scenario.job4 false;
         EActiveSet Scenario.team0 Scenario.job2 true].
Proof.
  eexists _, _. split; [vm_compute; reflexivity|].
  split_and!; vm_compute; reflexivity.
Qed.

(** The same with a job that is completed twice: in the run
    [Scenario.raced] two promote tasks exist for one active job, each starts
    the job it popped, and the tenant, whose limit is one, has two active
    jobs. *)
Lemma limit_exceeded_by_duplicate_completion :
  ∃ s team,
    Simulation.run Scenario.raced Scenario.start = Some s
    ∧ disciplined (log (Simulation.world s)) = false
    ∧ Scenario.tenant s = Some team
    ∧ Tier.concurrencyLimit (TeamState.tier team) = 1
    ∧ JsMap.size (TeamState.activeJobs team) = 2.
Proof.
  eexists _, _. split; [vm_compute; reflexivity|].
  split_and!; vm_compute; reflexivity.
Qed.

Local Abbreviation list_ascii_of_string := Stdlib.Strings.String.list_ascii_of_string.
Local Abbreviation string_of_list_ascii_of_string := Stdlib.Strings.String.string_of_list_ascii_of_string.

(** ** Job ids *)

Lemma list_ascii_of_string_app (s1 s2 : string) :
  list_ascii_of_string (s1 +:+ s2) = list_ascii_of_string s1 ++ list_ascii_of_string s2.
Proof. induction s1 as [|a s1 IH]; simpl; [done|]. by rewrite IH. Qed.

Lemma list_ascii_of_string_inj (s1 s2 : string) :
  list_ascii_of_string s1 = list_ascii_of_string s2 → s1 = s2.
Proof.
  intros H. rewrite <- (string_of_list_ascii_of_string s1), H.
  apply string_of_list_ascii_of_string.
Qed.




(** * Binary64 arithmetic

    What is needed of the rounding of [SpecFloat] to bound the numbers
    [generateJobs] computes. *)





(** ** Shifting right *)




(** ** Rounding a quotient to the nearest integer, ties to even *)






(** ** [binary_round_aux] *)




(** ** Values *)










(** ** What rounding keeps *)




(** ** The operations of [generateJobs] *)






(** ** Subtraction *)








(** ** The numbers [generateJobs] draws *)




(** The literals are the correctly rounded quotients, and the integers are
    exact. *)
Lemma literals_rounded :
  Double.half = Double.ofZ 1 ⊘ Double.ofZ 2
  ∧ Double.fifth = Double.ofZ 2 ⊘ Double.ofZ 10
  ∧ Double.ofZ 100 = S754_finite false 7036874417766400 (-46)
  ∧ Double.ofZ 1000 = S754_finite false 8796093022208000 (-43).
Proof. split_and!; by vm_compute. Qed.

(** Two draws at which the rounding decides. A hundred times the double
    nearest to 0.03 is just below 3, and rounds to 3: the priority is 4. With
    one job per second and the draw [0.5 + 2^-53] the jitter is positive, and
    [1000 + jitter] rounds to 1000: a tenant last served 1000 ms ago is
    due. *)
Lemma rounding_decides :
  (100 * Double.toQ (S754_finite false 8646911284551352 (-58)) < 3)%Q
  ∧ ProductionSimulator.priorityFor (S754_finite false 8646911284551352 (-58)) = 4
  ∧ (0 < Double.toQ (ProductionSimulator.jitterOf (S754_finite false 4503599627370497 (-53))
                       (Double.ofZ 1000)))%Q
  ∧ ProductionSimulator.due (Tier.mk "one" 1 1 (Double.ofZ 1)) 1000 0
      (S754_finite false 4503599627370497 (-53)) = true.
Proof. split_and!; by vm_compute. Qed.


(** ** [generateJobs] *)




Lemma JsMap_get_is_Some {V} (k : string) (m : JsMap.t V) :
  k ∈ m.*1 → is_Some (JsMap.get k m).
Proof.
  induction m as [|[k' v] m IH]; csimpl.
  - by intros ?%elem_of_nil.
  - case_decide; [by eexists|]. intros [?|?]%elem_of_cons; [done|by apply IH].
Qed.



(** * Further properties of the client *)

Lemma mainQueue_tell c w : mainQueue (tell c w) = mainQueue w.
Proof. unfold tell. by destruct (correctnessChecking (config w)). Qed.

Lemma mainQueue_requested req r rec w : mainQueue (requested req r rec w) = mainQueue w.
Proof. done. Qed.

(** ** [pushJob] *)

(** [pushJob] run on its own. The checker is told of the attempt before the
    request leaves; the request is one [POST /queue/push] whose body carries
    the arguments and [Date.now()] as the data timestamp; the checker is told
    of the confirmation after a successful answer only; the value returned is
    the success of the request: [true] exactly for a 2xx answer whose body
    parses as JSON. Tenants and main queue are not touched. *)
Theorem pushJob_protocol (teamId jobId : string) (priority timeout : Z)
    (crawlId : option string) (r : Resumption) (rest : list Resumption) (w : World) :
  ∃ rec w',
    exec (FDBQueueClient.pushJob teamId jobId priority timeout crawlId) (r :: rest) w
    = (w', Finished (bool_decide (is_Some (answer (settled r)))), rest)
    ∧ log w' =
        log w
        ++ told w (recordPush jobId teamId priority (dateNow w) crawlId)
        ++ [EFetch (mkRequest POST (serviceUrl (config w) +:+ "/queue/push")
                      (Some (PushJobRequest teamId jobId (dateNow w) priority timeout crawlId))
                      None);
            EMetrics rec]
        ++ (if bool_decide (is_Some (answer (settled r)))
            then told w (confirmPush jobId) else [])
    ∧ operationType rec = push
    ∧ success rec = bool_decide (is_Some (answer (settled r)))
    ∧ teams w' = teams w
    ∧ mainQueue w' = mainQueue w.
Proof.
  unfold FDBQueueClient.pushJob. cbn [exec Date_now gets mbind Prog_bind bind].
  rewrite exec_bind, exec_oracle, exec_bind.
  destruct (exec_request POST "/queue/push" push
              (Some (PushJobRequest teamId jobId (dateNow w) priority timeout crawlId))
              r rest (tell (recordPush jobId teamId priority (dateNow w) crawlId) w))
    as (rec & err & Hreq & Hop & Hsucc & _).
  rewrite config_tell in Hreq. rewrite Hreq. cbn [FDBQueueClient.succeeded].
  exists rec. rewrite exec_bind.
  destruct (bool_decide (is_Some (answer (settled r)))) eqn:Haccepted;
    destruct (correctnessChecking (config w)) eqn:Hchecker; cbn [andb].
  - rewrite exec_oracle. cbn [exec]. eexists. split; [reflexivity|].
    split_and!; [|done|congruence|..].
    + rewrite log_tell, log_requested, log_tell. unfold told.
      rewrite config_requested, config_tell, Hchecker.
      by rewrite <- !(assoc_L (++)).
    + by rewrite teams_tell, teams_requested, teams_tell.
    + by rewrite mainQueue_tell, mainQueue_requested, mainQueue_tell.
  - cbn [exec skip]. eexists. split; [reflexivity|].
    split_and!; [|done|congruence|..].
    + rewrite log_requested, log_tell. unfold told. rewrite Hchecker.
      by rewrite <- !(assoc_L (++)).
    + by rewrite teams_requested, teams_tell.
    + by rewrite mainQueue_requested, mainQueue_tell.
  - cbn [exec skip]. eexists. split; [reflexivity|].
    split_and!; [|done|congruence|..].
    + rewrite log_requested, log_tell. unfold told. rewrite Hchecker.
      by rewrite <- !(assoc_L (++)).
    + by rewrite teams_requested, teams_tell.
    + by rewrite mainQueue_requested, mainQueue_tell.
  - cbn [exec skip]. eexists. split; [reflexivity|].
    split_and!; [|done|congruence|..].
    + rewrite log_requested, log_tell. unfold told. rewrite Hchecker.
      by rewrite <- !(assoc_L (++)).
    + by rewrite teams_requested, teams_tell.
    + by rewrite mainQueue_requested, mainQueue_tell.
Qed.

(** ** [popJob], [completeJob], the counts, [healthCheck] *)

(** [popJob] run on its own: one [POST /queue/pop/{teamId}] with the
    client's worker id and no blocked crawls. It returns the parsed body of
    a 2xx answer and [null] for every other outcome, and the checker is told
    of a claim exactly when what is returned is a claim that carries a job;
    the tenants are not touched. *)
Theorem popJob_claims (teamId : string) (r : Resumption) (rest : list Resumption)
    (w : World) :
  ∃ rec w',
    exec (FDBQueueClient.popJob teamId) (r :: rest) w
    = (w', Finished (default JNull (answer (settled r))), rest)
    ∧ log w' =
        log w
        ++ [EFetch (mkRequest POST
                      (serviceUrl (config w) +:+ "/queue/pop/" +:+ encodeURIComponent teamId)
                      (Some (PopJobRequest (workerId w) [])) None);
            EMetrics rec]
        ++ match answer (settled r) with
           | Some (JClaimed c) =>
               match ClaimedJob.job c with
               | Some _ => told w (recordClaim c teamId)
               | None => []
               end
           | _ => []
           end
    ∧ operationType rec = pop
    ∧ teams w' = teams w.
Proof.
  destruct (exec_client_popJob teamId r rest w) as (rec & Hrun & Hop).
  exists rec. eexists. split; [exact Hrun|].
  destruct (answer (settled r)) as [data|]; cbn [default from_option id FDBQueueClient.claimWithJob];
    [|split_and!; [by rewrite log_requested, <- (assoc_L (++))|done|done]].
  destruct data as [|claimed|b|n|ids|]; cbn [FDBQueueClient.claimWithJob];
    try (split_and!; [by rewrite log_requested, <- (assoc_L (++))|done|done]).
  destruct (ClaimedJob.job claimed).
  - split_and!; [|done|by rewrite teams_tell].
    rewrite log_tell, log_requested. unfold told. rewrite config_requested.
    by rewrite <- !(assoc_L (++)).
  - split_and!; [by rewrite log_requested, <- (assoc_L (++))|done|done].
Qed.

(** [client.completeJob] is [true] only for a 2xx answer whose JSON says
    [success: true]: a 2xx answer with [success: false], with no [success]
    field or with a body that does not parse gives [false], like every
    failed request. *)
Theorem client_completeJob_acknowledged (queueKey : string) (r : Resumption)
    (rest : list Resumption) (w : World) :
  ∃ rec w',
    exec (FDBQueueClient.completeJob queueKey) (r :: rest) w
    = (w', Finished match answer (settled r) with Some (JSuccess b) => b | _ => false end,
       rest)
    ∧ log w' =
        log w
        ++ [EFetch (mkRequest POST (serviceUrl (config w) +:+ "/queue/complete")
                      (Some (CompleteJobRequest queueKey)) None);
            EMetrics rec]
    ∧ operationType rec = complete
    ∧ teams w' = teams w.
Proof.
  destruct (exec_client_completeJob queueKey r rest w) as (rec & Hrun & Hop).
  exists rec. eexists. split.
  - rewrite Hrun. do 3 f_equal.
    by destruct (answer (settled r)) as [[|c|[]| | |]|].
  - split_and!; [by rewrite log_requested, <- (assoc_L (++))|done|done].
Qed.

(** [getActiveCount] and [getTeamQueueCount]: one [GET] each, on the path
    of the tenant, with no body; the count of a 2xx answer that has one, and
    [null] for every other outcome (failure, or a body without [count]). *)
Theorem counts_or_null (teamId : string) (r : Resumption) (rest : list Resumption)
    (w : World) :
  (∃ rec w',
     exec (FDBQueueClient.getActiveCount teamId) (r :: rest) w
     = (w', Finished match answer (settled r) with Some (JCount n) => Some n | _ => None end,
        rest)
     ∧ log w' =
         log w
         ++ [EFetch (mkRequest GET
                       (serviceUrl (config w) +:+ "/active/count/"
                          +:+ encodeURIComponent teamId) None None);
             EMetrics rec]
     ∧ operationType rec = activeCount)
  ∧ (∃ rec w',
       exec (FDBQueueClient.getTeamQueueCount teamId) (r :: rest) w
       = (w', Finished match answer (settled r) with Some (JCount n) => Some n | _ => None end,
          rest)
       ∧ log w' =
           log w
           ++ [EFetch (mkRequest GET
                         (serviceUrl (config w) +:+ "/queue/count/team/"
                            +:+ encodeURIComponent teamId) None None);
               EMetrics rec]
       ∧ operationType rec = teamQueueCount).
Proof.
  split.
  - unfold FDBQueueClient.getActiveCount. rewrite exec_bind.
    destruct (exec_request GET ("/active/count/" +:+ encodeURIComponent teamId) activeCount
                None r rest w) as (rec & err & -> & Hop & _).
    exists rec. eexists. split.
    + cbn [exec FDBQueueClient.data]. do 3 f_equal.
      by destruct (answer (settled r)) as [[]|].
    + split; [by rewrite log_requested, <- (assoc_L (++))|done].
  - unfold FDBQueueClient.getTeamQueueCount. rewrite exec_bind.
    destruct (exec_request GET ("/queue/count/team/" +:+ encodeURIComponent teamId)
                teamQueueCount None r rest w) as (rec & err & -> & Hop & _).
    exists rec. eexists. split.
    + cbn [exec FDBQueueClient.data]. do 3 f_equal.
      by destruct (answer (settled r)) as [[]|].
    + split; [by rewrite log_requested, <- (assoc_L (++))|done].
Qed.

(** [healthCheck] sends one [GET {baseUrl}/health] and nothing else: no
    metrics record, no checker call. It is [true] exactly when the answer has
    a 2xx status, whatever its body; a rejected [fetch] gives [false]. *)
Theorem healthCheck_spec (r : Resumption) (rest : list Resumption) (w : World) :
  ∃ w',
    exec FDBQueueClient.healthCheck (r :: rest) w
    = (w', Finished match settled r with
                    | FetchResponse status _ _ => ok status
                    | FetchRejected _ => false
                    end, rest)
    ∧ log w' = log w ++ [EFetch (mkRequest GET (serviceUrl (config w) +:+ "/health") None None)]
    ∧ teams w' = teams w
    ∧ mainQueue w' = mainQueue w.
Proof.
  unfold FDBQueueClient.healthCheck. cbn.
  destruct (settled r) as [err|status statusText body]; cbn; eexists; by split_and!.
Qed.


(** ** [encodeURIComponent] *)

Lemma unreserved_percent (c : Ascii.ascii) :
  unreserved c = true → c ≠ Ascii.ascii_of_nat 37.
Proof. intros H ->. vm_compute in H. discriminate. Qed.

Lemma N_of_ascii_hexDigit (n : N) :
  (n < 16)%N →
  Ascii.N_of_ascii (hexDigit n) = (if (n <? 10)%N then 48 + n else 55 + n)%N.
Proof.
  intros Hn. unfold hexDigit. apply Ascii.N_ascii_embedding.
  destruct (n <? 10)%N eqn:H; [apply N.ltb_lt in H|]; lia.
Qed.

Lemma hexDigit_inj (n m : N) :
  (n < 16)%N → (m < 16)%N → hexDigit n = hexDigit m → n = m.
Proof.
  intros Hn Hm Heq. apply (f_equal Ascii.N_of_ascii) in Heq.
  rewrite !N_of_ascii_hexDigit in Heq by done.
  destruct (n <? 10)%N eqn:H1; destruct (m <? 10)%N eqn:H2;
    rewrite ?N.ltb_lt, ?N.ltb_ge in *; lia.
Qed.

Lemma unreserved_hexDigit (n : N) : (n < 16)%N → unreserved (hexDigit n) = true.
Proof.
  intros Hn.
  assert (n ∈ [0; 1; 2; 3; 4; 5; 6; 7; 8; 9; 10; 11; 12; 13; 14; 15]%N) as Hcases.
  { rewrite !elem_of_cons. lia. }
  repeat (apply elem_of_cons in Hcases as [->|Hcases]; [by vm_compute|]).
  by apply elem_of_nil in Hcases.
Qed.

Lemma N_of_ascii_lt (c : Ascii.ascii) : (Ascii.N_of_ascii c < 256)%N.
Proof. apply Ascii.N_ascii_bounded. Qed.

Lemma encodeURIComponent_unreserved (s : string) :
  Forall (λ c, unreserved c = true) (list_ascii_of_string s) →
  encodeURIComponent s = s.
Proof.
  induction s as [|c s IH]; cbn [encodeURIComponent list_ascii_of_string];
    [done|].
  intros [Hc Hs]%Forall_cons. rewrite Hc. f_equal. by apply IH.
Qed.

(** Different strings have different encodings: the paths made for two
    tenants are equal only when the tenants' ids are. *)
Theorem encodeURIComponent_inj (s1 s2 : string) :
  encodeURIComponent s1 = encodeURIComponent s2 → s1 = s2.
Proof.
  revert s2. induction s1 as [|c1 s1 IH]; intros [|c2 s2]; cbn [encodeURIComponent].
  - done.
  - by destruct (unreserved c2).
  - by destruct (unreserved c1).
  - destruct (unreserved c1) eqn:H1; destruct (unreserved c2) eqn:H2.
    + intros [= -> Hs]. f_equal. by apply IH.
    + intros [= -> _]. by destruct (unreserved_percent _ H1).
    + intros [= <- _]. by destruct (unreserved_percent _ H2).
    + intros [= Hhi Hlo Hs]. f_equal; [|by apply IH].
      pose proof (N_of_ascii_lt c1). pose proof (N_of_ascii_lt c2).
      apply hexDigit_inj in Hhi;
        [|apply N.Div0.div_lt_upper_bound; lia|apply N.Div0.div_lt_upper_bound; lia].
      apply hexDigit_inj in Hlo; [|by apply N.mod_lt|by apply N.mod_lt].
      rewrite <- (Ascii.ascii_N_embedding c1), <- (Ascii.ascii_N_embedding c2).
      f_equal.
      rewrite (N.div_mod (Ascii.N_of_ascii c1) 16), (N.div_mod (Ascii.N_of_ascii c2) 16) by done.
      by rewrite Hhi, Hlo.
Qed.

Lemma encodeURIComponent_inj_witness :
  encodeURIComponent (ProductionSimulator.teamIdOf 7) = encodeURIComponent "stress-team-000007"
  ∧ ProductionSimulator.teamIdOf 7 = "stress-team-000007".
Proof.
  assert (H : encodeURIComponent (ProductionSimulator.teamIdOf 7)
              = encodeURIComponent "stress-team-000007") by (vm_compute; reflexivity).
  split; [exact H|].
  exact (encodeURIComponent_inj (ProductionSimulator.teamIdOf 7) "stress-team-000007" H).
Defined.

(** The encoding consists of letters, digits, the marks [- _ . ! ~ * ' ( )]
    and [%] only (so it has no [/], [?], [#] or [&] that would change the
    path it is put in). Strings are the UTF-8 bytes of the id: every byte
    that is not an unreserved character becomes the three characters [%XX],
    so a character outside ASCII becomes three characters for each byte of
    its UTF-8 encoding. A string is left as it is exactly when all its
    bytes are unreserved characters. *)
Theorem encodeURIComponent_alphabet (s : string) :
  Forall (λ c, unreserved c = true ∨ c = Ascii.ascii_of_nat 37)
    (list_ascii_of_string (encodeURIComponent s))
  ∧ String.length (encodeURIComponent s)
    = (String.length s
       + 2 * length (filter (λ c, unreserved c = false)
                       (list_ascii_of_string s)))%nat
  ∧ (encodeURIComponent s = s ↔
     Forall (λ c, unreserved c = true) (list_ascii_of_string s)).
Proof.
  assert (Hlen : String.length (encodeURIComponent s)
                 = (String.length s
                    + 2 * length (filter (λ c, unreserved c = false)
                                    (list_ascii_of_string s)))%nat).
  { induction s as [|c s IH]; cbn [encodeURIComponent list_ascii_of_string];
      [done|].
    rewrite filter_cons. destruct (unreserved c) eqn:Hc; cbn [String.length].
    - rewrite decide_False by done. rewrite IH. lia.
    - rewrite decide_True by done. rewrite IH. cbn [length]. lia. }
  split_and!; [|exact Hlen|].
  - clear Hlen. induction s as [|c s IH]; cbn [encodeURIComponent]; [by apply Forall_nil|].
    destruct (unreserved c) eqn:Hc; cbn [list_ascii_of_string].
    + apply Forall_cons. by split; [left|].
    + pose proof (N_of_ascii_lt c).
      repeat apply Forall_cons_2; [by right|left..|exact IH].
      * apply unreserved_hexDigit, N.Div0.div_lt_upper_bound. lia.
      * by apply unreserved_hexDigit, N.mod_lt.
  - split.
    + intros Heq. rewrite Heq in Hlen.
      assert (filter (λ c, unreserved c = false)
                (list_ascii_of_string s) = []) as Hnone.
      { apply length_zero_iff_nil. lia. }
      apply Forall_forall. intros c Hc.
      destruct (unreserved c) eqn:Hu; [done|].
      assert (c ∈ filter (λ c, unreserved c = false)
                    (list_ascii_of_string s)) as Hin.
      { by apply list_elem_of_filter. }
      rewrite Hnone in Hin. by apply elem_of_nil in Hin.
    + apply encodeURIComponent_unreserved.
Qed.

(** ** [initializeTeams] *)

Lemma pretty_N_go_head (x : N) (s : string) :
  (0 < x)%N →
  ∃ c rest, pretty_N_go x s = String c rest ∧ c ≠ Ascii.ascii_of_nat 48.
Proof.
  revert s. induction (N.lt_wf_0 x) as [x _ IH]; intros s Hpos.
  rewrite pretty_N_go_step by done.
  destruct (N.eq_0_gt_0_cases (x `div` 10)) as [Hzero|Hmore].
  - rewrite Hzero, pretty_N_go_0. eexists _, _. split; [reflexivity|].
    assert (x < 10)%N by (by apply N.div_small_iff).
    assert (x `mod` 10 = x)%N as -> by (by apply N.mod_small).
    assert (x ∈ [1; 2; 3; 4; 5; 6; 7; 8; 9]%N) as Hcases.
    { rewrite !elem_of_cons. lia. }
    repeat (apply elem_of_cons in Hcases as [->|Hcases]; [by vm_compute|]).
    by apply elem_of_nil in Hcases.
  - apply IH; [|done]. by apply N.div_lt.
Qed.

Lemma pretty_N_go_chars (P : Ascii.ascii → Prop) (x : N) (s : string) :
  (∀ d, P (pretty_N_char d)) →
  Forall P (list_ascii_of_string s) →
  Forall P (list_ascii_of_string (pretty_N_go x s)).
Proof.
  intros Hdigits. revert s. induction (N.lt_wf_0 x) as [x _ IH]; intros s Hs.
  assert (x = 0 ∨ 0 < x)%N as [->|Hpos] by lia.
  - by rewrite pretty_N_go_0.
  - rewrite pretty_N_go_step by done. apply IH; [by apply N.div_lt|].
    cbn. by apply Forall_cons.
Qed.

Lemma pretty_nat_chars (P : Ascii.ascii → Prop) (n : nat) :
  (∀ d, P (pretty_N_char d)) → Forall P (list_ascii_of_string (pretty n)).
Proof.
  intros Hdigits. unfold pretty, pretty_nat, pretty, pretty_N. case_decide.
  - cbn. apply Forall_cons_2; [apply (Hdigits 0%N)|apply Forall_nil_2].
  - apply pretty_N_go_chars; [done|apply Forall_nil_2].
Qed.

Lemma pretty_nat_head (n : nat) :
  pretty n = String (Ascii.ascii_of_nat 48) EmptyString
  ∨ ∃ c rest, pretty n = String c rest ∧ c ≠ Ascii.ascii_of_nat 48.
Proof.
  unfold pretty, pretty_nat, pretty, pretty_N. case_decide; [by left|].
  right. apply pretty_N_go_head. lia.
Qed.

Lemma list_ascii_of_string_of_list (l : list Ascii.ascii) :
  list_ascii_of_string (Stdlib.Strings.String.string_of_list_ascii l) = l.
Proof. apply Stdlib.Strings.String.list_ascii_of_string_of_list_ascii. Qed.

Lemma list_ascii_of_string_length (s : string) :
  length (list_ascii_of_string s) = String.length s.
Proof. induction s as [|c s IH]; cbn; [done|]. by rewrite IH. Qed.

Lemma replicate_app_inv {A} (x : A) (a b : nat) (p q : list A) :
  (b ≤ a)%nat → replicate a x ++ p = replicate b x ++ q → q = replicate (a - b) x ++ p.
Proof.
  intros Hle Heq. replace a with (b + (a - b))%nat in Heq at 1 by lia.
  rewrite replicate_add, <- (assoc_L (++)) in Heq. by apply app_inv_head in Heq.
Qed.

Lemma padded_pretty_inj (a b : nat) :
  (length (list_ascii_of_string (pretty b)) ≤ length (list_ascii_of_string (pretty a)))%nat →
  padStart 6 (Ascii.ascii_of_nat 48) (pretty a) = padStart 6 (Ascii.ascii_of_nat 48) (pretty b) →
  a = b.
Proof.
  intros Hle Heq. unfold padStart in Heq.
  apply (f_equal list_ascii_of_string) in Heq.
  rewrite !list_ascii_of_string_app, !list_ascii_of_string_of_list in Heq.
  rewrite <- !list_ascii_of_string_length in Heq.
  symmetry in Heq. apply replicate_app_inv in Heq; [|by apply Nat.sub_le_mono_l].
  destruct (6 - length (list_ascii_of_string (pretty b))
            - (6 - length (list_ascii_of_string (pretty a))))%nat as [|k] eqn:Hk.
  - cbn in Heq. apply list_ascii_of_string_inj in Heq. by apply (inj pretty) in Heq.
  - exfalso. cbn [replicate app] in Heq.
    destruct (pretty_nat_head a) as [Ha|(c & rest & Ha & Hc)].
    + rewrite Ha in Heq.
      destruct (pretty_nat_head b) as [Hb|(c & rest & Hb & Hc)];
        rewrite Hb in Heq; cbn in Heq; injection Heq as Heq; by destruct k.
    + rewrite Ha in Heq. cbn in Heq. injection Heq as Hhead _. exact (Hc Hhead).
Qed.

Lemma teamIdOf_inj (a b : nat) :
  ProductionSimulator.teamIdOf a = ProductionSimulator.teamIdOf b → a = b.
Proof.
  unfold ProductionSimulator.teamIdOf. intros Heq%(inj _).
  destruct (decide (length (list_ascii_of_string (pretty b))
                    ≤ length (list_ascii_of_string (pretty a)))%nat).
  - by apply padded_pretty_inj.
  - symmetry. apply padded_pretty_inj; [lia|done].
Qed.

Lemma JsMap_set_fresh {V} (k : string) (v : V) (m : JsMap.t V) :
  k ∉ m.*1 → JsMap.set k v m = m ++ [(k, v)].
Proof.
  induction m as [|[k' v'] m IH]; csimpl; [done|].
  intros [Hne Hk]%not_elem_of_cons. rewrite decide_False by done. by rewrite IH.
Qed.

(** The inner loop of [initializeTeams], for the tier [tier] and the tenants
    [teamIndex + from .. teamIndex + from + count - 1]. *)
Lemma initializeTeams_tier (tier : Tier.t) (teamIndex count : nat) :
  ∀ (from : nat) (teams : JsMap.t TeamState.t),
    teams.*1 = ProductionSimulator.teamIdOf <$> seq 0 (teamIndex + from) →
    foldl (λ m i, JsMap.set (ProductionSimulator.teamIdOf (teamIndex + i))
                    (ProductionSimulator.newTeam
                       (ProductionSimulator.teamIdOf (teamIndex + i)) tier) m)
      teams (seq from count)
    = teams ++ ((λ i, (ProductionSimulator.teamIdOf (teamIndex + i),
                       ProductionSimulator.newTeam
                         (ProductionSimulator.teamIdOf (teamIndex + i)) tier))
                <$> seq from count).
Proof.
  induction count as [|count IH]; intros from teams Hkeys; cbn [seq foldl fmap list_fmap].
  - by rewrite (right_id_L [] (++)).
  - rewrite JsMap_set_fresh.
    + rewrite IH; [by rewrite <- (assoc_L (++))|].
      rewrite fmap_app, Hkeys. cbn.
      replace (teamIndex + S from)%nat with (S (teamIndex + from)) by lia.
      by rewrite seq_S, fmap_app.
    + rewrite Hkeys. intros (j & Heq & Hj)%list_elem_of_fmap.
      apply teamIdOf_inj in Heq as <-. apply elem_of_seq in Hj. lia.
Qed.

Lemma initializeTeams_from (tiers : list Tier.t) :
  ∀ (teamIndex : nat) (teams : JsMap.t TeamState.t),
    teams.*1 = ProductionSimulator.teamIdOf <$> seq 0 teamIndex →
    ProductionSimulator.initializeTeams tiers teamIndex teams
    = teams ++ imap (λ i tier, (ProductionSimulator.teamIdOf (teamIndex + i),
                                ProductionSimulator.newTeam
                                  (ProductionSimulator.teamIdOf (teamIndex + i)) tier))
                 (tiers ≫= λ tier, replicate (Tier.teamCount tier) tier).
Proof.
  induction tiers as [|tier tiers IH]; intros teamIndex teams Hkeys;
    cbn [ProductionSimulator.initializeTeams].
  - cbn. by rewrite (right_id_L [] (++)).
  - assert (Hinner :
      imap (λ i tier', (ProductionSimulator.teamIdOf (teamIndex + i),
                        ProductionSimulator.newTeam
                          (ProductionSimulator.teamIdOf (teamIndex + i)) tier'))
        (replicate (Tier.teamCount tier) tier)
      = (λ i, (ProductionSimulator.teamIdOf (teamIndex + i),
               ProductionSimulator.newTeam
                 (ProductionSimulator.teamIdOf (teamIndex + i)) tier))
        <$> seq 0 (Tier.teamCount tier)).
    { rewrite <- (length_replicate (Tier.teamCount tier) tier) at 2.
      rewrite <- imap_seq_0. apply imap_ext.
      by intros i x [-> _]%lookup_replicate. }
    rewrite (initializeTeams_tier tier teamIndex (Tier.teamCount tier) 0 teams)
      by (by rewrite Nat.add_0_r).
    rewrite IH.
    + rewrite bind_cons, imap_app, <- (assoc_L (++)), Hinner, length_replicate.
      do 2 f_equal. apply imap_ext. intros i x _. by rewrite (assoc_L Nat.add).
    + rewrite fmap_app, Hkeys, seq_app, fmap_app. f_equal. cbn [Nat.add].
      replace (seq teamIndex (Tier.teamCount tier))
        with (Nat.add teamIndex <$> seq 0 (Tier.teamCount tier))
        by (by rewrite fmap_add_seq, Nat.add_0_r).
      by rewrite <- !list_fmap_compose.
Qed.

Lemma JsMap_get_NoDup {V} (k : string) (v : V) (m : JsMap.t V) :
  NoDup m.*1 → (k, v) ∈ m → JsMap.get k m = Some v.
Proof.
  induction m as [|[k' v'] m IH]; csimpl.
  - by intros _ ?%elem_of_nil.
  - intros [Hk' Hm]%NoDup_cons [[= -> ->]|Hin]%elem_of_cons.
    + by rewrite decide_True.
    + rewrite decide_False; [by apply IH|].
      intros ->. apply Hk'. apply list_elem_of_fmap. by exists (k', v).
Qed.

Lemma teamIdOf_unreserved (i : nat) :
  Forall (λ c, unreserved c = true) (list_ascii_of_string (ProductionSimulator.teamIdOf i)).
Proof.
  unfold ProductionSimulator.teamIdOf, padStart.
  rewrite !list_ascii_of_string_app, list_ascii_of_string_of_list.
  apply Forall_app. split; [by repeat constructor|].
  apply Forall_app. split.
  - apply Forall_replicate. by vm_compute.
  - apply pretty_nat_chars. intros d. unfold pretty_N_char.
    by repeat case_match.
Qed.

(** [initializeTeams] makes one tenant for every unit of every tier's
    [teamCount], in the order of the tiers: tenant [i] has the id
    [stress-team-] followed by [i] padded with zeros to six digits, the tier
    it was counted in, no active job and all counters 0. The ids are
    pairwise different (also beyond six digits), so no tenant replaces
    another, the number of tenants is the sum of the counts, and every
    tenant is found under its id. An id is its own URI encoding. *)
Theorem initializeTeams_spec (tiers : list Tier.t) :
  ProductionSimulator.initializeTeams tiers 0 []
  = imap (λ i tier, (ProductionSimulator.teamIdOf i,
                     TeamState.mk (ProductionSimulator.teamIdOf i) tier [] 0 0 0 0))
      (tiers ≫= λ tier, replicate (Tier.teamCount tier) tier)
  ∧ NoDup (ProductionSimulator.initializeTeams tiers 0 []).*1
  ∧ JsMap.size (ProductionSimulator.initializeTeams tiers 0 [])
    = Z.of_nat (sum_list (Tier.teamCount <$> tiers))
  ∧ (∀ i tier,
       (tiers ≫= λ tier, replicate (Tier.teamCount tier) tier) !! i = Some tier →
       JsMap.get (ProductionSimulator.teamIdOf i)
         (ProductionSimulator.initializeTeams tiers 0 [])
       = Some (TeamState.mk (ProductionSimulator.teamIdOf i) tier [] 0 0 0 0))
  ∧ (∀ i j, ProductionSimulator.teamIdOf i = ProductionSimulator.teamIdOf j → i = j)
  ∧ (∀ i, encodeURIComponent (ProductionSimulator.teamIdOf i)
          = ProductionSimulator.teamIdOf i).
Proof.
  assert (Hshape := initializeTeams_from tiers 0 [] eq_refl).
  cbn [app Nat.add] in Hshape. unfold ProductionSimulator.newTeam in Hshape.
  assert (Hkeys : (ProductionSimulator.initializeTeams tiers 0 []).*1
                  = ProductionSimulator.teamIdOf
                    <$> seq 0 (length (tiers ≫= λ tier, replicate (Tier.teamCount tier) tier))).
  { rewrite Hshape, fmap_imap, <- imap_seq_0. by apply imap_ext. }
  assert (Hnodup : NoDup (ProductionSimulator.initializeTeams tiers 0 []).*1).
  { rewrite Hkeys. apply NoDup_fmap_2_strong; [|apply NoDup_seq].
    intros i j _ _. apply teamIdOf_inj. }
  split_and!; [exact Hshape|exact Hnodup| | |exact teamIdOf_inj|].
  - unfold JsMap.size. rewrite Hshape, length_imap. f_equal.
    clear. induction tiers as [|tier tiers IH]; [done|].
    by rewrite bind_cons, length_app, length_replicate, IH.
  - intros i tier Hi. apply JsMap_get_NoDup; [exact Hnodup|].
    rewrite Hshape. apply (list_elem_of_lookup_2 _ i).
    by rewrite list_lookup_imap, Hi.
  - intros i. apply encodeURIComponent_unreserved, teamIdOf_unreserved.
Qed.

(** * Invariants of a run *)

(** ** Programs that keep an invariant and do not throw *)

Lemma safely_mono {A} (I : World → Prop) (Q R : A → Prop) (p : Prog A) :
  (∀ a, Q a → R a) → safely I Q p → safely I R p.
Proof.
  intros HQR. induction p as [a|e|k IH|g p IH|req k IH]; cbn.
  - apply HQR.
  - done.
  - intros Hp w Hw. by apply IH, Hp.
  - intros [Hg Hp]. split; [done|]. by apply IH.
  - intros Hp o. by apply IH.
Qed.

Lemma safely_bind {A B} (I : World → Prop) (Q : A → Prop) (R : B → Prop)
    (p : Prog A) (f : A → Prog B) :
  safely I Q p → (∀ a, Q a → safely I R (f a)) → safely I R (p ≫= f).
Proof.
  intros Hp Hf. induction p as [a|e|k IH|g p IH|req k IH]; cbn in *.
  - by apply Hf.
  - done.
  - intros w Hw. by apply IH, Hp.
  - destruct Hp as [Hg Hp]. split; [done|]. by apply IH.
  - intros o. by apply IH.
Qed.

Lemma safely_forEach {A} (I : World → Prop) (l : list A) (body : A → Prog unit) :
  (∀ x, safely I (λ _, True) (body x)) → safely I (λ _, True) (forEach l body).
Proof.
  intros Hbody. induction l as [|x l IH]; cbn [forEach]; [done|].
  eapply safely_bind; [apply Hbody|]. intros _ _. exact IH.
Qed.

Lemma safely_gets {A} (I : World → Prop) (Q : A → Prop) (f : World → A) :
  (∀ w, I w → Q (f w)) → safely I Q (gets f).
Proof. intros H w Hw. by apply H. Qed.

Lemma safely_modify (I : World → Prop) (f : World → World) :
  (∀ w, I w → I (f w)) → safely I (λ _, True) (modify f).
Proof. by intros H; split. Qed.

Lemma safely_runSegment {A} (I : World → Prop) (Q : A → Prop) (p : Prog A) w :
  safely I Q p → I w →
  I (runSegment p w).1
  ∧ match (runSegment p w).2 with
    | Finished a => Q a
    | Threw _ => False
    | Awaiting _ k => ∀ o, safely I Q (k o)
    end.
Proof.
  revert w. induction p as [a|e|k IH|g p IH|req k IH]; intros w Hp Hw; cbn in *.
  - done.
  - done.
  - apply IH; [|done]. by apply Hp.
  - destruct Hp as [Hg Hp]. apply IH; [done|]. by apply Hg.
  - done.
Qed.

Lemma safely_exec {A} (I : World → Prop) (Q : A → Prop) (p : Prog A) rs w :
  (∀ now perf w, I w → I (with_clock now perf w)) →
  safely I Q p → I w →
  I (exec p rs w).1.1
  ∧ match (exec p rs w).1.2 with
    | Finished a => Q a
    | Threw _ => False
    | Awaiting _ _ => True
    end.
Proof.
  intros Hclock. revert rs w.
  induction p as [a|e|k IH|g p IH|req k IH]; intros rs w Hp Hw; cbn in *.
  - done.
  - done.
  - apply IH; [|done]. by apply Hp.
  - destruct Hp as [Hg Hp]. apply IH; [done|]. by apply Hg.
  - destruct rs as [|r rs]; [done|]. apply IH; [done|]. by apply Hclock.
Qed.

Lemma immediate_bind {A B} (p : Prog A) (f : A → Prog B) :
  immediate p → (∀ a, immediate (f a)) → immediate (p ≫= f).
Proof.
  intros Hp Hf. induction p as [a|e|k IH|g p IH|req k IH]; cbn in *.
  - apply Hf.
  - done.
  - intros w. by apply IH.
  - by apply IH.
  - done.
Qed.

Lemma immediate_forEach {A} (l : list A) (body : A → Prog unit) :
  (∀ x, immediate (body x)) → immediate (forEach l body).
Proof.
  intros Hbody. induction l as [|x l IH]; cbn [forEach]; [done|].
  apply immediate_bind; [apply Hbody|]. intros _. exact IH.
Qed.

Lemma immediate_sync {A} (p : Prog A) w :
  immediate p → ∃ a, Simulation.sync p w = ((runSegment p w).1, inl a).
Proof.
  unfold Simulation.sync. revert w.
  induction p as [a|e|k IH|g p IH|req k IH]; intros w Hp; cbn in *.
  - by exists a.
  - done.
  - by apply IH.
  - by apply IH.
  - done.
Qed.

Lemma immediate_generateJobs now : immediate (ProductionSimulator.generateJobs now).
Proof.
  unfold ProductionSimulator.generateJobs. cbn. intros w.
  apply immediate_forEach. intros key.
  unfold ProductionSimulator.generateFor, ProductionSimulator.getTeam. cbn. intros w1.
  destruct (JsMap.get key (teams w1)) as [team|]; cbn; [|done].
  intros w2. by destruct (ProductionSimulator.due _ _ _ _).
Qed.

Lemma immediate_pickJobFromMainQueue : immediate ProductionSimulator.pickJobFromMainQueue.
Proof.
  unfold ProductionSimulator.pickJobFromMainQueue. cbn. intros w.
  by destruct (ProductionSimulator.pickBest (mainQueue w)) as [[job queue]|].
Qed.

Lemma sync_startJob job now fromFDB w team :
  JsMap.get (MainQueueJob.teamId job) (teams w) = Some team →
  Simulation.sync (ProductionSimulator.startJob job now fromFDB) w
  = ((runSegment (ProductionSimulator.startJob job now fromFDB) w).1,
     inl (ActiveJob.mk (MainQueueJob.jobId job) EmptyString now fromFDB)).
Proof.
  intros Hteam. unfold Simulation.sync, ProductionSimulator.startJob,
    ProductionSimulator.getTeam. cbn. by rewrite Hteam.
Qed.

(** ** The steps of the process keep what its programs keep *)

Lemma phase_runTask task s : Simulation.phase (Simulation.runTask task s) = Simulation.phase s.
Proof.
  unfold Simulation.runTask.
  by destruct (Semaphore.acquire task (Simulation.semaphore s)) as [sem []].
Qed.

Lemma world_runTask task s : Simulation.world (Simulation.runTask task s) = Simulation.world s.
Proof.
  unfold Simulation.runTask.
  by destruct (Semaphore.acquire task (Simulation.semaphore s)) as [sem []].
Qed.

Lemma phase_finally s : Simulation.phase (Simulation.finally s) = Simulation.phase s.
Proof.
  unfold Simulation.finally.
  by destruct (Semaphore.release (Simulation.semaphore s)) as [sem []].
Qed.

Lemma phase_drainOverflow s :
  Simulation.phase (Simulation.drainOverflow s) = Simulation.phase s.
Proof.
  unfold Simulation.drainOverflow.
  change (Simulation.phase s) with (Simulation.phase (Simulation.set_overflowQueue [] s)).
  generalize (Simulation.set_overflowQueue [] s).
  induction (Simulation.overflowQueue s) as [|job q IH]; intros s0; cbn [foldl]; [done|].
  by rewrite IH, phase_runTask.
Qed.

Lemma phase_spawnCompletions task now s :
  Simulation.phase (Simulation.spawnCompletions task now s) = Simulation.phase s.
Proof.
  unfold Simulation.spawnCompletions.
  assert (Hinner : ∀ id l s0,
            Simulation.phase (foldl (λ s1 a, Simulation.runTask (task id a) s1) s0 l)
            = Simulation.phase s0).
  { intros id l. induction l as [|a l IHl]; intros s0; cbn [foldl]; [done|].
    by rewrite IHl, phase_runTask. }
  generalize (JsMap.values (teams (Simulation.world s))). intros ts. revert s.
  induction ts as [|team ts IH]; intros s; cbn [foldl]; [done|].
  by rewrite IH, Hinner.
Qed.

Lemma phase_dispatch rounds now s :
  Simulation.phase (Simulation.dispatch rounds now s) = Simulation.phase s.
Proof.
  revert s. induction rounds as [|rounds IH]; intros s; cbn [Simulation.dispatch]; [done|].
  destruct (0 <? Semaphore.available (Simulation.semaphore s)); [|done].
  destruct (immediate_sync ProductionSimulator.pickJobFromMainQueue (Simulation.world s)
              immediate_pickJobFromMainQueue) as [picked ->].
  destruct picked as [job|]; [|done].
  rewrite sync_isTeamAtCapacity.
  destruct (JsMap.get (MainQueueJob.teamId job) _) as [team|] eqn:Hteam.
  - destruct (ProductionSimulator.atCapacity team); [by rewrite IH|].
    rewrite (sync_startJob job now false _ team Hteam). by rewrite IH, phase_runTask.
  - by rewrite IH.
Qed.

Lemma phase_mainIteration now s :
  Simulation.phase (Simulation.mainIteration now s) = Simulation.phase s.
Proof.
  unfold Simulation.mainIteration.
  destruct (immediate_sync (ProductionSimulator.generateJobs now) (Simulation.world s)
              (immediate_generateJobs now)) as [[] ->].
  assert (Hphase : Simulation.phase
            (Simulation.dispatch 100 now
               (Simulation.drainOverflow
                  (Simulation.set_world
                     (runSegment (ProductionSimulator.generateJobs now) (Simulation.world s)).1
                     s)))
          = Simulation.phase s).
  { by rewrite phase_dispatch, phase_drainOverflow. }
  destruct (Simulation.phase (Simulation.dispatch _ _ _)) eqn:Hd;
    rewrite ?phase_spawnCompletions, ?Hd; done.
Qed.

Section secured_facts.
Context (I : World → Prop).
Context (Hclock : ∀ now perf w, I w → I (with_clock now perf w)).
Context (Hhealth : safely I (λ _, True) FDBQueueClient.healthCheck).
Context (Hgenerate : ∀ now, safely I (λ _, True) (ProductionSimulator.generateJobs now)).
Context (Hpick : safely I (λ _, True) ProductionSimulator.pickJobFromMainQueue).
Context (Hdispatch : ∀ w job now team,
  I w →
  JsMap.get (MainQueueJob.teamId job) (teams w) = Some team →
  ProductionSimulator.atCapacity team = false →
  I (runSegment (ProductionSimulator.startJob job now false) w).1).
Context (Hpush : ∀ job, safely I (λ _, True) (Simulation.pushTask job)).
Context (HactivePush : ∀ job, safely I (λ _, True) (Simulation.activePushTask job)).
Context (Hpromote : ∀ w team activeJob,
  I w → team ∈ JsMap.values (teams w) →
  activeJob ∈ JsMap.values (TeamState.activeJobs team) →
  safely I (λ _, True) (Simulation.promoteTask (TeamState.teamId team) activeJob)).
Context (Hdrain : ∀ w team activeJob,
  I w → team ∈ JsMap.values (teams w) →
  activeJob ∈ JsMap.values (TeamState.activeJobs team) →
  safely I (λ _, True) (Simulation.drainTask (TeamState.teamId team) activeJob)).

Lemma secured_set_phase p s : secured I s → secured I (Simulation.set_phase p s).
Proof. done. Qed.

Lemma secured_set_overflowQueue q s :
  secured I s → secured I (Simulation.set_overflowQueue q s).
Proof. done. Qed.

Lemma secured_set_world w s :
  I w → secured I s → secured I (Simulation.set_world w s).
Proof. intros Hw (_ & ? & ? & ?). done. Qed.

Lemma secured_runTask task s :
  safely I (λ _, True) task → secured I s → secured I (Simulation.runTask task s).
Proof.
  intros Htask (Hw & Hm & Hq & Hp). unfold Simulation.runTask, Semaphore.acquire.
  destruct (0 <? Semaphore.permits (Simulation.semaphore s)); cbn.
  - split_and!; [done| |done|done]. apply Forall_app. split; [done|]. by apply Forall_singleton.
  - split_and!; [done|done| |done]. apply Forall_app. split; [done|]. by apply Forall_singleton.
Qed.

Lemma secured_finally s : secured I s → secured I (Simulation.finally s).
Proof.
  intros (Hw & Hm & Hq & Hp). unfold Simulation.finally, Semaphore.release.
  destruct (Semaphore.waiting (Simulation.semaphore s)) as [|next rest] eqn:Hwait; cbn.
  - split_and!; [done|done|by apply Forall_nil|done].
  - apply Forall_cons in Hq as [Hnext Hrest].
    split_and!; [done| |done|done]. apply Forall_app. split; [done|]. by apply Forall_singleton.
Qed.

Lemma secured_afterSegment s (p : Prog unit) w :
  Forall (safely I (λ _, True)) (Simulation.microtasks s) →
  Forall (safely I (λ _, True)) (Semaphore.waiting (Simulation.semaphore s)) →
  Forall (λ t, ∀ o, safely I (λ _, True) (t.2 o)) (Simulation.pending s) →
  safely I (λ _, True) p → I w →
  secured I (Simulation.afterSegment s (runSegment p w))
  ∧ Simulation.phase (Simulation.afterSegment s (runSegment p w)) = Simulation.phase s.
Proof.
  intros Hm Hq Hp Hsafe Hw.
  destruct (safely_runSegment I _ p w Hsafe Hw) as [Hw' Hk].
  destruct (runSegment p w) as [w' [[]|e|req k]]; cbn in *.
  - split; [|by rewrite phase_finally]. apply secured_finally. by split_and!.
  - done.
  - split; [|done]. split_and!; [done|done|done|]. apply Forall_app. split; [done|].
    by apply Forall_singleton.
Qed.

Lemma secured_drainOverflow s : secured I s → secured I (Simulation.drainOverflow s).
Proof.
  intros Hs. unfold Simulation.drainOverflow.
  assert (Hstart : secured I (Simulation.set_overflowQueue [] s)) by done.
  revert Hstart. generalize (Simulation.set_overflowQueue [] s).
  induction (Simulation.overflowQueue s) as [|job q IH]; intros s0 Hs0; cbn; [done|].
  apply IH. apply secured_runTask; [apply Hpush|done].
Qed.

Lemma secured_dispatch rounds now s :
  secured I s → secured I (Simulation.dispatch rounds now s).
Proof.
  revert s. induction rounds as [|rounds IH]; intros s Hs; cbn [Simulation.dispatch]; [done|].
  destruct (0 <? Semaphore.available (Simulation.semaphore s)); [|done].
  destruct (safely_runSegment I _ ProductionSimulator.pickJobFromMainQueue
              (Simulation.world s) Hpick (proj1 Hs)) as [Hw1 _].
  destruct (immediate_sync ProductionSimulator.pickJobFromMainQueue (Simulation.world s)
              immediate_pickJobFromMainQueue) as [picked ->].
  destruct picked as [job|]; [|by apply secured_set_world].
  rewrite sync_isTeamAtCapacity.
  destruct (JsMap.get (MainQueueJob.teamId job) _) as [team|] eqn:Hteam.
  - destruct (ProductionSimulator.atCapacity team) eqn:Hcap.
    + apply IH. by apply secured_set_overflowQueue, secured_set_world.
    + rewrite (sync_startJob job now false _ team Hteam).
      apply IH. apply secured_runTask; [apply HactivePush|].
      apply secured_set_world; [|done]. by eapply Hdispatch.
  - apply IH. by apply secured_set_overflowQueue, secured_set_world.
Qed.

Lemma secured_spawnCompletions task now s :
  (∀ w team activeJob,
     I w → team ∈ JsMap.values (teams w) →
     activeJob ∈ JsMap.values (TeamState.activeJobs team) →
     safely I (λ _, True) (task (TeamState.teamId team) activeJob)) →
  secured I s → secured I (Simulation.spawnCompletions task now s).
Proof.
  intros Htask Hs. unfold Simulation.spawnCompletions.
  assert (Hinner : ∀ team l s0,
            team ∈ JsMap.values (teams (Simulation.world s)) →
            l ⊆ JsMap.values (TeamState.activeJobs team) →
            secured I s0 →
            secured I (foldl (λ s1 a, Simulation.runTask (task (TeamState.teamId team) a) s1)
                         s0 l)).
  { intros team l. induction l as [|a l IHl]; intros s0 Hteam Hl Hs0; cbn [foldl];
      [exact Hs0|].
    apply IHl; [done|intros x Hx; apply Hl; by right|].
    apply secured_runTask; [|done].
    apply (Htask (Simulation.world s)); [apply Hs|done|apply Hl; by left]. }
  assert (Houter : ∀ ts s0,
            ts ⊆ JsMap.values (teams (Simulation.world s)) →
            secured I s0 →
            secured I
              (foldl (λ s1 team,
                        foldl (λ s2 a, Simulation.runTask (task (TeamState.teamId team) a) s2)
                          s1 (ProductionSimulator.getCompletableJobs
                                (jobProcessingDelayMs (config (Simulation.world s1))) team now))
                 s0 ts)).
  { intros ts. induction ts as [|team ts IH]; intros s0 Hts Hs0; cbn [foldl]; [exact Hs0|].
    apply IH; [intros x Hx; apply Hts; by right|].
    apply Hinner; [apply Hts; by left| |done].
    unfold ProductionSimulator.getCompletableJobs. intros a Ha.
    by apply list_elem_of_filter in Ha as [_ Ha]. }
  by apply Houter.
Qed.

Lemma secured_mainIteration now s :
  secured I s → secured I (Simulation.mainIteration now s).
Proof.
  intros Hs. unfold Simulation.mainIteration.
  destruct (safely_runSegment I _ (ProductionSimulator.generateJobs now)
              (Simulation.world s) (Hgenerate now) (proj1 Hs)) as [Hw1 _].
  destruct (immediate_sync (ProductionSimulator.generateJobs now) (Simulation.world s)
              (immediate_generateJobs now)) as [[] ->].
  assert (Hd : secured I (Simulation.dispatch 100 now
                 (Simulation.drainOverflow
                    (Simulation.set_world
                       (runSegment (ProductionSimulator.generateJobs now)
                          (Simulation.world s)).1 s)))).
  { apply secured_dispatch, secured_drainOverflow. by apply secured_set_world. }
  destruct (Simulation.phase _); try done; by apply secured_spawnCompletions.
Qed.

Lemma secured_step l s s' :
  secured I s → Simulation.step l s = Some s' →
  secured I s'
  ∧ (Simulation.phase s ≠ Simulation.Starting →
     Simulation.alive s' = true ∧ Simulation.phase s' ≠ Simulation.Starting).
Proof.
  intros Hs Hstep. unfold Simulation.step in Hstep.
  destruct (Simulation.alive s) eqn:Halive; [|done]. cbn [negb] in Hstep.
  destruct Hs as (Hw & Hm & Hq & Hp).
  destruct l as [r|now| | |now| |now perf|i r];
    destruct (Simulation.microtasks s) as [|task rest] eqn:Hmicro; try done.
  - destruct (Simulation.phase s); try done.
    destruct (safely_exec I _ FDBQueueClient.healthCheck [r] (Simulation.world s)
                Hclock Hhealth Hw) as [Hw' _].
    destruct (exec FDBQueueClient.healthCheck [r] (Simulation.world s))
      as [[w' [healthy|e|req k]] rs]; try done.
    injection Hstep as <-. split; [|done].
    apply secured_set_phase, secured_set_world; [done|].
    split_and!; try done. by rewrite Hmicro.
  - destruct (Simulation.phase s) eqn:Hphase; try done. injection Hstep as <-.
    split.
    + apply secured_mainIteration. split_and!; try done. by rewrite Hmicro.
    + intros _. unfold Simulation.alive. by rewrite phase_mainIteration, Hphase.
  - destruct (Simulation.phase s); try done. injection Hstep as <-. split; [|done].
    apply secured_set_phase. split_and!; try done. by rewrite Hmicro.
  - destruct (Simulation.phase s); try done.
    destruct (Simulation.inFlight s <=? 0); [|done]. injection Hstep as <-. split; [|done].
    apply secured_set_phase. split_and!; try done. by rewrite Hmicro.
  - destruct (Simulation.phase s) eqn:Hphase; try done. injection Hstep as <-.
    split.
    + apply secured_spawnCompletions; [apply Hdrain|]. split_and!; try done. by rewrite Hmicro.
    + intros _. unfold Simulation.alive, Simulation.drainIteration.
      by rewrite phase_spawnCompletions, Hphase.
  - destruct (Simulation.phase s); try done. injection Hstep as <-. split; [|done].
    apply secured_set_phase. split_and!; try done. by rewrite Hmicro.
  - injection Hstep as <-. apply Forall_cons in Hm as [Htask Hrest].
    match goal with
    | |- secured I (Simulation.afterSegment ?s0 (runSegment ?p ?w0)) ∧ _ =>
        destruct (secured_afterSegment s0 p w0) as [Hsec Hphase]; cbn; try done;
          [by apply Hclock|]
    end.
    split; [exact Hsec|]. unfold Simulation.alive in *. rewrite Hphase. cbn.
    intros Hstart. split; [done|exact Hstart].
  - destruct (Simulation.pending s !! i) as [[req k]|] eqn:Hi; [|done].
    injection Hstep as <-.
    match goal with
    | |- secured I (Simulation.afterSegment ?s0 (runSegment ?p ?w0)) ∧ _ =>
        destruct (secured_afterSegment s0 p w0) as [Hsec Hphase]; cbn; try done;
          [by apply Forall_delete|apply (Forall_lookup_1 _ _ _ _ Hp Hi)|by apply Hclock|]
    end.
    split; [exact Hsec|]. unfold Simulation.alive in *. rewrite Hphase. cbn.
    intros Hstart. split; [done|exact Hstart].
Qed.

Lemma secured_run ls : ∀ s s',
  secured I s → Simulation.run ls s = Some s' →
  secured I s'
  ∧ (Simulation.phase s ≠ Simulation.Starting → Simulation.alive s = true →
     Simulation.alive s' = true ∧ Simulation.phase s' ≠ Simulation.Starting).
Proof.
  induction ls as [|l ls IH]; intros s s' Hs Hrun; cbn in Hrun.
  - injection Hrun as <-. by split.
  - destruct (Simulation.step l s) as [s1|] eqn:Hstep; [|done].
    destruct (secured_step l s s1 Hs Hstep) as [Hs1 Halive1].
    destruct (IH s1 s' Hs1 Hrun) as [Hs' Halive']. split; [done|].
    intros Hphase _. destruct (Halive1 Hphase) as [? ?]. by apply Halive'.
Qed.
End secured_facts.

(** ** The invariant of a run *)

Lemma tenantsOf_update k f (m : JsMap.t TeamState.t) :
  (∀ team, TeamState.teamId (f team) = TeamState.teamId team) →
  (∀ team, TeamState.tier (f team) = TeamState.tier team) →
  tenantsOf (JsMap.update k f m) = tenantsOf m.
Proof.
  intros Hid Htier. unfold tenantsOf.
  induction m as [|[k' team] m IH]; [done|]. cbn [JsMap.update].
  case_decide; csimpl; [by rewrite Hid, Htier|by rewrite IH].
Qed.

Lemma tenantsOf_keys (m : JsMap.t TeamState.t) : m.*1 = (tenantsOf m).*1.*1.
Proof. unfold tenantsOf. by rewrite <- !list_fmap_compose. Qed.

Lemma JsMap_values_update {V} k (f : V → V) (m : JsMap.t V) v :
  v ∈ JsMap.values (JsMap.update k f m) →
  v ∈ JsMap.values m ∨ ∃ v0, v0 ∈ JsMap.values m ∧ v = f v0.
Proof.
  unfold JsMap.values. induction m as [|[k' v'] m IH]; [by intros ?%elem_of_nil|].
  cbn [JsMap.update].
  case_decide; csimpl.
  - intros [->|Hin]%elem_of_cons.
    + right. exists v'. split; [by left|done].
    + left. by right.
  - intros [->|Hin]%elem_of_cons.
    + left. by left.
    + destruct (IH Hin) as [?|(v0 & ? & ?)]; [left; by right|].
      right. exists v0. split; [by right|done].
Qed.

Lemma JsMap_values_set {V} k (v : V) (m : JsMap.t V) x :
  x ∈ JsMap.values (JsMap.set k v m) → x = v ∨ x ∈ JsMap.values m.
Proof.
  unfold JsMap.values. induction m as [|[k' v'] m IH]; cbn [JsMap.set].
  - intros ?%list_elem_of_singleton. by left.
  - case_decide; csimpl.
    + intros [->|Hin]%elem_of_cons; [by left|]. right. by right.
    + intros [->|Hin]%elem_of_cons; [right; by left|].
      destruct (IH Hin) as [?|?]; [by left|]. right. by right.
Qed.

Lemma JsMap_values_delete {V} k (m : JsMap.t V) x :
  x ∈ JsMap.values (JsMap.delete k m) → x ∈ JsMap.values m.
Proof.
  unfold JsMap.values. induction m as [|[k' v'] m IH]; cbn [JsMap.delete];
    [by intros ?%elem_of_nil|].
  case_decide; csimpl.
  - intros Hin. by right.
  - intros [->|Hin]%elem_of_cons; [by left|]. right. by apply IH.
Qed.

Lemma JsMap_get_values {V} k (m : JsMap.t V) v :
  JsMap.get k m = Some v → v ∈ JsMap.values m.
Proof.
  unfold JsMap.values. induction m as [|[k' v'] m IH]; cbn [JsMap.get]; [done|].
  case_decide; csimpl.
  - intros [= ->]. by left.
  - intros Hget. right. by apply IH.
Qed.

Lemma queuedBalance_snoc id history e :
  queuedBalance id (history ++ [e])
  = queuedBalance_step id (queuedBalance id history) e.
Proof. unfold queuedBalance. by rewrite foldl_app. Qed.

Section run_invariant.
Context (config0 : Config) (workerId0 : string) (tenants0 : list (string * string * Tier.t)).
Context (Hkeyed : ∀ key id tier, (key, id, tier) ∈ tenants0 → id = key).

Local Abbreviation Inv := (runInvariant config0 workerId0 tenants0).

Lemma keep_fields (f : World → World) :
  (∀ w, config (f w) = config w) → (∀ w, workerId (f w) = workerId w) →
  (∀ w, teams (f w) = teams w) → (∀ w, log (f w) = log w) →
  ∀ w, Inv w → Inv (f w).
Proof.
  intros Hc Hi Ht Hl w (? & ? & ? & ? & ? & ?).
  unfold runInvariant. by rewrite Hc, Hi, Ht, Hl.
Qed.

Lemma keep_clock now perf w : Inv w → Inv (with_clock now perf w).
Proof. by apply keep_fields. Qed.

Lemma keep_emit e :
  expectedEvent config0 workerId0 e →
  (∀ id n, queuedBalance_step id n e = n) →
  ∀ w, Inv w → Inv (emit e w).
Proof.
  intros He Hq w (? & ? & ? & ? & Hlog & Hbal).
  split_and!; try done.
  - cbn. apply Forall_app. split; [done|]. by apply Forall_singleton.
  - intros id team Hteam. cbn [log emit]. rewrite queuedBalance_snoc, Hq. by apply Hbal.
Qed.

Lemma keep_tell c w : Inv w → Inv (tell c w).
Proof.
  intros Hw. unfold tell. destruct (correctnessChecking (config w)); [|done].
  by apply keep_emit.
Qed.

Lemma keep_team key (f : TeamState.t → TeamState.t) :
  (∀ team, TeamState.teamId (f team) = TeamState.teamId team) →
  (∀ team, TeamState.tier (f team) = TeamState.tier team) →
  (∀ team, TeamState.activeJobs (f team) = TeamState.activeJobs team) →
  (∀ team, TeamState.queuedJobs (f team) = TeamState.queuedJobs team) →
  ∀ w, Inv w → Inv (with_team key f w).
Proof.
  intros Hid Htier Hactive Hqueued w (? & ? & Htenants & Hkeys & ? & Hbal).
  split_and!; try done.
  - cbn. by rewrite tenantsOf_update.
  - intros team a [Hteam|(team0 & Hteam & ->)]%JsMap_values_update.
    + by apply Hkeys.
    + rewrite Hactive. by apply Hkeys.
  - intros id team. cbn [teams with_team with_teams log]. rewrite JsMap_get_update.
    case_decide; [|apply Hbal].
    destruct (JsMap.get id (teams w)) as [team0|] eqn:Hteam0; [|done].
    intros [= <-]. rewrite Hqueued. by apply Hbal.
Qed.

Lemma keep_compose (f g : World → World) :
  (∀ w, Inv w → Inv (g w)) → (∀ w, Inv w → Inv (f w)) → ∀ w, Inv w → Inv (f (g w)).
Proof. auto. Qed.

Lemma keep_activeJobs key (g : JsMap.t ActiveJob.t → JsMap.t ActiveJob.t) :
  (∀ m a, a ∈ JsMap.values (g m) →
     a ∈ JsMap.values m ∨ ActiveJob.queueKey a = EmptyString) →
  ∀ w, Inv w → Inv (with_team key (TeamState.with_activeJobs g) w).
Proof.
  intros Hg w (? & ? & Htenants & Hkeys & ? & Hbal).
  split_and!; try done.
  - cbn. by rewrite tenantsOf_update.
  - intros team a [Hteam|(team0 & Hteam & ->)]%JsMap_values_update.
    + by apply Hkeys.
    + cbn. intros [Ha|Ha]%Hg; [|done]. by eapply Hkeys.
  - intros id team. cbn [teams with_team with_teams log]. rewrite JsMap_get_update.
    case_decide; [|apply Hbal].
    destruct (JsMap.get id (teams w)) as [team0|] eqn:Hteam0; [|done].
    intros [= <-]. cbn. by apply Hbal.
Qed.

Lemma keep_queued key (d : Z) (e : Effect) :
  (∀ id n, queuedBalance_step id n e = if decide (key = id) then n + d else n) →
  expectedEvent config0 workerId0 e →
  ∀ w, Inv w → Inv (emit e (with_team key (TeamState.with_queuedJobs (λ n, n + d)) w)).
Proof.
  intros He Hexp w (? & ? & Htenants & Hkeys & Hlog & Hbal).
  split_and!; try done.
  - cbn. by rewrite tenantsOf_update.
  - intros team a [Hteam|(team0 & Hteam & ->)]%JsMap_values_update.
    + by apply Hkeys.
    + cbn. by apply Hkeys.
  - cbn. apply Forall_app. split; [done|]. by apply Forall_singleton.
  - intros id team. cbn [teams emit with_team with_teams log].
    rewrite queuedBalance_snoc, He, JsMap_get_update.
    case_decide; [|apply Hbal].
    destruct (JsMap.get id (teams w)) as [team0|] eqn:Hteam0; [|done].
    intros [= <-]. cbn. by rewrite (Hbal id team0).
Qed.

(** The programs of the simulation keep the invariant. *)

Ltac safely_step :=
  first
  [ exact Logic.I
  | progress intros
  | match goal with
    | |- _ ∧ _ => split
    | |- safely _ _ (match ?x with _ => _ end) => destruct x
    | |- safely _ _ (if ?b then _ else _) => destruct b
    | |- safely _ _ ((if ?b then _ else _) ≫= _) => destruct b
    | |- safely _ _ ((match ?x with _ => _ end) ≫= _) => destruct x
    | |- runInvariant _ _ _ (emit (EMetrics _) _) =>
        apply keep_emit; [exact Logic.I|reflexivity|assumption]
    | |- runInvariant _ _ _ (tell _ _) => apply keep_tell; assumption
    end
  | progress cbn [safely bind mbind Prog_bind mret Prog_ret gets modify skip Date_now
                  performance_now Math_random fetch metrics_record oracle] ].

Lemma safely_request method path op body :
  simulationRequest config0 workerId0
    (mkRequest method (serviceUrl config0 +:+ path) body None) →
  safely Inv (λ _, True) (FDBQueueClient.request method path op body).
Proof.
  intros Hreq. unfold FDBQueueClient.request, FDBQueueClient.requestFailed.
  cbn [safely bind mbind Prog_bind gets performance_now fetch].
  intros w0 Hw0 w1 Hw1. split.
  { intros w Hw. apply keep_emit; [|done|done]. cbn. by rewrite (proj1 Hw0). }
  intros response. repeat safely_step.
Qed.

Lemma safely_pushJob teamId jobId priority crawlId :
  safely Inv (λ _, True)
    (FDBQueueClient.pushJob teamId jobId priority 600000 crawlId).
Proof.
  unfold FDBQueueClient.pushJob.
  cbn [safely bind mbind Prog_bind gets Date_now oracle modify].
  intros w0 Hw0 w1 Hw1. split; [intros w Hw; by apply keep_tell|].
  eapply safely_bind; [by apply safely_request|].
  intros result _. repeat safely_step.
Qed.

Lemma safely_popJob teamId : safely Inv (λ _, True) (FDBQueueClient.popJob teamId).
Proof.
  unfold FDBQueueClient.popJob. cbn [safely bind mbind Prog_bind gets].
  intros w0 Hw0.
  eapply safely_bind.
  { apply safely_request. split; [done|]. cbn.
    split_and!; [done|by eexists|by destruct Hw0 as (_ & ? & _)|done]. }
  intros result _.
  destruct (FDBQueueClient.claimWithJob _) as [[c j]|]; repeat safely_step.
Qed.

Lemma safely_pushActiveJob teamId jobId :
  safely Inv (λ _, True) (FDBQueueClient.pushActiveJob teamId jobId 600000).
Proof.
  unfold FDBQueueClient.pushActiveJob.
  eapply safely_bind; [by apply safely_request|]. by intros.
Qed.

Lemma safely_removeActiveJob teamId jobId :
  safely Inv (λ _, True) (FDBQueueClient.removeActiveJob teamId jobId).
Proof.
  unfold FDBQueueClient.removeActiveJob.
  eapply safely_bind; [by apply safely_request|]. by intros.
Qed.

Lemma safely_healthCheck : safely Inv (λ _, True) FDBQueueClient.healthCheck.
Proof.
  unfold FDBQueueClient.healthCheck. cbn [safely bind mbind Prog_bind gets fetch].
  intros w0 Hw0. split.
  { intros w Hw. apply keep_emit; [|done|done]. cbn. by rewrite (proj1 Hw0). }
  intros response. by destruct response.
Qed.

Lemma safely_pushToConcurrencyQueue job :
  safely Inv (λ _, True) (ProductionSimulator.pushToConcurrencyQueue job).
Proof.
  unfold ProductionSimulator.pushToConcurrencyQueue, ProductionSimulator.getTeam.
  cbn [safely bind mbind Prog_bind gets]. intros w0 Hw0.
  destruct (JsMap.get (MainQueueJob.teamId job) (teams w0)); [|done].
  eapply safely_bind; [apply safely_pushJob|].
  intros success _. destruct success; [|done].
  cbn [safely bind mbind Prog_bind]. split; [|done].
  intros w Hw. apply (keep_queued (MainQueueJob.teamId job) 1); [|done|done].
  intros id n. cbn. by destruct (decide (MainQueueJob.teamId job = id)).
Qed.

Lemma safely_pushTask job : safely Inv (λ _, True) (Simulation.pushTask job).
Proof.
  unfold Simulation.pushTask.
  eapply safely_bind; [apply safely_pushToConcurrencyQueue|]. by intros.
Qed.

Lemma safely_activePushTask job : safely Inv (λ _, True) (Simulation.activePushTask job).
Proof.
  unfold Simulation.activePushTask.
  eapply safely_bind; [apply safely_pushActiveJob|]. by intros.
Qed.

Lemma keep_startJob teamId jobId now fromFDB w :
  Inv w →
  Inv (emit (EActiveSet teamId jobId fromFDB)
         (with_team teamId
            (TeamState.with_activeJobs
               (JsMap.set jobId (ActiveJob.mk jobId EmptyString now fromFDB))) w)).
Proof.
  intros Hw. apply keep_emit; [done|done|].
  apply keep_activeJobs; [|done].
  intros m a [->|Ha]%JsMap_values_set; [by right|by left].
Qed.

Lemma safely_startJob job now fromFDB :
  MainQueueJob.teamId job ∈ tenants0.*1.*1 →
  safely Inv (λ _, True) (ProductionSimulator.startJob job now fromFDB).
Proof.
  intros Htenant. unfold ProductionSimulator.startJob, ProductionSimulator.getTeam.
  cbn [safely bind mbind Prog_bind gets]. intros w0 Hw0.
  destruct (JsMap.get (MainQueueJob.teamId job) (teams w0)) as [team|] eqn:Hteam.
  - cbn [safely]. split; [|done]. intros w Hw. by apply keep_startJob.
  - destruct (JsMap_get_is_Some (MainQueueJob.teamId job) (teams w0)) as [team Hsome].
    + rewrite tenantsOf_keys. by destruct Hw0 as (_ & _ & -> & _).
    + congruence.
Qed.

Lemma safely_completeJob teamId activeJob :
  ActiveJob.queueKey activeJob = EmptyString →
  safely Inv (λ promoted, ∀ job, promoted = Some job → MainQueueJob.teamId job = teamId)
    (ProductionSimulator.completeJob teamId activeJob).
Proof.
  intros Hkey. unfold ProductionSimulator.completeJob, ProductionSimulator.getTeam.
  rewrite Hkey. cbn [ProductionSimulator.isEmpty negb].
  cbn [safely bind mbind Prog_bind gets]. intros w0 Hw0.
  destruct (JsMap.get teamId (teams w0)); [|done].
  cbn [safely bind mbind Prog_bind gets]. split.
  { intros w Hw. apply keep_emit; [done|done|].
    apply keep_activeJobs; [|done]. intros m a Ha. left. by eapply JsMap_values_delete. }
  split.
  { intros w Hw. apply keep_emit; [done|done|]. by apply keep_team. }
  eapply safely_bind.
  { instantiate (1 := λ _, True). destruct (ActiveJob.fromFDB activeJob); repeat safely_step. }
  intros _ _. change (negb (ProductionSimulator.isEmpty EmptyString)) with false.
  cbn [negb safely bind mbind Prog_bind gets skip]. intros w1 Hw1.
  destruct (JsMap.get teamId (teams w1)) as [team|]; [|done].
  destruct (0 <? TeamState.queuedJobs team); [|done].
  eapply safely_bind; [apply safely_popJob|].
  intros claimed _. destruct (FDBQueueClient.claimWithJob claimed) as [[c j]|]; [|done].
  cbn [safely bind mbind Prog_bind oracle modify]. split.
  { intros w Hw. apply (keep_queued teamId (-1)); [|done|done].
    intros id n. cbn. destruct (decide (teamId = id)); lia. }
  split; [intros w Hw; by apply keep_tell|].
  by intros job [= <-].
Qed.

Lemma safely_promoteTask teamId activeJob :
  ActiveJob.queueKey activeJob = EmptyString →
  teamId ∈ tenants0.*1.*1 →
  safely Inv (λ _, True) (Simulation.promoteTask teamId activeJob).
Proof.
  intros Hkey Htenant. unfold Simulation.promoteTask.
  eapply safely_bind; [apply safely_removeActiveJob|]. intros _ _.
  eapply safely_bind; [by apply safely_completeJob|].
  intros [job|] Hjob; [|done].
  cbn [safely bind mbind Prog_bind gets Date_now]. intros w Hw.
  eapply safely_bind.
  { apply safely_startJob. by rewrite (Hjob job eq_refl). }
  intros _ _.
  eapply safely_bind; [apply safely_pushActiveJob|]. by intros.
Qed.

Lemma safely_drainTask teamId activeJob :
  ActiveJob.queueKey activeJob = EmptyString →
  safely Inv (λ _, True) (Simulation.drainTask teamId activeJob).
Proof.
  intros Hkey. unfold Simulation.drainTask.
  eapply safely_bind; [apply safely_removeActiveJob|]. intros _ _.
  eapply safely_bind; [by apply safely_completeJob|]. by intros.
Qed.

Lemma safely_generateJobs now :
  safely Inv (λ _, True) (ProductionSimulator.generateJobs now).
Proof.
  unfold ProductionSimulator.generateJobs. cbn [safely bind mbind Prog_bind gets].
  intros w0 Hw0. apply safely_forEach. intros key.
  unfold ProductionSimulator.generateFor, ProductionSimulator.getTeam.
  cbn [safely bind mbind Prog_bind gets Math_random]. intros w1 Hw1.
  destruct (JsMap.get key (teams w1)) as [team|]; [|done].
  cbn [safely bind mbind Prog_bind gets Math_random]. intros w2 Hw2.
  split; [by apply keep_fields|].
  destruct (ProductionSimulator.due _ _ _ _); [|done].
  cbn [safely bind mbind Prog_bind gets Math_random modify].
  split; [by apply keep_fields|]. split; [by apply keep_team|].
  intros w3 Hw3 w4 Hw4. split; [by apply keep_fields|].
  intros w5 Hw5. split; [by apply keep_fields|].
  split; [by apply keep_fields|]. split; [by apply keep_team|]. done.
Qed.

Lemma safely_pickJobFromMainQueue :
  safely Inv (λ _, True) ProductionSimulator.pickJobFromMainQueue.
Proof.
  unfold ProductionSimulator.pickJobFromMainQueue. cbn [safely bind mbind Prog_bind gets].
  intros w0 Hw0.
  destruct (ProductionSimulator.pickBest (mainQueue w0)) as [[job queue]|]; [|done].
  cbn [safely bind mbind Prog_bind modify]. split; [by apply keep_fields|done].
Qed.

Lemma keep_dispatch w job now team :
  Inv w →
  JsMap.get (MainQueueJob.teamId job) (teams w) = Some team →
  Inv (runSegment (ProductionSimulator.startJob job now false) w).1.
Proof.
  intros Hw Hteam. unfold ProductionSimulator.startJob, ProductionSimulator.getTeam.
  cbn. rewrite Hteam. cbn. by apply keep_startJob.
Qed.

Lemma tenant_of_run w team :
  Inv w → team ∈ JsMap.values (teams w) → TeamState.teamId team ∈ tenants0.*1.*1.
Proof.
  intros (_ & _ & Htenants & _) Hteam. unfold JsMap.values in Hteam.
  apply list_elem_of_fmap in Hteam as ([key team'] & -> & Hin). cbn.
  assert ((key, TeamState.teamId team', TeamState.tier team') ∈ tenants0) as Hentry.
  { rewrite <- Htenants. unfold tenantsOf. apply list_elem_of_fmap. by exists (key, team'). }
  rewrite (Hkeyed _ _ _ Hentry).
  apply list_elem_of_fmap. exists (key, TeamState.teamId team'). split; [done|].
  apply list_elem_of_fmap. by exists (key, TeamState.teamId team', TeamState.tier team').
Qed.

Lemma run_secured ls s s' :
  secured Inv s → Simulation.run ls s = Some s' →
  secured Inv s'
  ∧ (Simulation.phase s ≠ Simulation.Starting → Simulation.alive s = true →
     Simulation.alive s' = true ∧ Simulation.phase s' ≠ Simulation.Starting).
Proof.
  apply (secured_run Inv).
  - apply keep_clock.
  - apply safely_healthCheck.
  - apply safely_generateJobs.
  - apply safely_pickJobFromMainQueue.
  - intros w job now team Hw Hteam _. by eapply keep_dispatch.
  - apply safely_pushTask.
  - apply safely_activePushTask.
  - intros w team a Hw Hteam Ha. apply safely_promoteTask.
    + destruct Hw as (_ & _ & _ & Hkeys & _). by eapply Hkeys.
    + by eapply tenant_of_run.
  - intros w team a Hw Hteam Ha. apply safely_drainTask.
    destruct Hw as (_ & _ & _ & Hkeys & _). by eapply Hkeys.
Qed.
End run_invariant.

(** ** The states a run can reach *)

Lemma initializeTeams_entries (tiers : list Tier.t) key team :
  (key, team) ∈ ProductionSimulator.initializeTeams tiers 0 [] →
  ∃ tier, team = ProductionSimulator.newTeam key tier.
Proof.
  rewrite (initializeTeams_from tiers 0 [] eq_refl). cbn [app Nat.add].
  intros (i & Hi)%list_elem_of_lookup_1. rewrite list_lookup_imap in Hi.
  destruct (_ !! i) as [tier|]; [|done]. injection Hi as <- <-. by exists tier.
Qed.

Lemma JsMap_get_elem_of {V} k (m : JsMap.t V) v : JsMap.get k m = Some v → (k, v) ∈ m.
Proof.
  induction m as [|[k' v'] m IH]; cbn [JsMap.get]; [done|].
  case_decide.
  - intros [= ->]. subst. by left.
  - intros Hget. right. by apply IH.
Qed.

Lemma tenantsOf_get (m m0 : JsMap.t TeamState.t) id team :
  tenantsOf m = tenantsOf m0 →
  JsMap.get id m = Some team →
  ∃ team0, JsMap.get id m0 = Some team0
           ∧ TeamState.teamId team = TeamState.teamId team0
           ∧ TeamState.tier team = TeamState.tier team0.
Proof.
  unfold tenantsOf. revert m0.
  induction m as [|[k t] m IH]; intros [|[k0 t0] m0]; csimpl; try done.
  intros [= -> Hid Htier Hrest]. case_decide.
  - intros [= <-]. by exists t0.
  - by apply IH.
Qed.

Lemma initial_secured config runId workerId randoms :
  secured
    (runInvariant config workerId
       (tenantsOf (ProductionSimulator.initializeTeams (teamTiers config) 0 [])))
    (Simulation.initial config runId workerId randoms).
Proof.
  split_and!; try apply Forall_nil_2. unfold runInvariant. split_and!; try done.
  - intros team a Hteam. cbn in Hteam. unfold JsMap.values in Hteam.
    apply list_elem_of_fmap in Hteam as ([key team'] & -> & Hin).
    apply initializeTeams_entries in Hin as [tier ->]. cbn.
    by intros ?%elem_of_nil.
  - intros id team Hteam. cbn in Hteam.
    apply JsMap_get_elem_of, initializeTeams_entries in Hteam as [tier ->]. done.
Qed.

Lemma initial_keyed (tiers : list Tier.t) key id tier :
  (key, id, tier) ∈ tenantsOf (ProductionSimulator.initializeTeams tiers 0 []) → id = key.
Proof.
  unfold tenantsOf. intros ([key' team] & [= -> -> ->] & Hin)%list_elem_of_fmap.
  by apply initializeTeams_entries in Hin as [tier' ->].
Qed.

Lemma reachable_secured config runId workerId randoms s :
  Simulation.reachable config runId workerId randoms s →
  secured
    (runInvariant config workerId
       (tenantsOf (ProductionSimulator.initializeTeams (teamTiers config) 0 []))) s.
Proof.
  intros [ls Hrun].
  eapply (run_secured config workerId _ (initial_keyed (teamTiers config)));
    [apply initial_secured|exact Hrun].
Qed.

(** Whatever happens in a run, the tenants stay those [initializeTeams]
    made: the map has the same keys in the same order, every tenant is
    stored under its own id and keeps its tier, and the configuration and the
    client's worker id are as at the start. No step adds, removes or renames a
    tenant. *)
Theorem tenants_never_change (conf : Config) (runId wid : string)
    (randoms : nat → spec_float) (s : Simulation.System) :
  Simulation.reachable conf runId wid randoms s →
  (teams (Simulation.world s)).*1
  = (ProductionSimulator.initializeTeams (teamTiers conf) 0 []).*1
  ∧ (∀ id team,
       JsMap.get id (teams (Simulation.world s)) = Some team →
       TeamState.teamId team = id
       ∧ JsMap.get id (ProductionSimulator.initializeTeams (teamTiers conf) 0 [])
         = Some (TeamState.mk id (TeamState.tier team) [] 0 0 0 0))
  ∧ config (Simulation.world s) = conf
  ∧ workerId (Simulation.world s) = wid.
Proof.
  intros Hreach.
  destruct (reachable_secured _ _ _ _ _ Hreach) as ((Hconf & Hwid & Htenants & _) & _).
  split_and!; [|  |exact Hconf|exact Hwid].
  - by rewrite !tenantsOf_keys, Htenants.
  - intros id team Hteam.
    destruct (tenantsOf_get _ _ id team Htenants Hteam) as (team0 & Hteam0 & Hid & Htier).
    pose proof (JsMap_get_elem_of _ _ _ Hteam0) as Hin.
    apply initializeTeams_entries in Hin as [tier ->]. cbn in Hid, Htier.
    split; [done|]. by rewrite Htier.
Qed.

Lemma tenants_never_change_witness :
  Simulation.reachable Scenario.config1 "run" "w" (λ _, Double.half) Scenario.promoted
  ∧ (teams (Simulation.world Scenario.promoted)).*1 = [Scenario.team0]
  ∧ config (Simulation.world Scenario.promoted) = Scenario.config1.
Proof.
  assert (H : Simulation.reachable Scenario.config1 "run" "w" (λ _, Double.half) Scenario.promoted).
  { exists Scenario.promotion. vm_compute. reflexivity. }
  destruct (tenants_never_change Scenario.config1 "run" "w" (λ _, Double.half) Scenario.promoted H)
    as (Hkeys & _ & Hconf & _).
  split; [exact H|]. split; [|exact Hconf].
  rewrite Hkeys. vm_compute. reflexivity.
Defined.

(** Every request a run sends is one of five: the health check
    [GET /health], [POST /queue/push] with the ten minute timeout,
    [POST /queue/pop/{tenant}] with the client's worker id and no blocked
    crawls, [POST /active/push] with the ten minute timeout and
    [DELETE /active/remove]; none has a time limit of its own. In particular
    the simulation never completes a queue key and never releases a claim:
    every active job has the empty queue key that [startJob] gives it, so
    [completeJob] skips [client.completeJob], and nothing calls
    [releaseJob]. *)
Theorem requests_of_a_run (conf : Config) (runId wid : string)
    (randoms : nat → spec_float) (s : Simulation.System) :
  Simulation.reachable conf runId wid randoms s →
  (∀ req, EFetch req ∈ log (Simulation.world s) →
     simulationRequest conf wid req
     ∧ (∀ queueKey, req_body req ≠ Some (CompleteJobRequest queueKey))
     ∧ (∀ jobId, req_body req ≠ Some (ReleaseJobRequest jobId)))
  ∧ (∀ id team activeJob,
       JsMap.get id (teams (Simulation.world s)) = Some team →
       activeJob ∈ JsMap.values (TeamState.activeJobs team) →
       ActiveJob.queueKey activeJob = EmptyString).
Proof.
  intros Hreach.
  destruct (reachable_secured _ _ _ _ _ Hreach) as ((_ & _ & _ & Hkeys & Hlog & _) & _).
  split.
  - intros req Hreq.
    assert (Hexpected : simulationRequest conf wid req).
    { by apply (proj1 (Forall_forall _ _) Hlog (EFetch req)). }
    split; [exact Hexpected|].
    destruct Hexpected as [_ Hbody].
    split; intros x Hx; by rewrite Hx in Hbody.
  - intros id team a Hteam Ha. apply (Hkeys team a); [|done].
    by eapply JsMap_get_values.
Qed.

Lemma requests_of_a_run_witness :
  Simulation.reachable Scenario.config1 "run" "w" (λ _, Double.half) Scenario.promoted
  ∧ length (log (Simulation.world Scenario.promoted)) = 21%nat
  ∧ ∀ req, EFetch req ∈ log (Simulation.world Scenario.promoted) →
      simulationRequest Scenario.config1 "w" req.
Proof.
  assert (H : Simulation.reachable Scenario.config1 "run" "w" (λ _, Double.half) Scenario.promoted).
  { exists Scenario.promotion. vm_compute. reflexivity. }
  split; [exact H|]. split; [vm_compute; reflexivity|].
  intros req Hreq.
  exact (proj1 (proj1 (requests_of_a_run Scenario.config1 "run" "w" (λ _, Double.half)
                         Scenario.promoted H) req Hreq)).
Defined.


(** The process ends early only when the health check fails: a state with
    [process.exit] is the state right after the health check, the exit code
    is 1, and the health check is the only request that was sent. Once
    the service has answered the health check with a 2xx status no step of
    the run ends the process: no task throws ([startJob]'s unchecked lookup
    of the tenant always finds it) and the code of the main loop neither
    throws nor waits where it must not. *)
Theorem exits_only_on_failed_health_check (conf : Config) (runId wid : string)
    (randoms : nat → spec_float) (s : Simulation.System) (code : Z) :
  Simulation.reachable conf runId wid randoms s →
  Simulation.phase s = Simulation.Exited code →
  code = 1
  ∧ log (Simulation.world s)
    = [EFetch (mkRequest GET (serviceUrl conf +:+ "/health") None None)]
  ∧ teams (Simulation.world s) = ProductionSimulator.initializeTeams (teamTiers conf) 0 []
  ∧ mainQueue (Simulation.world s) = []
  ∧ Simulation.microtasks s = []
  ∧ Simulation.pending s = [].
Proof.
  intros [ls Hrun] Hexit. destruct ls as [|l ls]; cbn [Simulation.run] in Hrun.
  { injection Hrun as <-. done. }
  destruct (Simulation.step l (Simulation.initial conf runId wid randoms))
    as [s1|] eqn:Hstep; [|done].
  assert (Hreach1 : Simulation.reachable conf runId wid randoms s1).
  { exists [l]. cbn [Simulation.run]. by rewrite Hstep. }
  pose proof (reachable_secured _ _ _ _ _ Hreach1) as Hsec.
  destruct l as [r|now| | |now| |now perf|i r]; try done.
  unfold Simulation.step in Hstep. cbn in Hstep.
  destruct (settled r) as [err|status statusText body] eqn:Hr; cbn in Hstep;
    injection Hstep as <-.
  - destruct ls as [|l ls]; [|done]. injection Hrun as <-.
    injection Hexit as <-. done.
  - destruct (ok status) eqn:Hok.
    + exfalso.
      destruct (run_secured conf wid _ (initial_keyed (teamTiers conf)) ls _ s Hsec Hrun)
        as [_ Halive].
      destruct Halive as [Halive _]; [done|done|].
      unfold Simulation.alive in Halive. by rewrite Hexit in Halive.
    + destruct ls as [|l ls]; [|done]. injection Hrun as <-.
      injection Hexit as <-. done.
Qed.

Lemma exits_only_on_failed_health_check_witness :
  Simulation.reachable Scenario.config1 "run" "w" (λ _, Double.half) Scenario.unreachableService
  ∧ Simulation.phase Scenario.unreachableService = Simulation.Exited 1
  ∧ log (Simulation.world Scenario.unreachableService)
    = [EFetch (mkRequest GET "http://fdb/health" None None)].
Proof.
  assert (H : Simulation.reachable Scenario.config1 "run" "w" (λ _, Double.half)
                Scenario.unreachableService).
  { exists [Simulation.HealthChecked Scenario.refused]. vm_compute. reflexivity. }
  assert (Hexit : Simulation.phase Scenario.unreachableService = Simulation.Exited 1).
  { vm_compute. reflexivity. }
  split; [exact H|]. split; [exact Hexit|].
  exact (proj1 (proj2 (exits_only_on_failed_health_check Scenario.config1 "run" "w"
                         (λ _, Double.half) Scenario.unreachableService 1 H Hexit))).
Defined.

(** ** Permits and the tasks that hold them *)

Lemma balanced_runTask wc held task s :
  balanced wc held s → balanced wc held (Simulation.runTask task s).
Proof.
  intros (Hsum & Hflight & Hwait & Hpos). unfold Simulation.runTask, Semaphore.acquire.
  destruct (0 <? Semaphore.permits (Simulation.semaphore s)) eqn:Hpermits; cbn.
  - apply Z.ltb_lt in Hpermits. unfold balanced; cbn. rewrite length_app. cbn.
    split_and!; [lia|done|intros Hw; specialize (Hwait Hw); lia|lia].
  - apply Z.ltb_ge in Hpermits. unfold balanced; cbn.
    split_and!; [lia|done|done|done].
Qed.

Lemma balanced_finally wc s :
  balanced wc 1 s → balanced wc 0 (Simulation.finally s).
Proof.
  intros (Hsum & Hflight & Hwait & Hpos). unfold Simulation.finally, Semaphore.release.
  destruct (Semaphore.waiting (Simulation.semaphore s)) as [|next rest] eqn:Hw;
    unfold balanced; cbn.
  - split_and!; [lia|lia|done|lia].
  - rewrite length_app. cbn. specialize (Hwait ltac:(done)).
    split_and!; [lia|lia|done|done].
Qed.

Lemma balanced_afterSegment wc s (r : World * Outcome unit) :
  balanced wc 1 s → balanced wc 0 (Simulation.afterSegment s r).
Proof.
  intros Hs. destruct r as [w [[]|e|req k]]; cbn [Simulation.afterSegment].
  - by apply balanced_finally.
  - by apply balanced_finally.
  - destruct Hs as (Hsum & Hflight & Hwait & Hpos). unfold balanced; cbn.
    rewrite length_app. cbn. split_and!; [lia|lia|done|done].
Qed.

Lemma balanced_drainOverflow wc s :
  balanced wc 0 s → balanced wc 0 (Simulation.drainOverflow s).
Proof.
  intros Hs. unfold Simulation.drainOverflow.
  assert (Hstart : balanced wc 0 (Simulation.set_overflowQueue [] s)) by done.
  revert Hstart. generalize (Simulation.set_overflowQueue [] s).
  induction (Simulation.overflowQueue s) as [|job q IH]; intros s0 Hs0; cbn; [done|].
  by apply IH, balanced_runTask.
Qed.

Lemma balanced_dispatch wc rounds now s :
  balanced wc 0 s → balanced wc 0 (Simulation.dispatch rounds now s).
Proof.
  revert s. induction rounds as [|rounds IH]; intros s Hs; cbn [Simulation.dispatch]; [done|].
  destruct (0 <? Semaphore.available (Simulation.semaphore s)); [|done].
  destruct (Simulation.sync ProductionSimulator.pickJobFromMainQueue (Simulation.world s))
    as [w1 [[job|]|e]]; [|done|done].
  destruct (Simulation.sync (ProductionSimulator.isTeamAtCapacity _) w1)
    as [w2 [[|]|e]]; [by apply IH| |done].
  destruct (Simulation.sync (ProductionSimulator.startJob job now false) w2)
    as [w3 [a|e]]; [|done].
  by apply IH, balanced_runTask.
Qed.

Lemma balanced_spawnCompletions wc task now s :
  balanced wc 0 s → balanced wc 0 (Simulation.spawnCompletions task now s).
Proof.
  unfold Simulation.spawnCompletions.
  assert (Hinner : ∀ id l s0, balanced wc 0 s0 →
            balanced wc 0 (foldl (λ s1 a, Simulation.runTask (task id a) s1) s0 l)).
  { intros id l. induction l as [|a l IHl]; intros s0 Hs0; cbn [foldl]; [exact Hs0|].
    by apply IHl, balanced_runTask. }
  generalize (JsMap.values (teams (Simulation.world s))). intros ts. revert s.
  induction ts as [|team ts IH]; intros s Hs; cbn [foldl]; [exact Hs|].
  by apply IH, Hinner.
Qed.

Lemma balanced_mainIteration wc now s :
  balanced wc 0 s → balanced wc 0 (Simulation.mainIteration now s).
Proof.
  intros Hs. unfold Simulation.mainIteration.
  destruct (Simulation.sync (ProductionSimulator.generateJobs now) (Simulation.world s))
    as [w1 [[]|e]]; [|done].
  assert (Hd : balanced wc 0 (Simulation.dispatch 100 now
                 (Simulation.drainOverflow (Simulation.set_world w1 s)))).
  { by apply balanced_dispatch, balanced_drainOverflow. }
  destruct (Simulation.phase _); try done; by apply balanced_spawnCompletions.
Qed.

Lemma balanced_step wc l s s' :
  balanced wc 0 s → Simulation.step l s = Some s' → balanced wc 0 s'.
Proof.
  intros Hs Hstep. unfold Simulation.step in Hstep.
  destruct (negb (Simulation.alive s)); [done|].
  destruct l as [r|now| | |now| |now perf|i r];
    destruct (Simulation.microtasks s) as [|task rest] eqn:Hmicro; try done.
  - destruct (Simulation.phase s); try done.
    destruct (exec FDBQueueClient.healthCheck [r] (Simulation.world s))
      as [[w' [healthy|e|req k]] rs]; try done.
    by injection Hstep as <-.
  - destruct (Simulation.phase s); try done. injection Hstep as <-.
    by apply balanced_mainIteration.
  - destruct (Simulation.phase s); try done. by injection Hstep as <-.
  - destruct (Simulation.phase s); try done.
    destruct (Simulation.inFlight s <=? 0); [|done]. by injection Hstep as <-.
  - destruct (Simulation.phase s); try done. injection Hstep as <-.
    by apply balanced_spawnCompletions.
  - destruct (Simulation.phase s); try done. by injection Hstep as <-.
  - injection Hstep as <-. apply balanced_afterSegment.
    destruct Hs as (Hsum & Hflight & Hwait & Hpos). rewrite Hmicro in Hsum.
    unfold balanced; cbn in *. split_and!; [lia|lia|done|done].
  - destruct (Simulation.pending s !! i) as [[req k]|] eqn:Hi; [|done].
    injection Hstep as <-. apply balanced_afterSegment.
    destruct Hs as (Hsum & Hflight & Hwait & Hpos). rewrite Hmicro in Hsum.
    pose proof (lookup_lt_Some _ _ _ Hi) as Hlt.
    unfold balanced; cbn in *. rewrite length_delete by eauto.
    split_and!; [lia|lia|done|done].
Qed.

Lemma balanced_run wc ls : ∀ s s',
  balanced wc 0 s → Simulation.run ls s = Some s' → balanced wc 0 s'.
Proof.
  induction ls as [|l ls IH]; intros s s' Hs Hrun; cbn in Hrun.
  - by injection Hrun as <-.
  - destruct (Simulation.step l s) as [s1|] eqn:Hstep; [|done].
    eapply IH; [|done]. by eapply balanced_step.
Qed.

(** Between any two steps of a run the permits add up: those left in the
    semaphore, one for every task about to start and one for every task that
    waits for an answer make [workerConcurrency]; [inFlight] is the number of
    tasks that wait for an answer; tasks queue at the semaphore only when it
    has no permit. So, with a [workerConcurrency] that is not negative, at
    most that many requests are outstanding at any time. *)
Theorem requests_in_flight_bounded (conf : Config) (runId wid : string)
    (randoms : nat → spec_float) (s : Simulation.System) :
  Simulation.reachable conf runId wid randoms s →
  Semaphore.permits (Simulation.semaphore s)
  + Z.of_nat (length (Simulation.microtasks s))
  + Z.of_nat (length (Simulation.pending s)) = workerConcurrency conf
  ∧ Simulation.inFlight s = Z.of_nat (length (Simulation.pending s))
  ∧ (Semaphore.waiting (Simulation.semaphore s) ≠ [] →
     Semaphore.permits (Simulation.semaphore s) ≤ 0)
  ∧ (0 ≤ workerConcurrency conf →
     0 ≤ Semaphore.permits (Simulation.semaphore s)
     ∧ Z.of_nat (length (Simulation.pending s)) ≤ workerConcurrency conf).
Proof.
  intros [ls Hrun].
  assert (Hstart : balanced (workerConcurrency conf) 0
                     (Simulation.initial conf runId wid randoms)).
  { unfold balanced; cbn. split_and!; [lia|done|done|done]. }
  destruct (balanced_run _ ls _ s Hstart Hrun) as (Hsum & Hflight & Hwait & Hpos).
  split_and!; [lia|lia|done|].
  intros Hwc. specialize (Hpos Hwc). lia.
Qed.

Lemma requests_in_flight_bounded_witness :
  Simulation.reachable Scenario.config1 "run" "w" (λ _, Double.half) Scenario.promoted
  ∧ Simulation.inFlight Scenario.promoted
    = Z.of_nat (length (Simulation.pending Scenario.promoted))
  ∧ Semaphore.permits (Simulation.semaphore Scenario.promoted) = 4.
Proof.
  assert (H : Simulation.reachable Scenario.config1 "run" "w" (λ _, Double.half) Scenario.promoted).
  { exists Scenario.promotion. vm_compute. reflexivity. }
  split; [exact H|]. split; [|vm_compute; reflexivity].
  exact (proj1 (proj2 (requests_in_flight_bounded Scenario.config1 "run" "w" (λ _, Double.half)
                         Scenario.promoted H))).
Defined.

(** ** The dispatch loop *)

Lemma sync_pickJobFromMainQueue w :
  (mainQueue w = [] ∧
   Simulation.sync ProductionSimulator.pickJobFromMainQueue w = (w, inl None))
  ∨ ∃ before job after,
      mainQueue w = before ++ job :: after
      ∧ (∀ j, j ∈ before ++ after → MainQueueJob.priority job ≤ MainQueueJob.priority j)
      ∧ Simulation.sync ProductionSimulator.pickJobFromMainQueue w
        = (with_mainQueue (λ _, before ++ after) w, inl (Some job)).
Proof.
  unfold Simulation.sync. destruct (mainQueue w) as [|first rest] eqn:Hq.
  - left. split; [done|]. cbn. by rewrite Hq.
  - right. destruct (pickBest_spec first rest) as (b & job & a & Heq & Hpick & Hb & Ha).
    exists b, job, a. split_and!; [done| |].
    + intros j [Hj|Hj]%elem_of_app; [specialize (Hb j Hj); lia|by apply Ha].
    + cbn. by rewrite Hq, Hpick.
Qed.

Lemma runTask_with_permit task s :
  0 < Semaphore.permits (Simulation.semaphore s) →
  Simulation.runTask task s
  = Simulation.mkSystem (Simulation.world s)
      (Semaphore.mk (Semaphore.permits (Simulation.semaphore s) - 1)
         (Semaphore.waiting (Simulation.semaphore s)))
      (Simulation.inFlight s) (Simulation.overflowQueue s)
      (Simulation.microtasks s ++ [task]) (Simulation.pending s) (Simulation.phase s).
Proof.
  intros Hpermits. unfold Simulation.runTask, Semaphore.acquire.
  by rewrite (proj2 (Z.ltb_lt _ _) Hpermits).
Qed.

Lemma atCapacity_size team :
  ProductionSimulator.atCapacity team = false
  ↔ JsMap.size (TeamState.activeJobs team) < Tier.concurrencyLimit (TeamState.tier team).
Proof. unfold ProductionSimulator.atCapacity. rewrite Z.leb_gt. done. Qed.

(** The flags of a pass extended by the job taken first. *)
Lemma dispatched_cons (now : Z) (teams : JsMap.t TeamState.t) (job0 : MainQueueJob.t)
    (flag0 : bool) (picked : list (MainQueueJob.t * bool)) :
  (flag0 = true ↔
   ∃ team, JsMap.get (MainQueueJob.teamId job0) teams = Some team
           ∧ JsMap.size (TeamState.activeJobs team)
             < Tier.concurrencyLimit (TeamState.tier team)) →
  (∀ before job flag after,
     picked = before ++ (job, flag) :: after →
     (flag = true ↔
      ∃ team,
        JsMap.get (MainQueueJob.teamId job)
          (startedTeams now (filter (λ p, p.2 = true) before).*1
             (startedTeams now (if flag0 then [job0] else []) teams)) = Some team
        ∧ JsMap.size (TeamState.activeJobs team)
          < Tier.concurrencyLimit (TeamState.tier team))) →
  ∀ before job flag after,
    (job0, flag0) :: picked = before ++ (job, flag) :: after →
    (flag = true ↔
     ∃ team,
       JsMap.get (MainQueueJob.teamId job)
         (startedTeams now (filter (λ p, p.2 = true) before).*1 teams) = Some team
       ∧ JsMap.size (TeamState.activeJobs team)
         < Tier.concurrencyLimit (TeamState.tier team)).
Proof.
  intros Hhead Hrest [|first before] job flag after Heq.
  - cbn in Heq. injection Heq as <- <- _. exact Hhead.
  - cbn [app] in Heq. injection Heq as <- Hpicked.
    rewrite (Hrest before job flag after Hpicked).
    rewrite filter_cons. cbn [snd].
    destruct flag0; [destruct (decide (true = true)); [|done]
                    |destruct (decide (false = true)); [done|]]; done.
Qed.

(** One pass of the dispatch loop, from any state. [picked] lists the jobs
    it took from the main queue, in the order it took them, each with
    whether it was started ([true]) or sent to the overflow queue ([false]).
    A job is started exactly when its tenant exists and has fewer active
    jobs than its limit at the moment the job is taken, that is, with the
    jobs started earlier in the same pass already among the tenant's active
    jobs ([startedTeams]); the tenants after the pass are the tenants before
    it with the started jobs inserted, and nothing else changed.
    Every job taken is accounted for: the main queue before the pass is the
    jobs taken together with the main queue after it; the ones not started are
    appended to the overflow queue in order; for each one started there is one
    insertion into [activeJobs] in the history, one permit taken and one
    active-push task made ready, in order. At most [rounds] (a hundred) jobs
    are taken, and no more are started than there were permits; the pass
    ends only when it has taken [rounds] jobs, when no permit is left, or
    when the main queue is empty. The jobs are taken in order of priority
    value, smallest first, and none that stays behind has a smaller value
    than one that was taken. *)
Theorem dispatch_accounts_for_every_job (rounds : nat) (now : Z) : ∀ s : Simulation.System,
  ∃ picked : list (MainQueueJob.t * bool),
    mainQueue (Simulation.world s)
      ≡ₚ picked.*1 ++ mainQueue (Simulation.world (Simulation.dispatch rounds now s))
    ∧ (∀ before job started after,
         picked = before ++ (job, started) :: after →
         (started = true ↔
          ∃ team,
            JsMap.get (MainQueueJob.teamId job)
              (startedTeams now (filter (λ p, p.2 = true) before).*1
                 (teams (Simulation.world s))) = Some team
            ∧ JsMap.size (TeamState.activeJobs team)
              < Tier.concurrencyLimit (TeamState.tier team)))
    ∧ teams (Simulation.world (Simulation.dispatch rounds now s))
      = startedTeams now (filter (λ p, p.2 = true) picked).*1 (teams (Simulation.world s))
    ∧ Simulation.overflowQueue (Simulation.dispatch rounds now s)
      = Simulation.overflowQueue s ++ (filter (λ p, p.2 = false) picked).*1
    ∧ log (Simulation.world (Simulation.dispatch rounds now s))
      = log (Simulation.world s)
        ++ ((λ job, EActiveSet (MainQueueJob.teamId job) (MainQueueJob.jobId job) false)
            <$> (filter (λ p, p.2 = true) picked).*1)
    ∧ Simulation.microtasks (Simulation.dispatch rounds now s)
      = Simulation.microtasks s
        ++ (Simulation.activePushTask <$> (filter (λ p, p.2 = true) picked).*1)
    ∧ Semaphore.permits (Simulation.semaphore (Simulation.dispatch rounds now s))
      = Semaphore.permits (Simulation.semaphore s)
        - Z.of_nat (length (filter (λ p, p.2 = true) picked))
    ∧ Z.of_nat (length (filter (λ p, p.2 = true) picked))
      ≤ Z.max 0 (Semaphore.permits (Simulation.semaphore s))
    ∧ (length picked ≤ rounds)%nat
    ∧ StronglySorted (λ a b, MainQueueJob.priority a ≤ MainQueueJob.priority b) picked.*1
    ∧ (∀ taken left,
         taken ∈ picked.*1 →
         left ∈ mainQueue (Simulation.world (Simulation.dispatch rounds now s)) →
         MainQueueJob.priority taken ≤ MainQueueJob.priority left)
    ∧ Simulation.phase (Simulation.dispatch rounds now s) = Simulation.phase s
    ∧ Simulation.pending (Simulation.dispatch rounds now s) = Simulation.pending s
    ∧ (length picked = rounds
       ∨ Semaphore.permits (Simulation.semaphore (Simulation.dispatch rounds now s)) ≤ 0
       ∨ mainQueue (Simulation.world (Simulation.dispatch rounds now s)) = []).
Proof.
  induction rounds as [|rounds IH]; intros s; cbn [Simulation.dispatch].
  { exists []. cbn. rewrite !(right_id_L [] (++)).
    split_and!; try done;
      [by intros [] ????|lia|lia|constructor|by intros ?? ?%elem_of_nil|by left]. }
  destruct (Z.ltb_spec 0 (Semaphore.available (Simulation.semaphore s))) as [Hpermits|Hnone];
    [|exists []; cbn; rewrite !(right_id_L [] (++));
      split_and!; try done;
      [by intros [] ????|lia|lia|lia|constructor|by intros ?? ?%elem_of_nil
      |right; left; exact Hnone]].
  unfold Semaphore.available in Hpermits.
  destruct (sync_pickJobFromMainQueue (Simulation.world s))
    as [[Hempty ->]|(before & job & after & Hqueue & Hleast & ->)].
  { exists []. cbn. rewrite !(right_id_L [] (++)).
    split_and!; try done;
      [by intros [] ????|lia|lia|lia|constructor|by intros ?? ?%elem_of_nil
      |by right; right]. }
  rewrite sync_isTeamAtCapacity.
  assert (Hperm : mainQueue (Simulation.world s) ≡ₚ job :: (before ++ after)).
  { rewrite Hqueue. by rewrite Permutation_middle. }
  cbn [teams with_mainQueue].
  destruct (JsMap.get (MainQueueJob.teamId job) (teams (Simulation.world s)))
    as [team|] eqn:Hteam;
    [destruct (ProductionSimulator.atCapacity team) eqn:Hcap|].
  1,3: match goal with
       | |- context [Simulation.dispatch _ _ ?s2] =>
           destruct (IH s2) as (picked & Hq & Hflags & Ht & Ho & Hl & Hm & Hp & Hb & Hn & Hs
                                & Hleft & Hphase & Hpending & Hstop)
       end;
       exists ((job, false) :: picked);
       rewrite !filter_cons; cbn [snd];
       destruct (decide (false = false)) as [_|?]; [|done];
       destruct (decide (false = true)) as [?|_]; [done|];
       cbn in Hq, Ho, Hl, Hm, Hp, Hb;
       cbn [Simulation.world Simulation.set_world Simulation.set_overflowQueue
            teams with_mainQueue] in Ht, Hflags;
       csimpl;
       (split_and!;
        [ by rewrite Hperm, Hq
        | apply dispatched_cons; [|exact Hflags];
          split; [done|]; intros (team' & Hget & Hsize); rewrite Hteam in Hget;
          try done; injection Hget as <-; apply atCapacity_size in Hsize; congruence
        | exact Ht
        | by rewrite Ho, <- (assoc_L (++))
        | done | done | done | done | lia
        | constructor; [done|];
          apply Forall_forall; intros x Hx; apply Hleast;
          rewrite Hq; apply elem_of_app; by left
        | intros taken left [->|Htaken]%elem_of_cons Hin;
          [apply Hleast; rewrite Hq; apply elem_of_app; by right|by apply Hleft]
        | done | done
        | destruct Hstop as [Hstop|Hstop]; [left; by rewrite Hstop|by right] ]).
  rewrite (sync_startJob job now false (with_mainQueue (λ _, before ++ after) (Simulation.world s))
             team Hteam).
  match goal with
  | |- context [Simulation.dispatch _ _ ?s2] => remember s2 as s2' eqn:Hs2
  end.
  assert (Hfields :
    mainQueue (Simulation.world s2') = before ++ after
    ∧ teams (Simulation.world s2') = startedTeams now [job] (teams (Simulation.world s))
    ∧ Simulation.overflowQueue s2' = Simulation.overflowQueue s
    ∧ log (Simulation.world s2')
      = log (Simulation.world s)
        ++ [EActiveSet (MainQueueJob.teamId job) (MainQueueJob.jobId job) false]
    ∧ Simulation.microtasks s2' = Simulation.microtasks s ++ [Simulation.activePushTask job]
    ∧ Semaphore.permits (Simulation.semaphore s2')
      = Semaphore.permits (Simulation.semaphore s) - 1
    ∧ Simulation.phase s2' = Simulation.phase s
    ∧ Simulation.pending s2' = Simulation.pending s).
  { rewrite Hs2, runTask_with_permit by done.
    cbn [Simulation.world Simulation.overflowQueue Simulation.microtasks
         Simulation.semaphore Simulation.phase Simulation.pending Simulation.set_world
         Semaphore.permits].
    unfold ProductionSimulator.startJob, ProductionSimulator.getTeam.
    cbn [runSegment bind mbind Prog_bind gets fst teams with_mainQueue]. rewrite Hteam.
    cbn [runSegment fst]. done. }
  clear Hs2. destruct Hfields as (Fq & Ft & Fo & Fl & Fm & Fp & Fphase & Fpending).
  destruct (IH s2') as (picked & Hq & Hflags & Ht & Ho & Hl & Hm & Hp & Hb & Hn & Hs & Hleft
                        & Hphase & Hpending & Hstop).
  rewrite Fq in Hq. rewrite Fo in Ho. rewrite Fl in Hl. rewrite Fm in Hm.
  rewrite Fp in Hp, Hb. rewrite Fphase in Hphase. rewrite Fpending in Hpending.
  rewrite Ft in Ht, Hflags.
  exists ((job, true) :: picked).
  rewrite !filter_cons; cbn [snd].
  destruct (decide (true = true)) as [_|?]; [|done].
  destruct (decide (true = false)) as [?|_]; [done|].
  csimpl.
  split_and!.
  - by rewrite Hperm, Hq.
  - apply dispatched_cons; [|exact Hflags].
    split; [|done]. intros _. exists team. split; [done|]. by apply atCapacity_size.
  - exact Ht.
  - done.
  - rewrite Hl. by rewrite <- (assoc_L (++)).
  - rewrite Hm. by rewrite <- (assoc_L (++)).
  - rewrite Hp. lia.
  - lia.
  - lia.
  - constructor; [done|].
    apply Forall_forall; intros x Hx; apply Hleast.
    rewrite Hq; apply elem_of_app; by left.
  - intros taken left [->|Htaken]%elem_of_cons Hin;
      [apply Hleast; rewrite Hq; apply elem_of_app; by right|by apply Hleft].
  - done.
  - done.
  - destruct Hstop as [Hstop|Hstop]; [left; by rewrite Hstop|by right].
Qed.

(** ** [pushToConcurrencyQueue] *)

Lemma tell_off c w : correctnessChecking (config w) = false → tell c w = w.
Proof. intros H. unfold tell. by rewrite H. Qed.

Lemma exec_pushJob teamId jobId priority timeout crawlId r rest w :
  ∃ rec,
    exec (FDBQueueClient.pushJob teamId jobId priority timeout crawlId) (r :: rest) w
    = ((if bool_decide (is_Some (answer (settled r)))
        then tell (confirmPush jobId) else λ w, w)
         (requested (mkRequest POST (serviceUrl (config w) +:+ "/queue/push")
                       (Some (PushJobRequest teamId jobId (dateNow w) priority timeout crawlId))
                       None) r rec
            (tell (recordPush jobId teamId priority (dateNow w) crawlId) w)),
       Finished (bool_decide (is_Some (answer (settled r)))), rest)
    ∧ operationType rec = push
    ∧ success rec = bool_decide (is_Some (answer (settled r))).
Proof.
  unfold FDBQueueClient.pushJob. cbn [exec Date_now gets mbind Prog_bind bind].
  rewrite exec_bind, exec_oracle, exec_bind.
  destruct (exec_request POST "/queue/push" push
              (Some (PushJobRequest teamId jobId (dateNow w) priority timeout crawlId))
              r rest (tell (recordPush jobId teamId priority (dateNow w) crawlId) w))
    as (rec & err & Hreq & Hop & Hsucc & _).
  rewrite config_tell in Hreq. rewrite Hreq. cbn [FDBQueueClient.succeeded].
  exists rec. split; [|done]. rewrite exec_bind.
  destruct (bool_decide (is_Some (answer (settled r)))) eqn:Haccepted;
    destruct (correctnessChecking (config w)) eqn:Hchecker; cbn [andb].
  - by rewrite exec_oracle.
  - cbn [exec skip]. rewrite (tell_off (confirmPush jobId)); [done|].
    by rewrite config_requested, config_tell.
  - done.
  - done.
Qed.

(** [pushToConcurrencyQueue(client, job)] run on its own. For a tenant that
    does not exist it returns [false] at once: nothing is sent and nothing
    changes. Otherwise it makes one [pushJob] call with the job's id,
    priority and crawl id and the ten minute timeout, returns what [pushJob]
    returns, and adds one to the tenant's [queuedJobs] exactly when that is
    [true], that is when the answer is 2xx with a body that parses as JSON;
    after any other answer the counter is as before, whatever the service
    has done with the job. No other field of the tenant and no other tenant
    changes. *)
Theorem pushToConcurrencyQueue_counts_successes (job : MainQueueJob.t) (r : Resumption)
    (rest : list Resumption) (w : World) :
  (JsMap.get (MainQueueJob.teamId job) (teams w) = None →
   exec (ProductionSimulator.pushToConcurrencyQueue job) (r :: rest) w
   = (w, Finished false, r :: rest))
  ∧ (∀ team, JsMap.get (MainQueueJob.teamId job) (teams w) = Some team →
     ∃ rec w',
       exec (ProductionSimulator.pushToConcurrencyQueue job) (r :: rest) w
       = (w', Finished (bool_decide (is_Some (answer (settled r)))), rest)
       ∧ log w' =
           log w
           ++ told w (recordPush (MainQueueJob.jobId job) (MainQueueJob.teamId job)
                        (MainQueueJob.priority job) (dateNow w) (MainQueueJob.crawlId job))
           ++ [EFetch (mkRequest POST (serviceUrl (config w) +:+ "/queue/push")
                         (Some (PushJobRequest (MainQueueJob.teamId job)
                                  (MainQueueJob.jobId job) (dateNow w)
                                  (MainQueueJob.priority job) 600000
                                  (MainQueueJob.crawlId job)))
                         None);
               EMetrics rec]
           ++ (if bool_decide (is_Some (answer (settled r)))
               then told w (confirmPush (MainQueueJob.jobId job))
                    ++ [EQueuedInc (MainQueueJob.teamId job)]
               else [])
       ∧ success rec = bool_decide (is_Some (answer (settled r)))
       ∧ JsMap.get (MainQueueJob.teamId job) (teams w')
         = Some (TeamState.with_queuedJobs
                   (λ n, if bool_decide (is_Some (answer (settled r))) then n + 1 else n)
                   team)
       ∧ (∀ id, id ≠ MainQueueJob.teamId job →
            JsMap.get id (teams w') = JsMap.get id (teams w))
       ∧ mainQueue w' = mainQueue w).
Proof.
  split.
  - intros Hteam. unfold ProductionSimulator.pushToConcurrencyQueue,
      ProductionSimulator.getTeam.
    cbn [exec gets mbind Prog_bind bind]. by rewrite Hteam.
  - intros team Hteam.
    unfold ProductionSimulator.pushToConcurrencyQueue, ProductionSimulator.getTeam.
    cbn [exec gets mbind Prog_bind bind]. rewrite Hteam.
    change (bind ?p ?f) with (p ≫= f). rewrite exec_bind.
    destruct (exec_pushJob (MainQueueJob.teamId job) (MainQueueJob.jobId job)
                (MainQueueJob.priority job) ProductionSimulator.jobTimeout
                (MainQueueJob.crawlId job) r rest w) as (rec & -> & Hop & Hsucc).
    exists rec.
    destruct (bool_decide (is_Some (answer (settled r)))) eqn:Haccepted.
    + rewrite exec_bind. cbn [exec]. eexists. split; [reflexivity|].
      split_and!.
      * rewrite log_emit, log_with_team, log_tell, log_requested, log_tell.
        unfold told at 2. rewrite config_requested, config_tell.
        fold (told w (confirmPush (MainQueueJob.jobId job))).
        by rewrite <- !(assoc_L (++)).
      * done.
      * rewrite teams_emit, teams_with_team, teams_tell, teams_requested, teams_tell.
        rewrite JsMap_get_update_eq, Hteam. by destruct team.
      * intros id Hid.
        rewrite teams_emit, teams_with_team, teams_tell, teams_requested, teams_tell.
        by rewrite JsMap_get_update_ne.
      * cbn. by rewrite mainQueue_tell, mainQueue_requested, mainQueue_tell.
    + cbn [exec skip]. eexists. split; [reflexivity|].
      split_and!.
      * rewrite log_requested, log_tell. by rewrite <- !(assoc_L (++)).
      * done.
      * rewrite teams_requested, teams_tell, Hteam. by destruct team.
      * intros id Hid. by rewrite teams_requested, teams_tell.
      * by rewrite mainQueue_requested, mainQueue_tell.
Qed.

Lemma pushToConcurrencyQueue_counts_successes_witness :
  ∃ w' team,
    exec (ProductionSimulator.pushToConcurrencyQueue Scenario.jobB)
      [Scenario.answered JEmptyObject 10] Scenario.full
    = (w', Finished true, [])
    ∧ JsMap.get Scenario.team0 (teams w') = Some team
    ∧ TeamState.queuedJobs team = 1.
Proof.
  destruct (JsMap.get (MainQueueJob.teamId Scenario.jobB) (teams Scenario.full))
    as [team|] eqn:Hteam; [|vm_compute in Hteam; discriminate].
  destruct (proj2 (pushToConcurrencyQueue_counts_successes Scenario.jobB
                     (Scenario.answered JEmptyObject 10) [] Scenario.full) team Hteam)
    as (rec & w' & Hrun & _ & _ & Hget & _).
  exists w'. eexists. split; [exact Hrun|]. split; [exact Hget|].
  vm_compute in Hteam. injection Hteam as <-. reflexivity.
Defined.

(** ** Tasks for the jobs that can be completed *)

Lemma runTasks_spec (tasks : list (Prog unit)) : ∀ s : Simulation.System,
  let s' := foldl (λ s task, Simulation.runTask task s) s tasks in
  let started := Z.to_nat (Z.max 0 (Semaphore.permits (Simulation.semaphore s))) in
  Simulation.world s' = Simulation.world s
  ∧ Simulation.microtasks s' = Simulation.microtasks s ++ take started tasks
  ∧ Semaphore.waiting (Simulation.semaphore s')
    = Semaphore.waiting (Simulation.semaphore s) ++ drop started tasks
  ∧ Semaphore.permits (Simulation.semaphore s')
    = Semaphore.permits (Simulation.semaphore s)
      - Z.of_nat (length (take started tasks))
  ∧ Simulation.inFlight s' = Simulation.inFlight s
  ∧ Simulation.overflowQueue s' = Simulation.overflowQueue s
  ∧ Simulation.pending s' = Simulation.pending s
  ∧ Simulation.phase s' = Simulation.phase s.
Proof.
  induction tasks as [|task tasks IH]; intros s; cbn [foldl].
  { cbn zeta. rewrite take_nil, drop_nil, !(right_id_L [] (++)). cbn.
    split_and!; try done; lia. }
  specialize (IH (Simulation.runTask task s)). cbn zeta in IH |- *.
  destruct IH as (Hw & Hm & Hwait & Hp & Hf & Ho & Hpend & Hphase).
  rewrite Hw, Hm, Hwait, Hp, Hf, Ho, Hpend, Hphase. clear Hw Hm Hwait Hp Hf Ho Hpend Hphase.
  unfold Simulation.runTask, Semaphore.acquire.
  destruct (Z.ltb_spec 0 (Semaphore.permits (Simulation.semaphore s))) as [Hpos|Hnone]; cbn.
  - replace (Z.to_nat (0 `max` Semaphore.permits (Simulation.semaphore s)))
      with (S (Z.to_nat (0 `max` (Semaphore.permits (Simulation.semaphore s) - 1)))) by lia.
    cbn [take drop length]. rewrite <- !(assoc_L (++)). cbn.
    split_and!; try done; lia.
  - replace (Z.to_nat (0 `max` Semaphore.permits (Simulation.semaphore s))) with 0%nat by lia.
    cbn [take drop length]. rewrite <- !(assoc_L (++)). cbn.
    split_and!; try done; lia.
Qed.

Lemma spawnCompletions_flat task now s :
  Simulation.spawnCompletions task now s
  = foldl (λ s t, Simulation.runTask t s) s
      (JsMap.values (teams (Simulation.world s)) ≫= λ team,
         task (TeamState.teamId team)
         <$> ProductionSimulator.getCompletableJobs
               (jobProcessingDelayMs (config (Simulation.world s))) team now).
Proof.
  unfold Simulation.spawnCompletions.
  assert (Hinner : ∀ id l s0,
            foldl (λ s1 a, Simulation.runTask (task id a) s1) s0 l
            = foldl (λ s1 t, Simulation.runTask t s1) s0 (task id <$> l)).
  { intros id l. induction l as [|a l IHl]; intros s0; cbn [foldl fmap list_fmap]; [done|].
    by rewrite IHl. }
  assert (Houter : ∀ ts s0,
            Simulation.world s0 = Simulation.world s →
            foldl (λ s1 team,
                     foldl (λ s2 a, Simulation.runTask (task (TeamState.teamId team) a) s2) s1
                       (ProductionSimulator.getCompletableJobs
                          (jobProcessingDelayMs (config (Simulation.world s1))) team now))
              s0 ts
            = foldl (λ s1 t, Simulation.runTask t s1) s0
                (ts ≫= λ team,
                   task (TeamState.teamId team)
                   <$> ProductionSimulator.getCompletableJobs
                         (jobProcessingDelayMs (config (Simulation.world s))) team now)).
  { intros ts. induction ts as [|team ts IH]; intros s0 Hs0; cbn [foldl]; [done|].
    rewrite bind_cons, foldl_app, Hinner, Hs0. apply IH.
    destruct (runTasks_spec
                (task (TeamState.teamId team)
                 <$> ProductionSimulator.getCompletableJobs
                       (jobProcessingDelayMs (config (Simulation.world s))) team now) s0)
      as [Hw _].
    by rewrite Hw. }
  by apply Houter.
Qed.

(** Phase 4 of the main loop and the body of the drain loop, from any
    state. The jobs of a tenant that can be completed are its active jobs
    started at least [jobProcessingDelayMs] before [now], in the order they
    were started. One task is made for each of them, tenant by tenant: while
    the semaphore has permits a task takes one and is made ready to start, the
    others queue at the semaphore in the same order. Nothing else changes; in
    particular a job stays active, and is given another task by the next
    pass, until a task has removed it. *)
Theorem spawnCompletions_tasks (task : string → ActiveJob.t → Prog unit) (now : Z)
    (s : Simulation.System) :
  ∃ tasks ready,
    tasks
    = (JsMap.values (teams (Simulation.world s)) ≫= λ team,
         task (TeamState.teamId team)
         <$> filter (λ job, jobProcessingDelayMs (config (Simulation.world s))
                            ≤ now - ActiveJob.startTime job)
               (JsMap.values (TeamState.activeJobs team)))
    ∧ ready = Z.to_nat (Z.max 0 (Semaphore.permits (Simulation.semaphore s)))
    ∧ Simulation.world (Simulation.spawnCompletions task now s) = Simulation.world s
    ∧ Simulation.microtasks (Simulation.spawnCompletions task now s)
      = Simulation.microtasks s ++ take ready tasks
    ∧ Semaphore.waiting (Simulation.semaphore (Simulation.spawnCompletions task now s))
      = Semaphore.waiting (Simulation.semaphore s) ++ drop ready tasks
    ∧ Semaphore.permits (Simulation.semaphore (Simulation.spawnCompletions task now s))
      = Semaphore.permits (Simulation.semaphore s) - Z.of_nat (length (take ready tasks))
    ∧ Simulation.inFlight (Simulation.spawnCompletions task now s) = Simulation.inFlight s
    ∧ Simulation.pending (Simulation.spawnCompletions task now s) = Simulation.pending s
    ∧ Simulation.phase (Simulation.spawnCompletions task now s) = Simulation.phase s.
Proof.
  eexists _, _. split; [reflexivity|]. split; [reflexivity|].
  rewrite spawnCompletions_flat.
  destruct (runTasks_spec
              (JsMap.values (teams (Simulation.world s)) ≫= λ team,
                 task (TeamState.teamId team)
                 <$> ProductionSimulator.getCompletableJobs
                       (jobProcessingDelayMs (config (Simulation.world s))) team now) s)
    as (Hw & Hm & Hwait & Hp & Hf & Ho & Hpend & Hphase).
  by split_and!.
Qed.

(** ** Totals and the tier summary *)

Lemma foldl_add_shift {A} (c : A → Z) (l : list A) (a : Z) :
  foldl (λ n x, n + c x) a l = a + foldl (λ n x, n + c x) 0 l.
Proof.
  revert a. induction l as [|x l IH]; intros a; cbn [foldl]; [lia|].
  rewrite (IH (a + c x)), (IH (0 + c x)). lia.
Qed.

Lemma foldl_add_nonneg {A} (c : A → Z) (l : list A) :
  (∀ x, 0 ≤ c x) → 0 ≤ foldl (λ n x, n + c x) 0 l.
Proof.
  intros Hc. induction l as [|x l IH]; cbn [foldl]; [done|].
  rewrite foldl_add_shift. specialize (Hc x). lia.
Qed.

Lemma foldl_add_zero {A} (c : A → Z) (l : list A) :
  (∀ x, 0 ≤ c x) → foldl (λ n x, n + c x) 0 l = 0 → ∀ x, x ∈ l → c x = 0.
Proof.
  intros Hc. induction l as [|x l IH]; cbn [foldl]; [by intros _ ? ?%elem_of_nil|].
  rewrite foldl_add_shift. intros Hsum y Hy.
  pose proof (foldl_add_nonneg c l Hc) as Hrest. pose proof (Hc x) as Hx.
  apply elem_of_cons in Hy as [->|Hy]; [lia|].
  apply IH; [lia|done].
Qed.

Lemma foldl_add_app {A} (c : A → Z) (l1 l2 : list A) :
  foldl (λ n x, n + c x) 0 (l1 ++ l2)
  = foldl (λ n x, n + c x) 0 l1 + foldl (λ n x, n + c x) 0 l2.
Proof. by rewrite foldl_app, foldl_add_shift. Qed.

Lemma getTotalActiveJobs_zero w :
  0 ≤ ProductionSimulator.getTotalActiveJobs w
  ∧ (ProductionSimulator.getTotalActiveJobs w = 0 ↔
     ∀ team, team ∈ JsMap.values (teams w) → TeamState.activeJobs team = []).
Proof.
  unfold ProductionSimulator.getTotalActiveJobs.
  assert (Hsize : ∀ team : TeamState.t, 0 ≤ JsMap.size (TeamState.activeJobs team)).
  { intros team. apply JsMap_size_nonneg. }
  split; [by apply foldl_add_nonneg|]. split.
  - intros Hzero team Hteam.
    pose proof (foldl_add_zero _ _ Hsize Hzero team Hteam) as Hteam0.
    unfold JsMap.size in Hteam0. destruct (TeamState.activeJobs team); [done|]. cbn in Hteam0. lia.
  - intros Hall. induction (JsMap.values (teams w)) as [|team l IH]; cbn [foldl]; [done|].
    rewrite foldl_add_shift, IH.
    + rewrite (Hall team) by (by left). done.
    + intros t Ht. apply Hall. by right.
Qed.

Lemma JsMap_elem_of_update {V} k (f : V → V) (m : JsMap.t V) name v :
  (name, v) ∈ JsMap.update k f m →
  (name, v) ∈ m ∨ (name = k ∧ ∃ v0, JsMap.get k m = Some v0 ∧ v = f v0).
Proof.
  induction m as [|[k' v'] m IH]; cbn [JsMap.update JsMap.get]; [by left|].
  destruct (decide (k = k')) as [<-|Hne].
  - intros [[= -> ->]|Hin]%elem_of_cons.
    + right. split; [done|]. by exists v'.
    + left. by right.
  - intros [[= -> ->]|Hin]%elem_of_cons.
    + left. by left.
    + destruct (IH Hin) as [?|?]; [left; by right|by right].
Qed.

Lemma JsMap_get_None_keys {V} k (m : JsMap.t V) : JsMap.get k m = None → k ∉ m.*1.
Proof.
  intros Hnone Hin. destruct (JsMap_get_is_Some k m Hin) as [v Hv]. congruence.
Qed.

Lemma JsMap_sum_update {V} (c : V → Z) k (f : V → V) (m : JsMap.t V) v0 :
  JsMap.get k m = Some v0 →
  foldl (λ n v, n + c v) 0 (JsMap.values (JsMap.update k f m))
  = foldl (λ n v, n + c v) 0 (JsMap.values m) + (c (f v0) - c v0).
Proof.
  unfold JsMap.values.
  induction m as [|[k' v'] m IH]; cbn [JsMap.update JsMap.get]; [done|].
  destruct (decide (k = k')) as [<-|Hne].
  - intros [= ->]. csimpl. rewrite (foldl_add_shift c _ (0 + c (f v0))),
      (foldl_add_shift c _ (0 + c v0)). lia.
  - intros Hget. csimpl. rewrite !(foldl_add_shift c _ (0 + c v')), (IH Hget). lia.
Qed.

(** What the grouping loop keeps, [seen] being the tenants gone through. *)
Lemma groupByTier_spec (ts : list TeamState.t) :
  ∀ (seen : list TeamState.t) (tierMap : JsMap.t (list TeamState.t * Tier.t)),
    NoDup tierMap.*1 →
    (∀ name group, (name, group) ∈ tierMap →
       Tier.name group.2 = name ∧ group.1 ≠ []
       ∧ ∀ team, team ∈ group.1 →
           team ∈ seen ∧ Tier.name (TeamState.tier team) = name) →
    (∀ team, team ∈ seen → Tier.name (TeamState.tier team) ∈ tierMap.*1) →
    foldl (λ total group,
             total + foldl (λ total team, total + TeamState.completedJobs team) 0 group.1)
      0 (JsMap.values tierMap)
    = foldl (λ total team, total + TeamState.completedJobs team) 0 seen →
    NoDup (foldl (λ tierMap team,
                    match JsMap.get (Tier.name (TeamState.tier team)) tierMap with
                    | Some _ =>
                        JsMap.update (Tier.name (TeamState.tier team))
                          (λ existing, (existing.1 ++ [team], existing.2)) tierMap
                    | None =>
                        JsMap.set (Tier.name (TeamState.tier team))
                          ([team], TeamState.tier team) tierMap
                    end) tierMap ts).*1
    ∧ (∀ name group,
         (name, group) ∈ foldl (λ tierMap team,
                    match JsMap.get (Tier.name (TeamState.tier team)) tierMap with
                    | Some _ =>
                        JsMap.update (Tier.name (TeamState.tier team))
                          (λ existing, (existing.1 ++ [team], existing.2)) tierMap
                    | None =>
                        JsMap.set (Tier.name (TeamState.tier team))
                          ([team], TeamState.tier team) tierMap
                    end) tierMap ts →
         Tier.name group.2 = name ∧ group.1 ≠ []
         ∧ ∀ team, team ∈ group.1 →
             team ∈ seen ++ ts ∧ Tier.name (TeamState.tier team) = name)
    ∧ (∀ team, team ∈ seen ++ ts →
         Tier.name (TeamState.tier team)
         ∈ (foldl (λ tierMap team,
                    match JsMap.get (Tier.name (TeamState.tier team)) tierMap with
                    | Some _ =>
                        JsMap.update (Tier.name (TeamState.tier team))
                          (λ existing, (existing.1 ++ [team], existing.2)) tierMap
                    | None =>
                        JsMap.set (Tier.name (TeamState.tier team))
                          ([team], TeamState.tier team) tierMap
                    end) tierMap ts).*1)
    ∧ foldl (λ total group,
               total + foldl (λ total team, total + TeamState.completedJobs team) 0 group.1)
        0 (JsMap.values
             (foldl (λ tierMap team,
                    match JsMap.get (Tier.name (TeamState.tier team)) tierMap with
                    | Some _ =>
                        JsMap.update (Tier.name (TeamState.tier team))
                          (λ existing, (existing.1 ++ [team], existing.2)) tierMap
                    | None =>
                        JsMap.set (Tier.name (TeamState.tier team))
                          ([team], TeamState.tier team) tierMap
                    end) tierMap ts))
      = foldl (λ total team, total + TeamState.completedJobs team) 0 (seen ++ ts).
Proof.
  induction ts as [|team ts IH]; intros seen tierMap Hnodup Hgroups Hseen Hsum; cbn [foldl].
  { by rewrite (right_id_L [] (++)). }
  replace (seen ++ team :: ts) with ((seen ++ [team]) ++ ts) by (by rewrite <- (assoc_L (++))).
  destruct (JsMap.get (Tier.name (TeamState.tier team)) tierMap) as [existing|] eqn:Hget.
  - apply IH.
    + by rewrite JsMap_keys_update.
    + intros name group [Hin|(-> & g0 & Hg0 & ->)]%JsMap_elem_of_update.
      * destruct (Hgroups name group Hin) as (Hname & Hnonempty & Hteams).
        split; [done|]. split; [done|].
        intros t Ht. destruct (Hteams t Ht) as [? ?]. split; [|done].
        apply elem_of_app. by left.
      * rewrite Hget in Hg0. injection Hg0 as <-. cbn [fst snd].
        destruct (Hgroups _ _ (JsMap_get_elem_of _ _ _ Hget)) as (Hname & Hnonempty & Hteams).
        split; [done|]. split; [by destruct (existing.1)|].
        intros t [Ht|Ht]%elem_of_app.
        -- destruct (Hteams t Ht) as [? ?]. split; [|done]. apply elem_of_app. by left.
        -- apply list_elem_of_singleton in Ht as ->. split; [|done].
           apply elem_of_app. right. by left.
    + rewrite JsMap_keys_update. intros t [Ht|Ht]%elem_of_app; [by apply Hseen|].
      apply list_elem_of_singleton in Ht as ->.
      apply list_elem_of_fmap. exists (Tier.name (TeamState.tier team), existing).
      split; [done|]. by apply JsMap_get_elem_of.
    + rewrite (JsMap_sum_update _ _ _ _ existing Hget). cbn [fst snd].
      rewrite Hsum, !foldl_add_app. cbn [foldl]. lia.
  - pose proof (JsMap_get_None_keys _ _ Hget) as Hfresh.
    rewrite JsMap_set_fresh by done. apply IH.
    + rewrite fmap_app. apply NoDup_app. split; [done|]. split.
      * intros x Hx [->|?%elem_of_nil]%elem_of_cons; done.
      * apply NoDup_singleton.
    + intros name group [Hin|Hin]%elem_of_app.
      * destruct (Hgroups name group Hin) as (Hname & Hnonempty & Hteams).
        split; [done|]. split; [done|].
        intros t Ht. destruct (Hteams t Ht) as [? ?]. split; [|done].
        apply elem_of_app. by left.
      * apply list_elem_of_singleton in Hin. injection Hin as -> ->. cbn [fst snd].
        split; [done|]. split; [done|].
        intros t Ht. apply list_elem_of_singleton in Ht as ->. split; [|done].
        apply elem_of_app. right. by left.
    + rewrite fmap_app. intros t [Ht|Ht]%elem_of_app; apply elem_of_app.
      * left. by apply Hseen.
      * right. apply list_elem_of_singleton in Ht as ->. by left.
    + unfold JsMap.values. rewrite fmap_app. csimpl.
      rewrite foldl_app. cbn [foldl fst]. fold (JsMap.values tierMap).
      rewrite Hsum, !foldl_add_app. cbn [foldl]. lia.
Qed.

Lemma jobCount_idle (l : list TeamState.t) :
  (∀ team, team ∈ l → TeamState.activeJobs team = []) →
  foldl (λ count team,
           foldl (λ count (_ : ActiveJob.t), count + 1) count
             (JsMap.values (TeamState.activeJobs team))) 0 l = 0.
Proof.
  induction l as [|team l IH]; intros Hall; cbn [foldl]; [done|].
  rewrite (Hall team) by (by left). cbn [JsMap.values fmap list_fmap foldl].
  apply IH. intros t Ht. apply Hall. by right.
Qed.

(** The tier summary of the final report. It has one row for every tier
    name that some tenant has, and no name twice; the completed jobs of the rows add
    up to [getTotalCompletedJobs], so every tenant is counted in exactly one
    row; and when no job is active every row reports the configured
    processing delay as its average job time. *)
Theorem getTierStats_accounts (w : World) :
  foldl (λ total row, total + TierStats.totalJobsCompleted row) 0
    (ProductionSimulator.getTierStats w)
  = ProductionSimulator.getTotalCompletedJobs w
  ∧ NoDup (TierStats.tierName <$> ProductionSimulator.getTierStats w)
  ∧ (∀ name,
       name ∈ TierStats.tierName <$> ProductionSimulator.getTierStats w ↔
       ∃ team, team ∈ JsMap.values (teams w) ∧ Tier.name (TeamState.tier team) = name)
  ∧ (ProductionSimulator.getTotalActiveJobs w = 0 →
     ∀ row, row ∈ ProductionSimulator.getTierStats w →
       TierStats.avgJobTimeMs row = Double.ofZ (jobProcessingDelayMs (config w))).
Proof.
  destruct (groupByTier_spec (JsMap.values (teams w)) [] [])
    as (Hnodup & Hgroups & Hcover & Hsum).
  { apply NoDup_nil_2. }
  { by intros name group ?%elem_of_nil. }
  { by intros team ?%elem_of_nil. }
  { done. }
  cbn [app] in Hgroups, Hcover, Hsum.
  fold (ProductionSimulator.groupByTier (JsMap.values (teams w))) in Hnodup, Hgroups, Hcover, Hsum.
  assert (Hnames : TierStats.tierName <$> ProductionSimulator.getTierStats w
                   = (ProductionSimulator.groupByTier (JsMap.values (teams w))).*1).
  { unfold ProductionSimulator.getTierStats, JsMap.values.
    rewrite <- !list_fmap_compose. apply list_fmap_ext.
    intros i [name group] Hi. cbn.
    by destruct (Hgroups name group (list_elem_of_lookup_2 _ _ _ Hi)) as [? _]. }
  split_and!.
  - unfold ProductionSimulator.getTierStats, ProductionSimulator.getTotalCompletedJobs.
    by rewrite foldl_fmap.
  - by rewrite Hnames.
  - intros name. rewrite Hnames. split.
    + intros ([name' group] & -> & Hin)%list_elem_of_fmap. cbn.
      destruct (Hgroups name' group Hin) as (_ & Hnonempty & Hteams).
      destruct (group.1) as [|team rest] eqn:Hgroup; [done|].
      exists team. apply Hteams. by left.
    + intros (team & Hteam & <-). by apply Hcover.
  - intros Hidle row Hrow.
    pose proof (proj1 (proj2 (getTotalActiveJobs_zero w)) Hidle) as Hnone.
    unfold ProductionSimulator.getTierStats in Hrow.
    apply list_elem_of_fmap in Hrow as (group & -> & Hin).
    unfold JsMap.values in Hin. apply list_elem_of_fmap in Hin as ([name g] & -> & Hin).
    destruct (Hgroups name g Hin) as (_ & _ & Hteams).
    unfold ProductionSimulator.tierStatsOf. cbn [TierStats.avgJobTimeMs snd fst].
    rewrite jobCount_idle; [done|].
    intros team Hteam. apply Hnone. by apply Hteams.
Qed.
